(** * Doc-Automation: a shallow embedding of the document revision engine

    The development follows [f3.py] (and the Streamlit front end
    [st_ui.py], which repeats the two pipelines of [f3.App]).  Python
    strings are sequences of Unicode code points, dictionaries are finite
    maps, documents are ordered sequences of body children. *)

From Stdlib Require Import ZArith Ascii String Lia Bool.
From stdpp Require Import gmap list strings sorting.

Open Scope list_scope.

(** * Python strings *)

Module Py.

Local Open Scope Z_scope.

(** A [str] is a sequence of code points. *)
Abbreviation str := (list Z).

(** Decoding of the UTF-8 bytes of a Rocq string literal, so that texts can
    be written as literals. *)
Fixpoint utf8_decode (bs : list Z) : str :=
  match bs with
  | [] => []
  | b0 :: r0 =>
    if b0 <? 128 then b0 :: utf8_decode r0
    else match r0 with
    | [] => [b0]
    | b1 :: r1 =>
      if b0 <? 224 then ((b0 - 192) * 64 + (b1 - 128)) :: utf8_decode r1
      else match r1 with
      | [] => [b0; b1]
      | b2 :: r2 =>
        if b0 <? 240
        then ((b0 - 224) * 4096 + (b1 - 128) * 64 + (b2 - 128)) :: utf8_decode r2
        else match r2 with
        | [] => [b0; b1; b2]
        | b3 :: r3 =>
          ((b0 - 240) * 262144 + (b1 - 128) * 4096 + (b2 - 128) * 64 + (b3 - 128))
            :: utf8_decode r3
        end
      end
    end
  end.

Definition lit (s : string) : str :=
  utf8_decode (map (fun a => Z.of_N (N_of_ascii a)) (list_ascii_of_string s)).

(** The double quote character, U+0022. *)
Definition dquote : Z := 34.
(** The modification marker, U+002A. *)
Definition star : Z := 42.

Definition in_ranges (tbl : list (Z * Z)) (c : Z) : bool :=
  existsb (fun r => (fst r <=? c) && (c <=? snd r)) tbl.

(** [str.isspace] on one character, which is also [\s] of [re] on [str]
    patterns (Unicode 14.0, the database of CPython 3.11). *)
Definition space_table : list (Z * Z) :=
  [(9, 13); (28, 32); (133, 133); (160, 160); (5760, 5760); (8192, 8202);
   (8232, 8233); (8239, 8239); (8287, 8287); (12288, 12288)].

Definition isspace (c : Z) : bool := in_ranges space_table c.

(** [\d] of [re] on [str] patterns: general category Nd. *)
Definition decimal_table : list (Z * Z) :=
  [(48, 57); (1632, 1641); (1776, 1785); (1984, 1993); (2406, 2415);
   (2534, 2543); (2662, 2671); (2790, 2799); (2918, 2927); (3046, 3055);
   (3174, 3183); (3302, 3311); (3430, 3439); (3558, 3567); (3664, 3673);
   (3792, 3801); (3872, 3881); (4160, 4169); (4240, 4249); (6112, 6121);
   (6160, 6169); (6470, 6479); (6608, 6617); (6784, 6793); (6800, 6809);
   (6992, 7001); (7088, 7097); (7232, 7241); (7248, 7257); (42528, 42537);
   (43216, 43225); (43264, 43273); (43472, 43481); (43504, 43513);
   (43600, 43609); (44016, 44025); (65296, 65305); (66720, 66729);
   (68912, 68921); (69734, 69743); (69872, 69881); (69942, 69951);
   (70096, 70105); (70384, 70393); (70736, 70745); (70864, 70873);
   (71248, 71257); (71360, 71369); (71472, 71481); (71904, 71913);
   (72016, 72025); (72784, 72793); (73040, 73049); (73120, 73129);
   (92768, 92777); (92864, 92873); (93008, 93017); (120782, 120831);
   (123200, 123209); (123632, 123641); (125264, 125273); (130032, 130041)].

Definition isdecimal_char (c : Z) : bool := in_ranges decimal_table c.

(** Characters on which [str.isdigit] holds: Numeric_Type Digit or Decimal. *)
Definition digit_table : list (Z * Z) :=
  [(48, 57); (178, 179); (185, 185); (1632, 1641); (1776, 1785); (1984, 1993);
   (2406, 2415); (2534, 2543); (2662, 2671); (2790, 2799); (2918, 2927);
   (3046, 3055); (3174, 3183); (3302, 3311); (3430, 3439); (3558, 3567);
   (3664, 3673); (3792, 3801); (3872, 3881); (4160, 4169); (4240, 4249);
   (4969, 4977); (6112, 6121); (6160, 6169); (6470, 6479); (6608, 6618);
   (6784, 6793); (6800, 6809); (6992, 7001); (7088, 7097); (7232, 7241);
   (7248, 7257); (8304, 8304); (8308, 8313); (8320, 8329); (9312, 9320);
   (9332, 9340); (9352, 9360); (9450, 9450); (9461, 9469); (9471, 9471);
   (10102, 10110); (10112, 10120); (10122, 10130); (42528, 42537);
   (43216, 43225); (43264, 43273); (43472, 43481); (43504, 43513);
   (43600, 43609); (44016, 44025); (65296, 65305); (66720, 66729);
   (68160, 68163); (68912, 68921); (69216, 69224); (69714, 69722);
   (69734, 69743); (69872, 69881); (69942, 69951); (70096, 70105);
   (70384, 70393); (70736, 70745); (70864, 70873); (71248, 71257);
   (71360, 71369); (71472, 71481); (71904, 71913); (72016, 72025);
   (72784, 72793); (73040, 73049); (73120, 73129); (92768, 92777);
   (92864, 92873); (93008, 93017); (120782, 120831); (123200, 123209);
   (123632, 123641); (125264, 125273); (127232, 127242); (130032, 130041)].

Definition isdigit_char (c : Z) : bool := in_ranges digit_table c.

(** [s.isdigit()]: every character is a digit and there is at least one. *)
Definition isdigit (s : str) : bool :=
  match s with [] => false | _ => forallb isdigit_char s end.

(** [s.lstrip()], [s.rstrip()], [s.strip()] with no argument. *)
Fixpoint lstrip (s : str) : str :=
  match s with
  | [] => []
  | c :: r => if isspace c then lstrip r else s
  end.

Definition rstrip (s : str) : str := rev (lstrip (rev s)).

Definition strip (s : str) : str := rstrip (lstrip s).

(** [s.startswith(p)]. *)
Fixpoint startswith (s p : str) : bool :=
  match p, s with
  | [], _ => true
  | _ :: _, [] => false
  | x :: p', c :: s' => (x =? c) && startswith s' p'
  end.

(** [sub in s]. *)
Fixpoint contains (sub s : str) : bool :=
  startswith s sub ||
  match s with
  | [] => false
  | _ :: r => contains sub r
  end.

(** [c in s] for one character [c]. *)
Definition has_char (c : Z) (s : str) : bool := existsb (Z.eqb c) s.

(** [s.replace(old, new)]: the occurrences of [old] are found left to
    right and do not overlap.  [skip] counts the characters of the
    occurrence found last that are still to be passed over. *)
Fixpoint replace_from (old new : str) (skip : nat) (s : str) : str :=
  match s with
  | [] => []
  | c :: r =>
    match skip with
    | S k => replace_from old new k r
    | O =>
      if startswith s old
      then new ++ replace_from old new (length old - 1) r
      else c :: replace_from old new 0 r
    end
  end.

(** With an empty [old], Python puts [new] before every character and at
    the end. *)
Definition replace (s old new : str) : str :=
  match old with
  | [] => flat_map (fun c => new ++ [c]) s ++ new
  | _ :: _ => replace_from old new 0 s
  end.

(** [s.split(sep)] for a non-empty [sep]: [cur] is the field read so far,
    in reverse. *)
Fixpoint split_from (sep : str) (skip : nat) (cur : str) (s : str) : list str :=
  match s with
  | [] => [rev cur]
  | c :: r =>
    match skip with
    | S k => split_from sep k cur r
    | O =>
      if startswith s sep
      then rev cur :: split_from sep (length sep - 1) [] r
      else split_from sep 0 (c :: cur) r
    end
  end.

Definition split (s sep : str) : list str := split_from sep 0 [] s.

(** [sep.join(l)]. *)
Fixpoint join (sep : str) (l : list str) : str :=
  match l with
  | [] => []
  | [x] => x
  | x :: r => x ++ sep ++ join sep r
  end.

(** The line boundaries of [str.splitlines]. *)
Definition is_linebreak (c : Z) : bool :=
  existsb (Z.eqb c) [10; 11; 12; 13; 28; 29; 30; 133; 8232; 8233].

(** [s.splitlines()]: a carriage return followed by a line feed is one
    boundary, and no empty last line is produced. *)
Fixpoint splitlines_from (cur : str) (s : str) : list str :=
  match s with
  | [] => match cur with [] => [] | _ => [rev cur] end
  | c :: r =>
    if is_linebreak c then
      rev cur ::
        match r with
        | c' :: r' =>
          if (c =? 13) && (c' =? 10)
          then splitlines_from [] r'
          else splitlines_from [] r
        | [] => splitlines_from [] r
        end
    else splitlines_from (c :: cur) r
  end.

Definition splitlines (s : str) : list str := splitlines_from [] s.

(** Comparison of strings: code point by code point. *)
Fixpoint str_ltb (s t : str) : bool :=
  match s, t with
  | _, [] => false
  | [], _ :: _ => true
  | x :: s', y :: t' => (x <? y) || ((x =? y) && str_ltb s' t')
  end.

Definition str_eqb (s t : str) : bool := bool_decide (s = t).

(** Truth value of a string: non-empty. *)
Definition truthy (s : str) : bool :=
  match s with [] => false | _ => true end.

(** [str.upper]: the full upper case mapping of every character (Unicode
    14.0).  [upper_runs] lists the characters with a one-character upper
    case as runs [(first, last, step, offset)]; [upper_special] lists the
    characters whose upper case has several characters. *)
Definition upper_runs : list (Z * Z * Z * Z) :=
  [
   (97, 122, 1, -32); (181, 181, 1, 743); (224, 246, 1, -32);
   (248, 254, 1, -32); (255, 255, 1, 121); (257, 303, 2, -1);
   (305, 305, 1, -232); (307, 311, 2, -1); (314, 328, 2, -1);
   (331, 375, 2, -1); (378, 382, 2, -1); (383, 383, 1, -300);
   (384, 384, 1, 195); (387, 389, 2, -1); (392, 392, 1, -1);
   (396, 396, 1, -1); (402, 402, 1, -1); (405, 405, 1, 97);
   (409, 409, 1, -1); (410, 410, 1, 163); (414, 414, 1, 130);
   (417, 421, 2, -1); (424, 424, 1, -1); (429, 429, 1, -1);
   (432, 432, 1, -1); (436, 438, 2, -1); (441, 441, 1, -1);
   (445, 445, 1, -1); (447, 447, 1, 56); (453, 453, 1, -1);
   (454, 454, 1, -2); (456, 456, 1, -1); (457, 457, 1, -2);
   (459, 459, 1, -1); (460, 460, 1, -2); (462, 476, 2, -1);
   (477, 477, 1, -79); (479, 495, 2, -1); (498, 498, 1, -1);
   (499, 499, 1, -2); (501, 501, 1, -1); (505, 543, 2, -1);
   (547, 563, 2, -1); (572, 572, 1, -1); (575, 576, 1, 10815);
   (578, 578, 1, -1); (583, 591, 2, -1); (592, 592, 1, 10783);
   (593, 593, 1, 10780); (594, 594, 1, 10782); (595, 595, 1, -210);
   (596, 596, 1, -206); (598, 599, 1, -205); (601, 601, 1, -202);
   (603, 603, 1, -203); (604, 604, 1, 42319); (608, 608, 1, -205);
   (609, 609, 1, 42315); (611, 611, 1, -207); (613, 613, 1, 42280);
   (614, 614, 1, 42308); (616, 616, 1, -209); (617, 617, 1, -211);
   (618, 618, 1, 42308); (619, 619, 1, 10743); (620, 620, 1, 42305);
   (623, 623, 1, -211); (625, 625, 1, 10749); (626, 626, 1, -213);
   (629, 629, 1, -214); (637, 637, 1, 10727); (640, 640, 1, -218);
   (642, 642, 1, 42307); (643, 643, 1, -218); (647, 647, 1, 42282);
   (648, 648, 1, -218); (649, 649, 1, -69); (650, 651, 1, -217);
   (652, 652, 1, -71); (658, 658, 1, -219); (669, 669, 1, 42261);
   (670, 670, 1, 42258); (837, 837, 1, 84); (881, 883, 2, -1);
   (887, 887, 1, -1); (891, 893, 1, 130); (940, 940, 1, -38);
   (941, 943, 1, -37); (945, 961, 1, -32); (962, 962, 1, -31);
   (963, 971, 1, -32); (972, 972, 1, -64); (973, 974, 1, -63);
   (976, 976, 1, -62); (977, 977, 1, -57); (981, 981, 1, -47);
   (982, 982, 1, -54); (983, 983, 1, -8); (985, 1007, 2, -1);
   (1008, 1008, 1, -86); (1009, 1009, 1, -80); (1010, 1010, 1, 7);
   (1011, 1011, 1, -116); (1013, 1013, 1, -96); (1016, 1016, 1, -1);
   (1019, 1019, 1, -1); (1072, 1103, 1, -32); (1104, 1119, 1, -80);
   (1121, 1153, 2, -1); (1163, 1215, 2, -1); (1218, 1230, 2, -1);
   (1231, 1231, 1, -15); (1233, 1327, 2, -1); (1377, 1414, 1, -48);
   (4304, 4346, 1, 3008); (4349, 4351, 1, 3008); (5112, 5117, 1, -8);
   (7296, 7296, 1, -6254); (7297, 7297, 1, -6253); (7298, 7298, 1, -6244);
   (7299, 7300, 1, -6242); (7301, 7301, 1, -6243); (7302, 7302, 1, -6236);
   (7303, 7303, 1, -6181); (7304, 7304, 1, 35266); (7545, 7545, 1, 35332);
   (7549, 7549, 1, 3814); (7566, 7566, 1, 35384); (7681, 7829, 2, -1);
   (7835, 7835, 1, -59); (7841, 7935, 2, -1); (7936, 7943, 1, 8);
   (7952, 7957, 1, 8); (7968, 7975, 1, 8); (7984, 7991, 1, 8);
   (8000, 8005, 1, 8); (8017, 8023, 2, 8); (8032, 8039, 1, 8);
   (8048, 8049, 1, 74); (8050, 8053, 1, 86); (8054, 8055, 1, 100);
   (8056, 8057, 1, 128); (8058, 8059, 1, 112); (8060, 8061, 1, 126);
   (8112, 8113, 1, 8); (8126, 8126, 1, -7205); (8144, 8145, 1, 8);
   (8160, 8161, 1, 8); (8165, 8165, 1, 7); (8526, 8526, 1, -28);
   (8560, 8575, 1, -16); (8580, 8580, 1, -1); (9424, 9449, 1, -26);
   (11312, 11359, 1, -48); (11361, 11361, 1, -1); (11365, 11365, 1, -10795);
   (11366, 11366, 1, -10792); (11368, 11372, 2, -1); (11379, 11379, 1, -1);
   (11382, 11382, 1, -1); (11393, 11491, 2, -1); (11500, 11502, 2, -1);
   (11507, 11507, 1, -1); (11520, 11557, 1, -7264); (11559, 11559, 1, -7264);
   (11565, 11565, 1, -7264); (42561, 42605, 2, -1); (42625, 42651, 2, -1);
   (42787, 42799, 2, -1); (42803, 42863, 2, -1); (42874, 42876, 2, -1);
   (42879, 42887, 2, -1); (42892, 42892, 1, -1); (42897, 42899, 2, -1);
   (42900, 42900, 1, 48); (42903, 42921, 2, -1); (42933, 42947, 2, -1);
   (42952, 42954, 2, -1); (42961, 42961, 1, -1); (42967, 42969, 2, -1);
   (42998, 42998, 1, -1); (43859, 43859, 1, -928); (43888, 43967, 1, -38864);
   (65345, 65370, 1, -32); (66600, 66639, 1, -40); (66776, 66811, 1, -40);
   (66967, 67003, 2, -39); (66968, 66977, 1, -39); (66980, 66993, 1, -39);
   (66996, 67001, 1, -39); (67004, 67004, 1, -39); (68800, 68850, 1, -64);
   (71872, 71903, 1, -32); (93792, 93823, 1, -32); (125218, 125251, 1, -34)].

Definition upper_special : list (Z * list Z) :=
  [
   (223, [83; 83]); (329, [700; 78]); (496, [74; 780]);
   (912, [921; 776; 769]); (944, [933; 776; 769]); (1415, [1333; 1362]);
   (7830, [72; 817]); (7831, [84; 776]); (7832, [87; 778]);
   (7833, [89; 778]); (7834, [65; 702]); (8016, [933; 787]);
   (8018, [933; 787; 768]); (8020, [933; 787; 769]); (8022, [933; 787; 834]);
   (8064, [7944; 921]); (8065, [7945; 921]); (8066, [7946; 921]);
   (8067, [7947; 921]); (8068, [7948; 921]); (8069, [7949; 921]);
   (8070, [7950; 921]); (8071, [7951; 921]); (8072, [7944; 921]);
   (8073, [7945; 921]); (8074, [7946; 921]); (8075, [7947; 921]);
   (8076, [7948; 921]); (8077, [7949; 921]); (8078, [7950; 921]);
   (8079, [7951; 921]); (8080, [7976; 921]); (8081, [7977; 921]);
   (8082, [7978; 921]); (8083, [7979; 921]); (8084, [7980; 921]);
   (8085, [7981; 921]); (8086, [7982; 921]); (8087, [7983; 921]);
   (8088, [7976; 921]); (8089, [7977; 921]); (8090, [7978; 921]);
   (8091, [7979; 921]); (8092, [7980; 921]); (8093, [7981; 921]);
   (8094, [7982; 921]); (8095, [7983; 921]); (8096, [8040; 921]);
   (8097, [8041; 921]); (8098, [8042; 921]); (8099, [8043; 921]);
   (8100, [8044; 921]); (8101, [8045; 921]); (8102, [8046; 921]);
   (8103, [8047; 921]); (8104, [8040; 921]); (8105, [8041; 921]);
   (8106, [8042; 921]); (8107, [8043; 921]); (8108, [8044; 921]);
   (8109, [8045; 921]); (8110, [8046; 921]); (8111, [8047; 921]);
   (8114, [8122; 921]); (8115, [913; 921]); (8116, [902; 921]);
   (8118, [913; 834]); (8119, [913; 834; 921]); (8124, [913; 921]);
   (8130, [8138; 921]); (8131, [919; 921]); (8132, [905; 921]);
   (8134, [919; 834]); (8135, [919; 834; 921]); (8140, [919; 921]);
   (8146, [921; 776; 768]); (8147, [921; 776; 769]); (8150, [921; 834]);
   (8151, [921; 776; 834]); (8162, [933; 776; 768]); (8163, [933; 776; 769]);
   (8164, [929; 787]); (8166, [933; 834]); (8167, [933; 776; 834]);
   (8178, [8186; 921]); (8179, [937; 921]); (8180, [911; 921]);
   (8182, [937; 834]); (8183, [937; 834; 921]); (8188, [937; 921]);
   (64256, [70; 70]); (64257, [70; 73]); (64258, [70; 76]);
   (64259, [70; 70; 73]); (64260, [70; 70; 76]); (64261, [83; 84]);
   (64262, [83; 84]); (64275, [1348; 1350]); (64276, [1348; 1333]);
   (64277, [1348; 1339]); (64278, [1358; 1350]); (64279, [1348; 1341])].

Definition upper_char (c : Z) : list Z :=
  match find (fun e => fst e =? c) upper_special with
  | Some e => snd e
  | None =>
    match find (fun r => match r with (lo, hi, step, _) =>
                    (lo <=? c) && (c <=? hi) && ((c - lo) mod step =? 0) end)
               upper_runs with
    | Some (_, _, _, offset) => [c + offset]
    | None => [c]
    end
  end.

Definition upper (s : str) : str := flat_map upper_char s.

End Py.

(** * The block model *)

(** Paragraph alignment, [WD_ALIGN_PARAGRAPH]; its members are integers
    and [LEFT] is zero. *)
Inductive Alignment :=
  | LEFT | CENTER | RIGHT | JUSTIFY | DISTRIBUTE
  | JUSTIFY_MED | JUSTIFY_HI | JUSTIFY_LOW | THAI_JUSTIFY.

(** A run.  Lengths are in English metric units; a shading is the fill
    attribute of the shading element. *)
Record Run := mkRun {
  run_text : Py.str;
  bold : option bool;
  italic : option bool;
  underline : option bool;
  font_name : option Py.str;
  font_size : option Z;
  font_color : option (Z * Z * Z);
  run_shading : option Py.str
}.

(** The properties of a paragraph; the line spacing is in 240ths of a
    line. *)
Record ParaFormat := mkParaFormat {
  style : Py.str;
  alignment : option Alignment;
  left_indent : option Z;
  right_indent : option Z;
  first_line_indent : option Z;
  space_before : option Z;
  space_after : option Z;
  line_spacing : option Z;
  paragraph_shading : option Py.str
}.

Record ParagraphT := mkParagraph {
  pformat : ParaFormat;
  runs : list Run
}.

Record CellT := mkCell {
  cell_shading : option Py.str;
  cell_paragraphs : list ParagraphT
}.

(** A table: whether it has the single-line borders of
    [set_table_borders], and its rows of cells. *)
Record TableT := mkTable {
  single_borders : bool;
  rows : list (list CellT)
}.

(** What [iter_block_items] yields: the body children that are paragraphs
    or tables, in document order. *)
Inductive Block :=
  | Paragraph (p : ParagraphT)
  | Table (t : TableT).

(** [paragraph.text]: the texts of the runs, concatenated. *)
Definition text (p : ParagraphT) : Py.str := concat (map run_text (runs p)).

Definition plain_run (s : Py.str) : Run :=
  mkRun s None None None None None None None.

Definition default_format : ParaFormat :=
  mkParaFormat (Py.lit "Normal") None None None None None None None None.

(** [doc.add_paragraph(s)] gives a paragraph of the default style with one
    run; with no text it has no run. *)
Definition new_paragraph (s : Py.str) : ParagraphT :=
  mkParagraph default_format match s with [] => [] | _ => [plain_run s] end.

Definition para (s : string) : Block := Paragraph (new_paragraph (Py.lit s)).

Definition empty_table : Block := Table (mkTable false []).

(** * Text patterns *)

(** A literal character of a pattern compiled with [re.IGNORECASE]: the
    subject character matches when it is the pattern character in either
    case.  For [Č], [l], [a] and [n] no further code point folds to them. *)
Definition ci_char (lower upper c : Z) : bool := ((c =? lower) || (c =? upper))%Z.

(** [ARTICLE_RE.match(t)] as a truth value.  The pattern, compiled with
    [re.IGNORECASE], is anchored at the start of the text and asks for the
    four letters of the word for article, at least one white space
    character, at least one decimal digit, and then letters a-z or A-Z.
    White space and digits are disjoint, so the greedy run of white space
    never has to give a character back, and the optional letters
    after the digits do not decide whether there is a match. *)
Definition ARTICLE_RE_match (t : Py.str) : bool :=
  match t with
  | c1 :: c2 :: c3 :: c4 :: r =>
    ci_char 269 268 c1 && ci_char 108 76 c2 && ci_char 97 65 c3 &&
    ci_char 110 78 c4 &&
    match r with
    | w :: r' =>
      Py.isspace w &&
      match Py.lstrip r' with
      | d :: _ => Py.isdecimal_char d
      | [] => false
      end
    | [] => false
    end
  | _ => false
  end.

(** * ArticleIndexer: [extract_articles] *)

(** The state of the loop of [extract_articles]: the dictionary, the open
    article ([None] at first) and its start. *)
Record ArticleState := mkArticleState {
  articles : gmap Py.str (nat * nat);
  current_article : option Py.str;
  start : nat
}.

(** [if current_article:] holds for a non-empty string. *)
Definition current_truthy (c : option Py.str) : bool :=
  match c with Some s => Py.truthy s | None => false end.

Definition close_article (st : ArticleState) (i : nat) : gmap Py.str (nat * nat) :=
  match current_article st with
  | Some c => if Py.truthy c then <[c := (start st, i)]> (articles st) else articles st
  | None => articles st
  end.

Definition is_header (b : Block) : bool :=
  match b with
  | Paragraph p => ARTICLE_RE_match (Py.strip (text p))
  | Table _ => false
  end.

Definition header_key (b : Block) : Py.str :=
  match b with
  | Paragraph p => Py.strip (text p)
  | Table _ => []
  end.

(** One iteration of [for i, block in enumerate(blocks)]. *)
Definition extract_step (st : ArticleState) (i : nat) (block : Block) : ArticleState :=
  if is_header block
  then mkArticleState (close_article st i) (Some (header_key block)) i
  else st.

Fixpoint extract_loop (st : ArticleState) (i : nat) (blocks : list Block) : ArticleState :=
  match blocks with
  | [] => st
  | block :: rest => extract_loop (extract_step st i block) (S i) rest
  end.

Definition extract_articles (blocks : list Block) : gmap Py.str (nat * nat) :=
  close_article (extract_loop (mkArticleState ∅ None 0) 0 blocks) (length blocks).

(** The end of the span that opens just before position [i]: the index of
    the first header among [rest], the blocks from position [i] on, or the
    length of the sequence when there is none. *)
Fixpoint next_boundary (i : nat) (rest : list Block) : nat :=
  match rest with
  | [] => i
  | b :: r => if is_header b then i else next_boundary (S i) r
  end.

(** The headers of [blocks], whose first block has index [i], each with
    its key and its span, in document order. *)
Fixpoint spans_from (i : nat) (blocks : list Block) : list (Py.str * (nat * nat)) :=
  match blocks with
  | [] => []
  | b :: r =>
    if is_header b
    then (header_key b, (i, next_boundary (S i) r)) :: spans_from (S i) r
    else spans_from (S i) r
  end.

(** Assignments to a dictionary, in order: a later one replaces an
    earlier one for the same key. *)
Definition assign_all {V} (m : gmap Py.str V) (l : list (Py.str * V)) : gmap Py.str V :=
  foldl (fun m kv => <[kv.1 := kv.2]> m) m l.

(** A sequence of length 20 with headers at 0, 5 and 12; the last block is
    a table. *)
Definition twenty_blocks : list Block :=
  [para "Član 1"; para "a"; para "b"; para "c"; para "d";
   para "Član 2"; para "e"; para "f"; para "g"; para "h"; para "i"; para "j";
   para "Član 3"; para "k"; para "l"; para "m"; para "n"; para "o"; para "p";
   empty_table].

(** * [extract_amending_ref] *)

(** The three variables of the loop. *)
Record RefState := mkRefState {
  article : Py.str;
  law_name : Py.str;
  gazette : Py.str
}.

Definition names_statute (t : Py.str) : bool :=
  Py.contains (Py.lit "ZAKON O") (Py.upper t).

Definition has_gazette_marker (t : Py.str) : bool :=
  Py.contains (Py.lit "SL. GLASNIK RS") (Py.upper t).

(** One iteration of [for block in iter_block_items(gov_doc)]: each of the
    three tests assigns its variable again whenever it holds. *)
Definition ref_step (st : RefState) (block : Block) : RefState :=
  match block with
  | Paragraph p =>
    let t := Py.strip (text p) in
    let st1 := if ARTICLE_RE_match t
               then mkRefState (Py.upper t) (law_name st) (gazette st) else st in
    let st2 := if names_statute t
               then mkRefState (article st1) (Py.upper t) (gazette st1) else st1 in
    if has_gazette_marker t
    then mkRefState (article st2) (law_name st2) (Py.upper t) else st2
  | Table _ => st
  end.

Definition fallback_ref : Py.str :=
  Py.lit "[ČLAN 23 STAV 2 ZAKONA O ELEKTRONSKOM FAKTURISANJU (" ++
  [Py.dquote] ++ Py.lit "SL. GLASNIK RS" ++ [Py.dquote] ++
  Py.lit ", BR. 44/2021)]".

Definition bracketed (a l g : Py.str) : Py.str :=
  Py.lit "[" ++ a ++ Py.lit " " ++ l ++ Py.lit " " ++ g ++ Py.lit "]".

Definition extract_amending_ref (gov_doc : list Block) : Py.str :=
  let st := foldl ref_step (mkRefState [] [] []) gov_doc in
  if Py.truthy (article st) && Py.truthy (law_name st) && Py.truthy (gazette st)
  then bracketed (article st) (law_name st) (gazette st)
  else fallback_ref.

(** The trimmed texts of the paragraphs of a document. *)
Definition paragraph_texts (doc : list Block) : list Py.str :=
  flat_map (fun b => match b with
                     | Paragraph p => [Py.strip (text p)]
                     | Table _ => []
                     end) doc.

(** The citation composed from the paragraphs chosen by [pick] for the
    three tests, or the fixed literal when one of them chooses none. *)
Definition amending_ref_of
    (pick : (Py.str → bool) → list Py.str → option Py.str)
    (doc : list Block) : Py.str :=
  let ts := paragraph_texts doc in
  match pick ARTICLE_RE_match ts, pick names_statute ts, pick has_gazette_marker ts with
  | Some a, Some l, Some g => bracketed (Py.upper a) (Py.upper l) (Py.upper g)
  | _, _, _ => fallback_ref
  end.

(** The first, and the last, text on which a test holds. *)
Definition first_match (P : Py.str → bool) (ts : list Py.str) : option Py.str :=
  head (filter (fun t => P t = true) ts).

Definition last_match (P : Py.str → bool) (ts : list Py.str) : option Py.str :=
  last (filter (fun t => P t = true) ts).

Definition two_articles_gov_doc : list Block :=
  [para "Član 1"; para "Zakon o izmenama"; para "(Sl. glasnik RS, br. 1/2020)";
   para "Član 2"].

(** The upper case of a chosen text, or [d] when none is chosen. *)
Definition upper_or (d : Py.str) (o : option Py.str) : Py.str :=
  match o with Some a => Py.upper a | None => d end.

(** * GazetteMerger: [merge_gazette_text] *)

(** The literal that opens the gazette pattern: a double quote, the name
    of the gazette, a double quote, and the abbreviation for number. *)
Definition gazette_prefix : Py.str :=
  [Py.dquote] ++ Py.lit "Sl. glasnik RS" ++ [Py.dquote] ++ Py.lit ", br. ".

Definition rparen : Z := 41.
Definition newline : Z := 10.

(** The lazy group of the pattern after its first character: characters
    other than a line feed are taken one at a time until a closing
    parenthesis follows.  [acc] holds the characters taken, in reverse. *)
Fixpoint lazy_group (acc : Py.str) (s : Py.str) : option Py.str :=
  match s with
  | [] => None
  | c :: r =>
    if (c =? rparen)%Z then Some (rev acc)
    else if (c =? newline)%Z then None
    else lazy_group (c :: acc) r
  end.

(** A match of the pattern that starts at the first character of [s]:
    the whole match and the group. *)
Definition gazette_at (s : Py.str) : option (Py.str * Py.str) :=
  if Py.startswith s gazette_prefix then
    match drop (length gazette_prefix) s with
    | c :: r =>
      if (c =? newline)%Z then None
      else match lazy_group [c] r with
           | Some g => Some (gazette_prefix ++ g ++ [rparen], g)
           | None => None
           end
    | [] => None
    end
  else None.

(** [GAZETTE_RE.search(s)]: the match at the leftmost position that has
    one, as [(m.group(0), m.group(1))]. *)
Fixpoint GAZETTE_RE_search (s : Py.str) : option (Py.str * Py.str) :=
  match gazette_at s with
  | Some m => Some m
  | None =>
    match s with
    | [] => None
    | _ :: r => GAZETTE_RE_search r
    end
  end.

(** [set(ref.strip() for ref in group.split(' i '))]. *)
Definition refs_of (group : Py.str) : gset Py.str :=
  list_to_set (map Py.strip (Py.split group (Py.lit " i "))).

(** The order of the sort keys [(not x.isdigit(), x)]: tuples compare
    component by component, [False] is below [True]. *)
Definition ref_key_leb (x y : Py.str) : bool :=
  let fx := negb (Py.isdigit x) in
  let fy := negb (Py.isdigit y) in
  (negb fx && fy) || (Bool.eqb fx fy && negb (Py.str_ltb y x)).

Definition ref_key_le (x y : Py.str) : Prop := ref_key_leb x y = true.

Global Instance ref_key_le_dec x y : Decision (ref_key_le x y).
Proof. unfold ref_key_le. apply _. Defined.

(** [sorted(old_refs.union(new_refs), key=...)]. *)
Definition merged_refs (old_group new_group : Py.str) : list Py.str :=
  merge_sort ref_key_le (elements (refs_of old_group ∪ refs_of new_group)).

(** The text that replaces the match. *)
Definition render_refs (refs : list Py.str) : Py.str :=
  Py.lit "(" ++ gazette_prefix ++ Py.join (Py.lit " i ") refs ++ Py.lit ")".

Definition merge_gazette_text (old_text new_text : Py.str) : Py.str :=
  match GAZETTE_RE_search old_text, GAZETTE_RE_search new_text with
  | Some (g0, g1), Some (_, h1) =>
    Py.replace old_text g0 (render_refs (merged_refs g1 h1))
  | _, _ => old_text
  end.

(** A citation paragraph with one reference, and one with two. *)
Definition citation_one : Py.str :=
  Py.lit "ZAKON O RAČUNOVODSTVU (" ++ gazette_prefix ++ Py.lit "44/2021)".

Definition citation_two : Py.str :=
  Py.lit "(" ++ gazette_prefix ++ Py.lit "44/2021 i 95/2022)".

(** * AmendmentApplier: [apply_amendment_text] *)

(** What the function writes to the log. *)
Inductive Failure := ServiceError | InvalidOutput.

Inductive LogEvent :=
  | LogSuccess
  | LogAttempt (number : nat) (e : Failure)
  | LogFallingBack.

(** The validation of a response: the non-empty trimmed lines of the
    trimmed content, accepted when there are at least two of them and the
    first one contains the marker. *)
Definition response_lines (content : Py.str) : list Py.str :=
  filter (fun l => Py.truthy l = true)
    (map Py.strip (Py.splitlines (Py.strip content))).

Definition accepted (lines : list Py.str) : bool :=
  match lines with
  | [] => false
  | first :: _ => (1 <? length lines) && Py.has_char Py.star first
  end.

Section Applier.

(** The text-transform service: a call either raises, which is [None]
    here, or returns the content of the first choice; the service may
    change state at each call. *)
Context {Service : Type}.
Variable create : Service → Py.str → option Py.str * Service.

(** The part of the prompt before the old text: the task and the two
    worked examples. *)
Variable prompt_head : Py.str.

Definition prompt (old_text instruction : Py.str) : Py.str :=
  prompt_head ++ old_text ++
  [newline; newline] ++ Py.lit "Instruction:" ++ [newline] ++ instruction ++
  [newline] ++ Py.lit "    ".

(** [for attempt in range(3)], with [todo] attempts left. *)
Fixpoint attempts (todo attempt : nat) (old_text p : Py.str)
    (svc : Service) (log : list LogEvent)
    : list Py.str * Service * list LogEvent :=
  match todo with
  | O => (Py.splitlines old_text, svc, log ++ [LogFallingBack])
  | S todo' =>
    let (response, svc') := create svc p in
    match response with
    | Some content =>
      let lines := response_lines content in
      if accepted lines then (lines, svc', log ++ [LogSuccess])
      else attempts todo' (S attempt) old_text p svc'
             (log ++ [LogAttempt (attempt + 1) InvalidOutput])
    | None =>
      attempts todo' (S attempt) old_text p svc'
        (log ++ [LogAttempt (attempt + 1) ServiceError])
    end
  end.

Definition apply_amendment_text (old_text instruction : Py.str) (svc : Service)
    : list Py.str * Service * list LogEvent :=
  attempts 3 0 old_text (prompt old_text instruction) svc [].

(** The validated lines of a call, and why there are none. *)
Definition validated (response : option Py.str) : list Py.str + Failure :=
  match response with
  | Some content =>
    if accepted (response_lines content) then inl (response_lines content)
    else inr InvalidOutput
  | None => inr ServiceError
  end.

End Applier.

(** A service that raises at every call and counts the calls. *)
Definition failing_service (calls : nat) (p : Py.str) : option Py.str * nat :=
  (None, S calls).

(** A service that answers every call with a fixed content. *)
Definition constant_service (content : Py.str) (calls : nat) (p : Py.str)
    : option Py.str * nat :=
  (Some content, S calls).

(** * StructuralDiffEngine: the comparison keys *)

(** The sentinel for tables. *)
Definition TABLE : Py.str := Py.lit "TABLE".

(** The element appended to [orig_texts] for a block of the original. *)
Definition orig_key (b : Block) : Py.str :=
  match b with
  | Paragraph p => Py.strip (text p)
  | Table _ => TABLE
  end.

(** The element appended to [new_texts] for a block of the new version. *)
Definition new_key (b : Block) : Py.str :=
  match b with
  | Paragraph p => Py.replace (Py.strip (text p)) [Py.star] []
  | Table _ => TABLE
  end.

Definition orig_texts (orig_blocks : list Block) : list Py.str := map orig_key orig_blocks.
Definition new_texts (new_blocks : list Block) : list Py.str := map new_key new_blocks.

(** A text without its markers, and two texts that differ by markers
    only. *)
Definition without_markers (s : Py.str) : Py.str :=
  filter (fun c => c ≠ Py.star) s.

Definition differ_by_markers_only (s t : Py.str) : Prop :=
  without_markers s = without_markers t.

(** * StructuralDiffEngine: [difflib.SequenceMatcher]

    The diff is [SequenceMatcher(None, orig_texts, new_texts).get_opcodes()]
    of the Python library (CPython 3.11, [Lib/difflib.py]): no junk
    predicate, [autojunk] left at its default.  Indices are natural
    numbers; a subtraction that the library writes on integers is written
    so that it cannot go below zero where the library's cannot either. *)

Inductive Tag := TagReplace | TagDelete | TagInsert | TagEqual.

(** A matching block [(i, j, size)], a region of the two sequences still to
    be examined [(alo, ahi, blo, bhi)], an opcode [(tag, i1, i2, j1, j2)]. *)
Abbreviation Match := (nat * nat * nat)%type.
Abbreviation Box := (nat * nat * nat * nat)%type.
Abbreviation Opcode := (Tag * nat * nat * nat * nat)%type.

Section SequenceMatcher.

(** The elements of the sequences: any hashable values. *)
Context {K : Type} `{Countable K}.

(** ** [__chain_b] *)

(** [for i, elt in enumerate(b): b2j.setdefault(elt, []).append(i)]. *)
Fixpoint chain_loop (i : nat) (b : list K) (b2j : gmap K (list nat)) : gmap K (list nat) :=
  match b with
  | [] => b2j
  | elt :: r => chain_loop (S i) r (<[elt := default [] (b2j !! elt) ++ [i]]> b2j)
  end.

(** There is no junk; the elements that occur more than [n // 100 + 1]
    times in a sequence of 200 elements or more are popular and lose
    their entry. *)
Definition chain_b (b : list K) : gmap K (list nat) :=
  let b2j := chain_loop 0 b ∅ in
  let n := length b in
  if 200 <=? n
  then let ntest := n / 100 + 1 in
       filter (fun kv => ¬ (ntest < length kv.2)) b2j
  else b2j.

(** [bjunk] is the empty set. *)
Definition isbjunk (x : K) : bool := false.

(** ** [find_longest_match] *)

(** [j2len.get(j-1, 0)]: there is no key [-1]. *)
Definition j2lenget_prev (j2len : gmap nat nat) (j : nat) : nat :=
  match j with
  | O => 0
  | S j' => default 0 (j2len !! j')
  end.

(** [for j in b2j.get(a[i], nothing)], with its [continue] and [break]. *)
Fixpoint inner_loop (i blo bhi : nat) (j2len : gmap nat nat) (js : list nat)
    (newj2len : gmap nat nat) (best : Match) : gmap nat nat * Match :=
  match js with
  | [] => (newj2len, best)
  | j :: js' =>
    if j <? blo then inner_loop i blo bhi j2len js' newj2len best
    else if bhi <=? j then (newj2len, best)
    else
      let k := j2lenget_prev j2len j + 1 in
      let best' := if best.2 <? k then (i + 1 - k, j + 1 - k, k) else best in
      inner_loop i blo bhi j2len js' (<[j := k]> newj2len) best'
  end.

(** [b2j.get(a[i], nothing)]. *)
Definition b2j_get (a : list K) (b2j : gmap K (list nat)) (i : nat) : list nat :=
  match a !! i with
  | Some x => default [] (b2j !! x)
  | None => []
  end.

(** [for i in range(alo, ahi)], over the indices still to be visited. *)
Fixpoint outer_loop (a : list K) (b2j : gmap K (list nat)) (blo bhi : nat)
    (range : list nat) (j2len : gmap nat nat) (best : Match) : Match :=
  match range with
  | [] => best
  | i :: range' =>
    let (newj2len, best') := inner_loop i blo bhi j2len (b2j_get a b2j i) ∅ best in
    outer_loop a b2j blo bhi range' newj2len best'
  end.

(** [a[i] == b[j]] together with the test on junk of one of the four
    [while] loops: [junk] tells whether [b[j]] has to be junk or not. *)
Definition same_element (a b : list K) (junk : bool) (i j : nat) : bool :=
  match a !! i, b !! j with
  | Some x, Some y => Bool.eqb (isbjunk y) junk && bool_decide (x = y)
  | _, _ => false
  end.

(** The loops that extend the block to the left. *)
Fixpoint extend_back (a b : list K) (junk : bool) (alo blo : nat)
    (besti bestj bestsize : nat) : Match :=
  match besti, bestj with
  | S i', S j' =>
    if (alo <? besti) && (blo <? bestj) && same_element a b junk i' j'
    then extend_back a b junk alo blo i' j' (S bestsize)
    else (besti, bestj, bestsize)
  | _, _ => (besti, bestj, bestsize)
  end.

(** The loops that extend the block to the right; [room] is
    [ahi - (besti + bestsize)], which each iteration decreases. *)
Fixpoint extend_forward (a b : list K) (junk : bool) (ahi bhi : nat)
    (besti bestj : nat) (room : nat) (bestsize : nat) : nat :=
  match room with
  | O => bestsize
  | S room' =>
    if (besti + bestsize <? ahi) && (bestj + bestsize <? bhi) &&
       same_element a b junk (besti + bestsize) (bestj + bestsize)
    then extend_forward a b junk ahi bhi besti bestj room' (S bestsize)
    else bestsize
  end.

Definition find_longest_match (a b : list K) (b2j : gmap K (list nat))
    (alo ahi blo bhi : nat) : Match :=
  let '(besti, bestj, bestsize) :=
    outer_loop a b2j blo bhi (seq alo (ahi - alo)) ∅ (alo, blo, 0) in
  let '(besti, bestj, bestsize) :=
    extend_back a b false alo blo besti bestj bestsize in
  let bestsize :=
    extend_forward a b false ahi bhi besti bestj
      (ahi - (besti + bestsize)) bestsize in
  let '(besti, bestj, bestsize) :=
    extend_back a b true alo blo besti bestj bestsize in
  let bestsize :=
    extend_forward a b true ahi bhi besti bestj
      (ahi - (besti + bestsize)) bestsize in
  (besti, bestj, bestsize).

(** ** [get_matching_blocks] *)

(** [while queue:].  The list [queue] holds the queue from its end, so
    that [queue.pop()] takes its head and [queue.append] adds a head.
    Every iteration uses one unit of [fuel]. *)
Fixpoint matching_loop (a b : list K) (b2j : gmap K (list nat)) (fuel : nat)
    (queue : list Box) (matching_blocks : list Match) : option (list Match) :=
  match queue with
  | [] => Some matching_blocks
  | (alo, ahi, blo, bhi) :: queue' =>
    match fuel with
    | O => None
    | S fuel' =>
      let '(i, j, k) := find_longest_match a b b2j alo ahi blo bhi in
      if k =? 0 then matching_loop a b b2j fuel' queue' matching_blocks
      else
        let queue1 :=
          if (alo <? i) && (blo <? j) then (alo, i, blo, j) :: queue' else queue' in
        let queue2 :=
          if (i + k <? ahi) && (j + k <? bhi)
          then (i + k, ahi, j + k, bhi) :: queue1 else queue1 in
        matching_loop a b b2j fuel' queue2 (matching_blocks ++ [(i, j, k)])
    end
  end.

(** The order of tuples, for [matching_blocks.sort()]. *)
Definition match_leb (x y : Match) : bool :=
  let '(i1, j1, k1) := x in
  let '(i2, j2, k2) := y in
  (i1 <? i2) || ((i1 =? i2) && ((j1 <? j2) || ((j1 =? j2) && (k1 <=? k2)))).

Definition match_le (x y : Match) : Prop := match_leb x y = true.

Global Instance match_le_dec x y : Decision (match_le x y).
Proof. unfold match_le. apply _. Defined.

(** The loop that collapses adjacent blocks, with the block [(i1, j1, k1)]
    to compare against. *)
Fixpoint collapse (i1 j1 k1 : nat) (blocks : list Match) (non_adjacent : list Match)
    : list Match :=
  match blocks with
  | [] => if k1 =? 0 then non_adjacent else non_adjacent ++ [(i1, j1, k1)]
  | (i2, j2, k2) :: rest =>
    if (i1 + k1 =? i2) && (j1 + k1 =? j2)
    then collapse i1 j1 (k1 + k2) rest non_adjacent
    else collapse i2 j2 k2 rest
           (if k1 =? 0 then non_adjacent else non_adjacent ++ [(i1, j1, k1)])
  end.

(** Each iteration of the queue loop takes apart one region; a region of
    width [w] in [a] gives rise to at most [2 * w + 1] iterations. *)
Definition get_matching_blocks (a b : list K) : option (list Match) :=
  let la := length a in
  let lb := length b in
  match matching_loop a b (chain_b b) (2 * la + 1) [(0, la, 0, lb)] [] with
  | Some matching_blocks =>
    Some (collapse 0 0 0 (merge_sort match_le matching_blocks) [] ++ [(la, lb, 0)])
  | None => None
  end.

(** ** [get_opcodes] *)

Fixpoint opcodes_loop (i j : nat) (blocks : list Match) (answer : list Opcode)
    : list Opcode :=
  match blocks with
  | [] => answer
  | (ai, bj, size) :: rest =>
    let tag :=
      if (i <? ai) && (j <? bj) then Some TagReplace
      else if i <? ai then Some TagDelete
      else if j <? bj then Some TagInsert
      else None in
    let answer1 :=
      match tag with
      | Some t => answer ++ [(t, i, ai, j, bj)]
      | None => answer
      end in
    let answer2 :=
      if size =? 0 then answer1
      else answer1 ++ [(TagEqual, ai, ai + size, bj, bj + size)] in
    opcodes_loop (ai + size) (bj + size) rest answer2
  end.

Definition get_opcodes (a b : list K) : option (list Opcode) :=
  match get_matching_blocks a b with
  | Some blocks => Some (opcodes_loop 0 0 blocks [])
  | None => None
  end.

End SequenceMatcher.

(** The regions of the comparison of two documents. *)
Definition diff (orig_blocks new_blocks : list Block) : option (list Opcode) :=
  get_opcodes (orig_texts orig_blocks) (new_texts new_blocks).

(** The range of an opcode in the old sequence and in the new one. *)
Definition old_range (op : Opcode) : list nat :=
  let '(_, i1, i2, _, _) := op in seq i1 (i2 - i1).

Definition new_range (op : Opcode) : list nat :=
  let '(_, _, _, j1, j2) := op in seq j1 (j2 - j1).

(** [tiles i j ops i' j']: the opcodes follow one another without gap or
    overlap, from [(i, j)] to [(i', j')]. *)
Fixpoint tiles (i j : nat) (ops : list Opcode) (i' j' : nat) : Prop :=
  match ops with
  | [] => i = i' ∧ j = j'
  | (_, i1, i2, j1, j2) :: rest =>
    i1 = i ∧ j1 = j ∧ i1 ≤ i2 ∧ j1 ≤ j2 ∧ (i1 < i2 ∨ j1 < j2) ∧
    tiles i2 j2 rest i' j'
  end.

(** ** Invariants of the diff engine *)

(** The block found so far lies in the region, in the rows before [i]. *)
Definition best_within (alo blo bhi i : nat) (best : Match) : Prop :=
  let '(bi, bj, bs) := best in
  alo ≤ bi ∧ bi + bs ≤ i ∧ blo ≤ bj ∧ bj + bs ≤ bhi.

(** The lengths recorded for the row before [i]. *)
Definition j2len_within (alo blo bhi i : nat) (j2len : gmap nat nat) : Prop :=
  ∀ j k, j2len !! j = Some k → blo ≤ j < bhi ∧ k ≤ j + 1 - blo ∧ k ≤ i - alo.

(** The region that a matching block covers. *)
Definition box_of (m : Match) : Box :=
  let '(i, j, k) := m in (i, i + k, j, j + k).

(** [box_before x y]: the region [x] ends, in both sequences, where the
    region [y] starts or earlier. *)
Definition box_before (x y : Box) : Prop :=
  let '(_, ahi1, _, bhi1) := x in
  let '(alo2, _, blo2, _) := y in
  ahi1 ≤ alo2 ∧ bhi1 ≤ blo2.

Definition apart (x y : Box) : Prop := box_before x y ∨ box_before y x.

Definition box_inside (x y : Box) : Prop :=
  let '(alo1, ahi1, blo1, bhi1) := x in
  let '(alo2, ahi2, blo2, bhi2) := y in
  alo2 ≤ alo1 ∧ ahi1 ≤ ahi2 ∧ blo2 ≤ blo1 ∧ bhi1 ≤ bhi2.

Definition box_wf (x : Box) : Prop :=
  let '(alo, ahi, blo, bhi) := x in alo ≤ ahi ∧ blo ≤ bhi.

Definition block_ok (la lb : nat) (m : Match) : Prop :=
  let '(i, j, k) := m in 0 < k ∧ i + k ≤ la ∧ j + k ≤ lb.

(** Every two elements of the list are related. *)
Fixpoint pairwise {A} (R : A → A → Prop) (l : list A) : Prop :=
  match l with
  | [] => True
  | x :: r => Forall (R x) r ∧ pairwise R r
  end.

(** A bound on the iterations that a queue still needs. *)
Fixpoint weight (queue : list Box) : nat :=
  match queue with
  | [] => 0
  | (alo, ahi, _, _) :: r => 2 * (ahi - alo) + 1 + weight r
  end.

(** [mono i j blocks]: the blocks follow one another, in both sequences,
    from [(i, j)] on. *)
Fixpoint mono (i j : nat) (blocks : list Match) : Prop :=
  match blocks with
  | [] => True
  | (ai, bj, size) :: rest => i ≤ ai ∧ j ≤ bj ∧ mono (ai + size) (bj + size) rest
  end.

(** Where the blocks end. *)
Fixpoint ends (i j : nat) (blocks : list Match) : nat * nat :=
  match blocks with
  | [] => (i, j)
  | (ai, bj, size) :: rest => ends (ai + size) (bj + size) rest
  end.

(** A region of the queue: well formed and within the two sequences. *)
Definition box_ok (la lb : nat) (x : Box) : Prop :=
  box_wf x ∧ box_inside x (0, la, 0, lb).

(** [block_before x y]: the block [x] ends where [y] starts or earlier. *)
Definition block_before (x y : Match) : Prop :=
  box_before (box_of x) (box_of y).

(** ** Comparing a sequence with itself *)

Section SelfComparison.
Context {K : Type} `{Countable K}.

(** The indices at which [x] occurs in [b], whose first index is [i]. *)
Fixpoint positions (x : K) (i : nat) (b : list K) : list nat :=
  match b with
  | [] => []
  | y :: r => (if decide (y = x) then [i] else []) ++ positions x (S i) r
  end.

(** The element at [j] has an entry in [b2j]. *)
Definition keyed (s : list K) (b2j : gmap K (list nat)) (j : nat) : bool :=
  match s !! j with
  | Some x => bool_decide (is_Some (b2j !! x))
  | None => false
  end.

(** The number of consecutive elements with an entry that end at [j]. *)
Fixpoint run_len (s : list K) (b2j : gmap K (list nat)) (j : nat) : nat :=
  match j with
  | O => if keyed s b2j 0 then 1 else 0
  | S j' => if keyed s b2j j then S (run_len s b2j j') else 0
  end.

(** The same for the row before [i]. *)
Definition prev_run (s : list K) (b2j : gmap K (list nat)) (i : nat) : nat :=
  match i with
  | O => 0
  | S i' => run_len s b2j i'
  end.

(** The lengths recorded for the row before [i], when [s] is compared
    with itself. *)
Definition row_ok (s : list K) (b2j : gmap K (list nat)) (i : nat)
    (j2len : gmap nat nat) : Prop :=
  (∀ j k, j2len !! j = Some k → k ≤ run_len s b2j j ∧ k ≤ prev_run s b2j i) ∧
  j2lenget_prev j2len i = prev_run s b2j i.

(** The best block so far lies on the diagonal and is at least as long as
    every run that ends before row [i]. *)
Definition best_ok (s : list K) (b2j : gmap K (list nat)) (i : nat)
    (best : Match) : Prop :=
  let '(bi, bj, bs) := best in
  bi = bj ∧ ∀ j, j < i → run_len s b2j j ≤ bs.

End SelfComparison.

(** * The document body and the ReferenceAnnotator *)

(** The children of the body element: paragraphs and tables, and the
    section properties, which a body has as its last child.
    [iter_block_items] skips what is neither paragraph nor table. *)
Inductive BodyChild :=
  | CBlock (b : Block)
  | CSectPr.

Definition iter_block_items (body : list BodyChild) : list Block :=
  flat_map (fun c => match c with CBlock b => [b] | CSectPr => [] end) body.

Definition is_sectPr (c : BodyChild) : bool :=
  match c with CSectPr => true | CBlock _ => false end.

(** The index of the section properties, or the number of children. *)
Fixpoint sectPr_index (body : list BodyChild) : nat :=
  match body with
  | [] => 0
  | c :: r => if is_sectPr c then 0 else S (sectPr_index r)
  end.

(** [doc.add_paragraph] and [doc.add_table] put the new element before the
    section properties, at the end when there are none; the result comes
    with the index of the new child. *)
Definition add_block (body : list BodyChild) (b : Block) : list BodyChild * nat :=
  let k := sectPr_index body in
  (take k body ++ [CBlock b] ++ drop k body, k).

(** [parent.insert(pos, element)] of lxml for an element that is the child
    of index [src] of [parent] already: the element moves before the child
    that has index [pos] when the call is made, and to the end when there
    is no such child. *)
Definition lxml_insert (pos src : nat) (body : list BodyChild) : list BodyChild :=
  match body !! src with
  | None => body
  | Some element =>
    if pos =? src then body
    else
      let others := take src body ++ drop (S src) body in
      match body !! pos with
      | None => others ++ [element]
      | Some _ =>
        let pos' := if src <? pos then pos - 1 else pos in
        take pos' others ++ [element] ++ drop pos' others
      end
  end.

(** A paragraph is flagged when it is an article header and contains the
    marker. *)
Definition is_flagged (b : Block) : bool :=
  match b with
  | Paragraph p => ARTICLE_RE_match (Py.strip (text p)) && Py.has_char Py.star (text p)
  | Table _ => false
  end.

(** [insert_positions]: the indices of the flagged blocks, from index [idx]
    on. *)
Fixpoint flagged_from (idx : nat) (diff_blocks : list Block) : list nat :=
  match diff_blocks with
  | [] => []
  | b :: r => (if is_flagged b then [idx] else []) ++ flagged_from (S idx) r
  end.

(** The reference paragraph: centred, with one bold run in Arial of 12
    points in the colour of additions.  [spacing] tells whether the spacing
    is set, which the desktop front end does and the web front end does
    not.  Lengths are in English metric units, the line spacing in 240ths
    of a line. *)
Definition reference_paragraph (spacing : bool) (ref : Py.str) : ParagraphT :=
  mkParagraph
    (mkParaFormat (Py.lit "Normal") (Some CENTER) None None None
       (if spacing then Some 152400%Z else None)
       (if spacing then Some 76200%Z else None)
       (if spacing then Some 240%Z else None)
       None)
    [mkRun ref (Some true) None None (Some (Py.lit "Arial")) (Some 152400%Z)
       (Some (0, 204, 51)%Z) None].

(** One iteration of [for pos in reversed(insert_positions)]. *)
Definition splice_step (ref_p : ParagraphT) (body : list BodyChild) (pos : nat)
    : list BodyChild :=
  let (body', src) := add_block body (Paragraph ref_p) in
  lxml_insert pos src body'.

Definition insert_references (ref_p : ParagraphT) (body : list BodyChild)
    : list BodyChild :=
  let diff_blocks := iter_block_items body in
  let insert_positions := flagged_from 0 diff_blocks in
  foldl (splice_step ref_p) body (reverse insert_positions).

(** The body of a document whose blocks are [blocks]. *)
Definition body_of (has_sectPr : bool) (blocks : list Block) : list BodyChild :=
  map CBlock blocks ++ (if has_sectPr then [CSectPr] else []).

(** The blocks with a reference paragraph before every flagged one. *)
Definition with_references (ref_p : ParagraphT) (blocks : list Block) : list Block :=
  flat_map (fun b => if is_flagged b then [Paragraph ref_p; b] else [b]) blocks.

(** A rendered comparison with three flagged headers. *)
Definition three_flagged : list Block :=
  [empty_table; empty_table; para "Član 1"; para "a"; para "Član 2*"; para "b";
   para "Član 3*"; para "Član 4*"; para "c"].

(** * FormatPreservingCopier *)

Definition hash : Z := 35.

(** [s.lstrip("#")]. *)
Fixpoint lstrip_hash (s : Py.str) : Py.str :=
  match s with
  | [] => []
  | c :: r => if (c =? hash)%Z then lstrip_hash r else s
  end.

(** What [set_run_shading], [set_paragraph_shading] and [set_cell_shading]
    write for the value that the getter returns: the getter gives no value
    for an empty fill, and the setter strips the number signs that the
    getter has put in front. *)
Definition copied_shading (fill : option Py.str) : option Py.str :=
  match fill with
  | Some f => if Py.truthy f then Some (lstrip_hash f) else None
  | None => None
  end.

(** [get_paragraph_shading] reads the first shading element and the setter
    appends one: a paragraph that has a shading keeps it. *)
Definition appended_shading (old new : option Py.str) : option Py.str :=
  match old with
  | Some f => Some f
  | None => new
  end.

(** [set_alignment(target, source.alignment.name.lower() if
    source.alignment else None)]: without alignment, and with [LEFT], which
    is zero, the target is left as it is; a name that [align_map] does not
    have removes the alignment. *)
Definition copy_alignment (source target : option Alignment) : option Alignment :=
  match source with
  | None | Some LEFT => target
  | Some CENTER => Some CENTER
  | Some RIGHT => Some RIGHT
  | Some JUSTIFY => Some JUSTIFY
  | Some _ => None
  end.

Section Copier.

(** [Pt(length.pt)], a trip through floating point numbers of a length
    that is not negative, and the like for a line spacing that is read and
    written back. *)
Variable Pt_of_pt : Z → Z.
Variable line_spacing_of : Z → Z.

Definition copy_length (source target : option Z) : option Z :=
  match source with
  | Some v => Some (Pt_of_pt v)
  | None => target
  end.

(** A negative first line indent is read as a hanging indent and written
    as its opposite. *)
Definition copy_first_line (source target : option Z) : option Z :=
  match source with
  | Some v => if (v <? 0)%Z then Some (- Pt_of_pt (Z.abs v))%Z else Some (Pt_of_pt v)
  | None => target
  end.

Definition copy_format (source target : ParaFormat) : ParaFormat :=
  mkParaFormat
    (style source)
    (copy_alignment (alignment source) (alignment target))
    (copy_length (left_indent source) (left_indent target))
    (copy_length (right_indent source) (right_indent target))
    (copy_first_line (first_line_indent source) (first_line_indent target))
    (copy_length (space_before source) (space_before target))
    (copy_length (space_after source) (space_after target))
    (match line_spacing source with
     | Some v => Some (line_spacing_of v)
     | None => line_spacing target
     end)
    (appended_shading (paragraph_shading target)
       (copied_shading (paragraph_shading source))).

(** The run that [target.add_run(run.text)] creates and the assignments
    that follow give. *)
Definition copy_run (run : Run) : Run :=
  mkRun (run_text run) (bold run) (italic run) (underline run)
    (font_name run) (font_size run) (font_color run)
    (copied_shading (run_shading run)).

(** [deep_copy_paragraph(source, target)]: the new state of [target]. *)
Definition deep_copy_paragraph (source target : ParagraphT) : ParagraphT :=
  mkParagraph (copy_format (pformat source) (pformat target))
    (map copy_run (runs source)).

Definition recolor (color : option (Z * Z * Z)) (p : ParagraphT) : ParagraphT :=
  match color with
  | Some c =>
    mkParagraph (pformat p)
      (map (fun r => mkRun (run_text r) (bold r) (italic r) (underline r)
                      (font_name r) (font_size r) (Some c) (run_shading r))
           (runs p))
  | None => p
  end.

(** A cell of a new table holds one empty paragraph; the copies of the
    paragraphs of the source cell are added after it. *)
Definition copy_cell (color : option (Z * Z * Z)) (source_cell : CellT) : CellT :=
  mkCell
    (match copied_shading (cell_shading source_cell) with
     | Some _ => Some (Py.lit "8A084B")
     | None => None
     end)
    (new_paragraph [] ::
     map (fun source_p => recolor color (deep_copy_paragraph source_p (new_paragraph [])))
         (cell_paragraphs source_cell)).

(** [deep_copy_table(source_table, target_doc, color)]: the new table. *)
Definition deep_copy_table (source_table : TableT) (color : option (Z * Z * Z)) : TableT :=
  mkTable true (map (map (copy_cell color)) (rows source_table)).

(** The loop that copies the original into the new document. *)
Definition copy_block (block : Block) : Block :=
  match block with
  | Paragraph p => Paragraph (deep_copy_paragraph p (new_paragraph []))
  | Table t => Table (deep_copy_table t None)
  end.

Definition copy_document (body : list BodyChild) (orig_blocks : list Block)
    : list BodyChild :=
  foldl (fun body block => (add_block body (copy_block block)).1) body orig_blocks.

(** * [merge_gazette] *)

Definition has_gazette (b : Block) : bool :=
  match b with
  | Paragraph p => Py.contains (Py.lit "Sl. glasnik RS") (text p)
  | Table _ => false
  end.

(** [deep_copy_paragraph(block, t_block); t_block.text = merged] on the
    first paragraph of the target that has the gazette marker. *)
Fixpoint patch_gazette (block : ParagraphT) (merged : Py.str) (target : list BodyChild)
    : option (list BodyChild) :=
  match target with
  | [] => None
  | c :: r =>
    match c with
    | CBlock (Paragraph t_block) =>
      if has_gazette (Paragraph t_block)
      then Some (CBlock (Paragraph
                   (mkParagraph (pformat (deep_copy_paragraph block t_block))
                                [plain_run merged])) :: r)
      else option_map (cons c) (patch_gazette block merged r)
    | _ => option_map (cons c) (patch_gazette block merged r)
    end
  end.

(** The search in the target does not depend on the block of the old
    document: when it fails for the first block with the marker it fails
    for the others as well. *)
Definition merge_gazette (old_blocks gov_blocks : list Block) (target : list BodyChild)
    : list BodyChild * bool :=
  match find has_gazette old_blocks with
  | Some (Paragraph block) =>
    let gov_line :=
      match find has_gazette gov_blocks with
      | Some (Paragraph q) => text q
      | _ => []
      end in
    match patch_gazette block (merge_gazette_text (text block) gov_line) target with
    | Some target' => (target', true)
    | None => (target, false)
    end
  | _ => (target, false)
  end.

End Copier.

(** * The revision pipeline: [process_part_a] *)

(** [doc.paragraphs]: the paragraphs among the children of the body. *)
Definition paragraphs (body : list BodyChild) : list ParagraphT :=
  flat_map (fun c => match c with
                     | CBlock (Paragraph p) => [p]
                     | _ => []
                     end) body.

(** Removal of [doc.paragraphs[k]] from the body; [None] stands for the
    [IndexError] of an index that is out of range. *)
Fixpoint remove_paragraph (k : nat) (body : list BodyChild) : option (list BodyChild) :=
  match body with
  | [] => None
  | c :: r =>
    match c, k with
    | CBlock (Paragraph _), O => Some r
    | CBlock (Paragraph _), S k' => option_map (cons c) (remove_paragraph k' r)
    | _, _ => option_map (cons c) (remove_paragraph k r)
    end
  end.

(** [for k in range(e - 1, s - 1, -1)], with [count] indices left. *)
Fixpoint remove_span (s count : nat) (body : list BodyChild) : option (list BodyChild) :=
  match count with
  | O => Some body
  | S count' =>
    match remove_paragraph (s + count') body with
    | Some body' => remove_span s count' body'
    | None => None
    end
  end.

(** The texts of [doc.paragraphs[k]] for [k] in [range(s, e)]. *)
Fixpoint span_texts (ps : list ParagraphT) (s count : nat) : option (list Py.str) :=
  match count with
  | O => Some []
  | S count' =>
    match ps !! s, span_texts ps (S s) count' with
    | Some p, Some ts => Some (text p :: ts)
    | _, _ => None
    end
  end.

(** The digits at the start of a text, and the rest. *)
Fixpoint leading_digits (s : Py.str) : Py.str * Py.str :=
  match s with
  | [] => ([], [])
  | c :: r =>
    if Py.isdecimal_char c
    then let (d, rest) := leading_digits r in (c :: d, rest)
    else ([], s)
  end.

(** A match of [CHANGE_RE] at the start of [s]: the two groups and the
    length of the match. *)
Definition change_at (s : Py.str) : option (Py.str * Py.str * nat) :=
  let l1 := Py.lit "člana " in
  let l2 := Py.lit ". stav " in
  let l3 := Py.lit ". Zakona o računovodstvu" in
  if Py.startswith s l1 then
    let (article_num, r1) := leading_digits (drop (length l1) s) in
    if Py.truthy article_num && Py.startswith r1 l2 then
      let (stav_num, r2) := leading_digits (drop (length l2) r1) in
      if Py.truthy stav_num && Py.startswith r2 l3
      then Some (article_num, stav_num,
                 length l1 + length article_num + length l2 +
                 length stav_num + length l3)
      else None
    else None
  else None.

(** [CHANGE_RE.findall(inst)]. *)
Fixpoint findall_from (skip : nat) (s : Py.str) : list (Py.str * Py.str) :=
  match s with
  | [] => []
  | _ :: r =>
    match skip with
    | S k => findall_from k r
    | O =>
      match change_at s with
      | Some (article_num, stav_num, len) =>
        (article_num, stav_num) :: findall_from (len - 1) r
      | None => findall_from 0 r
      end
    end
  end.

Definition CHANGE_RE_findall (inst : Py.str) : list (Py.str * Py.str) :=
  findall_from 0 inst.

(** The paragraphs of the amendment document that are instructions. *)
Definition find_amendments (amend_body : list BodyChild) : list Py.str :=
  map (fun p => Py.strip (text p))
    (filter (fun p => Py.contains (Py.lit "prestaju da važe") (text p) = true)
       (paragraphs amend_body)).

(** What is done to a new paragraph whose line is an article title. *)
Definition title_format (p : ParagraphT) : ParagraphT :=
  let f := pformat p in
  mkParagraph
    (mkParaFormat (style f) (Some CENTER) (left_indent f) (right_indent f)
       (first_line_indent f) (space_before f) (space_after f)
       (line_spacing f) (paragraph_shading f))
    (map (fun r => mkRun (run_text r) (Some true) (italic r) (underline r)
                    (Some (Py.lit "Arial")) (Some 152400%Z) (font_color r)
                    (run_shading r))
         (runs p)).

Section RevisionPipeline.

Variable Pt_of_pt : Z → Z.
Variable line_spacing_of : Z → Z.
Context {Service : Type}.
Variable create : Service → Py.str → option Py.str * Service.
Variable prompt_head : Py.str.

(** [for i, line in enumerate(new_lines)]: every new paragraph is added
    by [add_paragraph], and takes the format and the runs of the paragraph
    [s + i] of the original when there is one. *)
Fixpoint insert_new (orig_paragraphs : list ParagraphT) (s i : nat)
    (new_lines : list Py.str) (body : list BodyChild) : list BodyChild :=
  match new_lines with
  | [] => body
  | line :: rest =>
    let new_p := new_paragraph line in
    let new_p1 :=
      match orig_paragraphs !! (s + i) with
      | Some source => deep_copy_paragraph Pt_of_pt line_spacing_of source new_p
      | None => new_p
      end in
    let new_p2 := if ARTICLE_RE_match line then title_format new_p1 else new_p1 in
    insert_new orig_paragraphs s (S i) rest (add_block body (Paragraph new_p2)).1
  end.

(** The body of [for article_num, stav_num in matches] for one match. *)
Definition amend_article (orig_paragraphs : list ParagraphT)
    (articles : gmap Py.str (nat * nat)) (inst article_num : Py.str)
    (state : list BodyChild * Service) : option (list BodyChild * Service) :=
  let (body, svc) := state in
  let aid := Py.lit "Član " ++ article_num in
  match articles !! aid with
  | None => Some state
  | Some (s, e) =>
    match span_texts (paragraphs body) s (e - s) with
    | None => None
    | Some texts =>
      let old_lines := Py.join [newline] texts in
      let '(new_lines, svc', _) :=
        apply_amendment_text create prompt_head old_lines inst svc in
      match remove_span s (e - s) body with
      | None => None
      | Some body' =>
        Some (insert_new orig_paragraphs s 0 new_lines body', svc')
      end
    end
  end.

(** The two loops over the instructions and their matches. *)
Fixpoint amend_all (orig_paragraphs : list ParagraphT)
    (articles : gmap Py.str (nat * nat))
    (todo : list (Py.str * Py.str)) (state : list BodyChild * Service)
    : option (list BodyChild * Service) :=
  match todo with
  | [] => Some state
  | (inst, article_num) :: rest =>
    match amend_article orig_paragraphs articles inst article_num state with
    | Some state' => amend_all orig_paragraphs articles rest state'
    | None => None
    end
  end.

(** [process_part_a]: the updated document, or [None] when an index is
    out of range. *)
Definition process_part_a (orig amend_doc : list BodyChild) (svc : Service)
    : option (list BodyChild * Service) :=
  let copied :=
    copy_document Pt_of_pt line_spacing_of [CSectPr] (iter_block_items orig) in
  let updated_doc :=
    (merge_gazette Pt_of_pt line_spacing_of (iter_block_items orig)
       (iter_block_items amend_doc) copied).1 in
  let articles := extract_articles (iter_block_items updated_doc) in
  let amendments := find_amendments amend_doc in
  let todo :=
    flat_map (fun inst => map (fun m => (inst, m.1)) (CHANGE_RE_findall inst))
      amendments in
  amend_all (paragraphs orig) articles todo (updated_doc, svc).

End RevisionPipeline.

(** The texts of the blocks of a document. *)
Definition block_texts (body : list BodyChild) : list Py.str :=
  map (fun b => match b with
                | Paragraph p => text p
                | Table _ => TABLE
                end) (iter_block_items body).

(** A law of two articles and the repeal of the second paragraph of its
    first article. *)
Definition two_articles_law : list BodyChild :=
  map CBlock [para "Član 1"; para "text A"; para "text B"; para "Član 2"; para "text C"]
  ++ [CSectPr].

Definition one_article_law : list BodyChild :=
  map CBlock [para "Član 1"; para "text A"; para "text B"] ++ [CSectPr].

Definition repeal_instruction : list BodyChild :=
  [CBlock (para "Odredbe člana 1. stav 2. Zakona o računovodstvu prestaju da važe.");
   CSectPr].

(** The answer of the service to the instruction. *)
Definition repeal_answer : Py.str :=
  Py.lit "Član 1*" ++ [newline] ++ Py.lit "text A".

(** * The documents as objects

    The documents of a run live in one store.  Every element of a
    document (a body, a table, a cell, a paragraph, a run) is an object
    with an identity, its location; a container refers to its parts by
    their locations.  The library creates a new element at each
    [add_paragraph], [add_run] and [add_table]. *)

Module Store.

Inductive Node :=
  | NRun (r : Run)
  | NParagraph (f : ParaFormat) (run_locs : list positive)
  | NCell (shading : option Py.str) (paragraph_locs : list positive)
  | NTable (borders : bool) (row_locs : list (list positive))
  | NBody (block_locs : list positive).

Abbreviation Heap := (gmap positive Node).

(** The locations that a node refers to. *)
Definition children (n : Node) : list positive :=
  match n with
  | NRun _ => []
  | NParagraph _ rs => rs
  | NCell _ ps => ps
  | NTable _ rows => concat rows
  | NBody bs => bs
  end.

(** [reachable h l l']: [l'] is [l] or a part, at any depth, of the
    element at [l]. *)
Inductive reachable (h : Heap) : positive → positive → Prop :=
  | reachable_refl l : reachable h l l
  | reachable_step l n c l' :
      h !! l = Some n → c ∈ children n → reachable h c l' → reachable h l l'.

(** A new object. *)
Definition alloc (n : Node) (h : Heap) : positive * Heap :=
  let l := fresh (dom h) in (l, <[l := n]> h).

(** ** Reading a document as a value *)

Fixpoint read_all {A B} (read : A → option B) (ls : list A) : option (list B) :=
  match ls with
  | [] => Some []
  | l :: r =>
    match read l, read_all read r with
    | Some x, Some xs => Some (x :: xs)
    | _, _ => None
    end
  end.

Definition read_run (h : Heap) (l : positive) : option Run :=
  match h !! l with
  | Some (NRun r) => Some r
  | _ => None
  end.

Definition read_paragraph (h : Heap) (l : positive) : option ParagraphT :=
  match h !! l with
  | Some (NParagraph f rs) =>
    match read_all (read_run h) rs with
    | Some runs => Some (mkParagraph f runs)
    | None => None
    end
  | _ => None
  end.

Definition read_cell (h : Heap) (l : positive) : option CellT :=
  match h !! l with
  | Some (NCell sh ps) =>
    match read_all (read_paragraph h) ps with
    | Some paragraphs => Some (mkCell sh paragraphs)
    | None => None
    end
  | _ => None
  end.

Definition read_table (h : Heap) (l : positive) : option TableT :=
  match h !! l with
  | Some (NTable borders rows) =>
    match read_all (read_all (read_cell h)) rows with
    | Some cells => Some (mkTable borders cells)
    | None => None
    end
  | _ => None
  end.

Definition read_block (h : Heap) (l : positive) : option Block :=
  match h !! l with
  | Some (NParagraph _ _) => Paragraph <$> read_paragraph h l
  | Some (NTable _ _) => Table <$> read_table h l
  | _ => None
  end.

(** The blocks of the document whose body is at [doc]. *)
Definition read_document (h : Heap) (doc : positive) : option (list Block) :=
  match h !! doc with
  | Some (NBody bs) => read_all (read_block h) bs
  | _ => None
  end.

(** ** The copier on objects *)

Section Copier.

Variable Pt_of_pt : Z → Z.
Variable line_spacing_of : Z → Z.

(** [new_run = target.add_run(run.text)] and the assignments to the new
    run: [r] is the run that they give. *)
Definition add_run (target : positive) (r : Run) (h : Heap) : Heap :=
  match h !! target with
  | Some (NParagraph f rs) =>
    let (l, h1) := alloc (NRun r) h in
    <[target := NParagraph f (rs ++ [l])]> h1
  | _ => h
  end.

(** The runs that [source.runs] gives. *)
Definition run_values (h : Heap) (rs : list positive) : list Run :=
  flat_map (fun l => match h !! l with
                     | Some (NRun r) => [r]
                     | _ => []
                     end) rs.

(** [deep_copy_paragraph(source, target)]: the properties of the target
    are set from those of the source, the target is cleared, and one run
    is added to it per run of the source, which is read after the target
    has been cleared. *)
Definition deep_copy_paragraph (source target : positive) (h : Heap) : Heap :=
  match h !! source, h !! target with
  | Some (NParagraph fs _), Some (NParagraph ft _) =>
    let h1 := <[target := NParagraph (copy_format Pt_of_pt line_spacing_of fs ft) []]> h in
    match h1 !! source with
    | Some (NParagraph _ rs) =>
      foldl (fun h r => add_run target (copy_run r) h) h1 (run_values h1 rs)
    | _ => h1
    end
  | _, _ => h
  end.

(** [container.add_paragraph()] for a cell or a body: a new empty
    paragraph, which becomes the last part of the container. *)
Definition add_paragraph (container : positive) (h : Heap) : positive * Heap :=
  let (p, h1) := alloc (NParagraph default_format []) h in
  (p, match h1 !! container with
      | Some (NCell sh ps) => <[container := NCell sh (ps ++ [p])]> h1
      | Some (NBody bs) => <[container := NBody (bs ++ [p])]> h1
      | _ => h1
      end).

(** [run.font.color.rgb = color] for the runs of a paragraph. *)
Definition set_color (c : Z * Z * Z) (run : positive) (h : Heap) : Heap :=
  match h !! run with
  | Some (NRun r) =>
    <[run := NRun (mkRun (run_text r) (bold r) (italic r) (underline r)
                     (font_name r) (font_size r) (Some c) (run_shading r))]> h
  | _ => h
  end.

Definition recolor (color : option (Z * Z * Z)) (p : positive) (h : Heap) : Heap :=
  match color, h !! p with
  | Some c, Some (NParagraph _ rs) => foldl (fun h r => set_color c r h) h rs
  | _, _ => h
  end.

(** The cells of a new table: each holds one empty paragraph. *)
Definition new_cell (h : Heap) : positive * Heap :=
  let (p, h1) := alloc (NParagraph default_format []) h in
  alloc (NCell None [p]) h1.

Fixpoint new_cells (n : nat) (h : Heap) : list positive * Heap :=
  match n with
  | O => ([], h)
  | S n' =>
    let (c, h1) := new_cell h in
    let (cs, h2) := new_cells n' h1 in
    (c :: cs, h2)
  end.

Fixpoint new_rows (shape : list nat) (h : Heap) : list (list positive) * Heap :=
  match shape with
  | [] => ([], h)
  | n :: shape' =>
    let (row, h1) := new_cells n h in
    let (rows, h2) := new_rows shape' h1 in
    (row :: rows, h2)
  end.

(** [target_doc.add_table(rows, cols)] followed by [set_table_borders].
    The tables are grids: [shape] gives for every row the number of its
    cells, the number of columns. *)
Definition add_table (shape : list nat) (doc : positive) (h : Heap) : positive * Heap :=
  let (rows, h1) := new_rows shape h in
  let (t, h2) := alloc (NTable true rows) h1 in
  (t, match h2 !! doc with
      | Some (NBody bs) => <[doc := NBody (bs ++ [t])]> h2
      | _ => h2
      end).

(** The body of the loop over the cells, for one cell. *)
Definition copy_cell_into (color : option (Z * Z * Z))
    (h : Heap) (cells : positive * positive) : Heap :=
  let (source_cell, target_cell) := cells in
  match h !! source_cell with
  | Some (NCell sh source_ps) =>
    let h1 :=
      match copied_shading sh, h !! target_cell with
      | Some _, Some (NCell _ ps) =>
        <[target_cell := NCell (Some (Py.lit "8A084B")) ps]> h
      | _, _ => h
      end in
    foldl (fun h source_p =>
             let (target_p, h') := add_paragraph target_cell h in
             recolor color target_p (deep_copy_paragraph source_p target_p h'))
          h1 source_ps
  | _ => h
  end.

(** [deep_copy_table(source_table, target_doc, color)]. *)
Definition deep_copy_table (source_table target_doc : positive)
    (color : option (Z * Z * Z)) (h : Heap) : Heap :=
  match h !! source_table with
  | Some (NTable _ source_rows) =>
    let (t, h1) := add_table (map length source_rows) target_doc h in
    match h1 !! t with
    | Some (NTable _ target_rows) =>
      foldl (copy_cell_into color) h1
        (zip (concat source_rows) (concat target_rows))
    | _ => h1
    end
  | _ => h
  end.

(** The loop that copies the blocks of [orig] into the document [out]. *)
Definition copy_block (out : positive) (h : Heap) (block : positive) : Heap :=
  match h !! block with
  | Some (NParagraph _ _) =>
    let (p, h1) := add_paragraph out h in
    deep_copy_paragraph block p h1
  | Some (NTable _ _) => deep_copy_table block out None h
  | _ => h
  end.

Definition copy_document (orig out : positive) (h : Heap) : Heap :=
  match h !! orig with
  | Some (NBody bs) => foldl (copy_block out) h bs
  | _ => h
  end.

End Copier.

(** ** The invariant of a copy *)

(** [good h0 out h]: the store [h] has grown from [h0]; the objects of
    [h0] other than the body [out] are as they were; and the body [out]
    and the objects that are new refer to new objects only. *)
Definition good (h0 : Heap) (out : positive) (h : Heap) : Prop :=
  dom h0 ⊆ dom h ∧
  (∀ l, l ∈ dom h0 → l ≠ out → h !! l = h0 !! l) ∧
  (∀ l n, h !! l = Some n → l ∉ dom h0 ∨ l = out →
     ∀ c, c ∈ children n → c ∈ dom h ∧ c ∉ dom h0).

(** A location on the side of the target: new, or the body [out]. *)
Definition target_side (h0 : Heap) (out l : positive) : Prop :=
  l ∉ dom h0 ∨ l = out.

(** A location that has been allocated since [h0]. *)
Definition new_in (h0 h : Heap) (c : positive) : Prop :=
  c ∈ dom h ∧ c ∉ dom h0.

(** One step of a copy. *)
Definition step (h0 : Heap) (out : positive) (h h' : Heap) : Prop :=
  good h0 out h' ∧ dom h ⊆ dom h'.

(** ** What a copy writes *)

(** The kinds of objects, from the parts to the whole. *)
Definition rank (n : Node) : nat :=
  match n with
  | NRun _ => 0
  | NParagraph _ _ => 1
  | NCell _ _ => 2
  | NTable _ _ => 3
  | NBody _ => 4
  end.

(** [mods W h h']: from [h] to [h'] objects have been created, and of the
    objects of [h] only those at the locations [W] have been written. *)
Definition mods (W : list positive) (h h' : Heap) : Prop :=
  dom h ⊆ dom h' ∧ ∀ l, l ∈ dom h → l ∉ W → h' !! l = h !! l.

(** [above h W k]: the objects at [W] are of rank [k] or more. *)
Definition above (h : Heap) (W : list positive) (k : nat) : Prop :=
  ∀ w n, w ∈ W → h !! w = Some n → k ≤ rank n.

(** The cell of a table that has just been created. *)
Definition fresh_cell : CellT := mkCell None [new_paragraph []].

(** [run.font.color.rgb = color] on an object. *)
Definition color_node (c : Z * Z * Z) (n : Node) : Node :=
  match n with
  | NRun r => NRun (mkRun (run_text r) (bold r) (italic r) (underline r)
                      (font_name r) (font_size r) (Some c) (run_shading r))
  | _ => n
  end.

(** A small store: a document at location 1 with a paragraph of one run
    and a table of one cell, and an empty document at location 8. *)
Definition example_heap : Heap :=
  list_to_map
    [(1%positive, NBody [2; 4]%positive);
     (2%positive, NParagraph default_format [3%positive]);
     (3%positive, NRun (plain_run (Py.lit "Član 1")));
     (4%positive, NTable false [[5%positive]]);
     (5%positive, NCell (Some (Py.lit "FFFF00")) [6%positive]);
     (6%positive, NParagraph default_format [7%positive]);
     (7%positive, NRun (plain_run (Py.lit "a")));
     (8%positive, NBody [])].

End Store.

(** * Further parts of the program *)

(** ** The spacer of the desktop front end *)

(** The index of the first element that passes a test. *)
Fixpoint first_index {A} (P : A → bool) (l : list A) : option nat :=
  match l with
  | [] => None
  | x :: r => if P x then Some 0 else option_map S (first_index P r)
  end.

(** [isinstance(block, Paragraph) and block.text.strip() == "Član 1"]. *)
Definition is_first_article (b : Block) : bool :=
  match b with
  | Paragraph p => bool_decide (Py.strip (text p) = Py.lit "Član 1")
  | Table _ => false
  end.

Section Spacer.

Variable Pt_of_pt : Z → Z.
Variable line_spacing_of : Z → Z.

(** The paragraph that [spacer = add_paragraph(".")] becomes by
    [deep_copy_paragraph(block, spacer)]. *)
Definition spacer_of (block : ParagraphT) : ParagraphT :=
  deep_copy_paragraph Pt_of_pt line_spacing_of block (new_paragraph (Py.lit ".")).

(** The loop that ends at the first paragraph whose trimmed text is the
    title of the first article: the spacer is added to the document and
    moved to the index [idx + 2] of the body. *)
Definition add_spacer (body : list BodyChild) : list BodyChild :=
  let diff_blocks := iter_block_items body in
  match first_index is_first_article diff_blocks with
  | Some idx =>
    match diff_blocks !! idx with
    | Some (Paragraph block) =>
      let (body', src) := add_block body (Paragraph (spacer_of block)) in
      lxml_insert (idx + 2) src body'
    | _ => body
    end
  | None => body
  end.

End Spacer.

(** ** Colours as text: [get_font_color] and [hex_to_rgb] *)

(** *** [int(s, 16)] *)

(** The decimal value of a character with the property Decimal: such
    characters come in runs of ten, from zero to nine. *)
Definition todecimal (c : Z) : option Z :=
  match find (fun r => (fst r <=? c)%Z && (c <=? snd r)%Z) Py.decimal_table with
  | Some r => Some ((c - fst r) mod 10)%Z
  | None => None
  end.

(** The text is made ASCII first: a white space character becomes a
    space, a decimal digit of any script the ASCII digit of its value, and
    any other character that is not ASCII is not part of a number. *)
Definition to_ascii_char (c : Z) : option Z :=
  if (c <? 127)%Z then Some c
  else if Py.isspace c then Some 32%Z
  else match todecimal c with
       | Some d => Some (48 + d)%Z
       | None => None
       end.

Fixpoint to_ascii (s : Py.str) : option Py.str :=
  match s with
  | [] => Some []
  | c :: r =>
    match to_ascii_char c, to_ascii r with
    | Some c', Some r' => Some (c' :: r')
    | _, _ => None
    end
  end.

(** White space of the C locale. *)
Definition c_isspace (c : Z) : bool :=
  ((9 <=? c) && (c <=? 13) || (c =? 32))%Z.

Fixpoint skip_space (s : Py.str) : Py.str :=
  match s with
  | c :: r => if c_isspace c then skip_space r else s
  | [] => []
  end.

(** The value of a digit in a base up to 36. *)
Definition digit_value (c : Z) : option Z :=
  if ((48 <=? c) && (c <=? 57))%Z then Some (c - 48)%Z
  else if ((97 <=? c) && (c <=? 122))%Z then Some (c - 87)%Z
  else if ((65 <=? c) && (c <=? 90))%Z then Some (c - 55)%Z
  else None.

Definition underscore : Z := 95.

(** The digits of base 16 with single underscores between them: the value
    read so far, whether a digit has been read, the character before, and
    what is left of the text.  [None] stands for two underscores in a row
    or an underscore at the end. *)
Fixpoint scan_digits (s : Py.str) (value : Z) (prev_underscore : bool)
    : option (Z * Py.str) :=
  match s with
  | [] => if prev_underscore then None else Some (value, [])
  | c :: r =>
    if (c =? underscore)%Z then
      if prev_underscore then None else scan_digits r value true
    else
      match digit_value c with
      | Some d =>
        if (d <? 16)%Z then scan_digits r (16 * value + d)%Z false
        else if prev_underscore then None else Some (value, s)
      | None => if prev_underscore then None else Some (value, s)
      end
  end.

(** [int(s, 16)]; [None] stands for the [ValueError]. *)
Definition int16 (s : Py.str) : option Z :=
  match to_ascii s with
  | None => None
  | Some a =>
    let s1 := skip_space a in
    let (negative, s2) :=
      match s1 with
      | 43%Z :: r => (false, r)
      | 45%Z :: r => (true, r)
      | _ => (false, s1)
      end in
    let s3 :=
      match s2 with
      | 48%Z :: x :: r =>
        if ((x =? 120) || (x =? 88))%Z
        then match r with
             | u :: r' => if (u =? underscore)%Z then r' else r
             | [] => r
             end
        else s2
      | _ => s2
      end in
    match s3 with
    | [] => None
    | c :: _ =>
      if (c =? underscore)%Z then None
      else
        match scan_digits s3 0 false with
        | None => None
        | Some (value, rest) =>
          if length rest =? length s3 then None
          else
            match skip_space rest with
            | [] => Some (if negative then - value else value)%Z
            | _ => None
            end
        end
    end
  end.

(** *** [format(n, "02X")] *)

Definition hex_digit_upper (d : Z) : Z :=
  if (d <? 10)%Z then (48 + d)%Z else (55 + d)%Z.

(** The digits of a number that is not negative, the first last. *)
Fixpoint hex_digits (fuel : nat) (n : Z) (acc : Py.str) : Py.str :=
  match fuel with
  | O => acc
  | S fuel' =>
    let acc' := hex_digit_upper (n mod 16) :: acc in
    if (n / 16 =? 0)%Z then acc' else hex_digits fuel' (n / 16) acc'
  end.

Definition to_hex_upper (n : Z) : Py.str :=
  hex_digits (S (Z.to_nat (Z.log2 n))) n [].

(** Upper case digits of base 16, at least two characters wide, filled
    with zeros after the sign. *)
Definition format_02X (n : Z) : Py.str :=
  if (n <? 0)%Z then 45%Z :: to_hex_upper (- n)
  else
    let d := to_hex_upper n in
    match d with
    | [_] => 48%Z :: d
    | _ => d
    end.

(** *** The two functions *)

(** The colour of a run, where it has one that is given by its red, green
    and blue parts. *)
Definition get_font_color (c : option (Z * Z * Z)) : option Py.str :=
  match c with
  | Some (r, g, b) => Some (hash :: format_02X r ++ format_02X g ++ format_02X b)
  | None => None
  end.

(** [range(0, stop, step)] for a positive step. *)
Definition range_step (stop step : nat) : list nat :=
  map (fun k => k * step) (seq 0 ((stop + step - 1) / step)).

(** [hex_to_rgb]: [None] stands for the [ValueError] of a step of zero
    and of a part that is not a number of base 16. *)
Definition hex_to_rgb (hex_color : Py.str) : option (list Z) :=
  let hex_color := lstrip_hash hex_color in
  let lv := length hex_color in
  if lv / 3 =? 0 then None
  else mapM (fun i => int16 (take (lv / 3) (drop i hex_color)))
            (range_step lv (lv / 3)).

(** ** What the regions of a comparison are *)

(** [matches a b (i, j, k)]: the [k] elements of [a] from the index [i]
    on are the elements of [b] from the index [j] on. *)
Definition matches {K} (a b : list K) (m : Match) : Prop :=
  let '(i, j, k) := m in
  ∀ t, t < k → ∃ x, a !! (i + t) = Some x ∧ b !! (j + t) = Some x.

(** The lengths recorded for one row: [rows] is the number of rows of [a]
    that have been visited. *)
Definition row_matches {K} (a b : list K) (rows : nat) (j2len : gmap nat nat) : Prop :=
  ∀ j k, j2len !! j = Some k →
    1 ≤ k ∧ k ≤ rows ∧ k ≤ j + 1 ∧ matches a b (rows - k, j + 1 - k, k).

(** What the tag of a region says about it. *)
Definition op_ok {K} (a b : list K) (op : Opcode) : Prop :=
  let '(tag, i1, i2, j1, j2) := op in
  match tag with
  | TagEqual =>
    i1 < i2 ∧ i2 - i1 = j2 - j1 ∧ j1 < j2 ∧
    ∀ t, t < i2 - i1 → ∃ x, a !! (i1 + t) = Some x ∧ b !! (j1 + t) = Some x
  | TagDelete => i1 < i2 ∧ j1 = j2
  | TagInsert => i1 = i2 ∧ j1 < j2
  | TagReplace => i1 < i2 ∧ j1 < j2
  end.

(** ** The comparison rendered: the loop over the regions *)

(** The colour of what has been removed and of what has been added. *)
Definition red : Z * Z * Z := (255, 0, 0)%Z.
Definition green : Z * Z * Z := (0, 204, 51)%Z.

(** [blocks[k]] with the colour that its copy is given; [None] stands for
    the [IndexError]. *)
Definition picked (color : option (Z * Z * Z)) (blocks : list Block) (k : nat)
    : option (option (Z * Z * Z) * Block) :=
  pair color <$> blocks !! k.

(** The blocks that are copied into the comparison for one region, in the
    order of the copies. *)
Definition region_blocks (orig_blocks new_blocks : list Block) (op : Opcode)
    : option (list (option (Z * Z * Z) * Block)) :=
  let '(tag, i1, i2, j1, j2) := op in
  match tag with
  | TagEqual =>
    mapM (fun k => picked None new_blocks (j1 + (k - i1))) (seq i1 (i2 - i1))
  | TagDelete => mapM (picked (Some red) orig_blocks) (seq i1 (i2 - i1))
  | TagInsert => mapM (picked (Some green) new_blocks) (seq j1 (j2 - j1))
  | TagReplace =>
    match mapM (picked (Some red) orig_blocks) (seq i1 (i2 - i1)),
          mapM (picked (Some green) new_blocks) (seq j1 (j2 - j1)) with
    | Some removed, Some added => Some (removed ++ added)
    | _, _ => None
    end
  end.

(** [for tag, i1, i2, j1, j2 in matcher.get_opcodes()]. *)
Definition comparison_blocks (orig_blocks new_blocks : list Block)
    : option (list (option (Z * Z * Z) * Block)) :=
  match diff orig_blocks new_blocks with
  | Some ops =>
    match mapM (region_blocks orig_blocks new_blocks) ops with
    | Some cbss => Some (concat cbss)
    | None => None
    end
  | None => None
  end.

(** How a block of the comparison relates to the block of the original
    that it stands for: it is that block, in red, or a block of the new
    document with the same key, without colour. *)
Definition stands_for (cb : option (Z * Z * Z) * Block) (o : Block) : Prop :=
  (cb.1 = Some red ∧ cb.2 = o) ∨ (cb.1 = None ∧ new_key cb.2 = orig_key o).

Section Comparison.

Variable Pt_of_pt : Z → Z.
Variable line_spacing_of : Z → Z.

(** The copy of a block into the comparison.  A paragraph is created
    empty for an [equal] region and with the text of the block in square
    brackets otherwise, and [deep_copy_paragraph] and the colour of the
    runs follow. *)
Definition render_block (cb : option (Z * Z * Z) * Block) : Block :=
  match cb.2 with
  | Paragraph p =>
    let created :=
      new_paragraph match cb.1 with
                    | None => []
                    | Some _ => Py.lit "[" ++ text p ++ Py.lit "]"
                    end in
    Paragraph (recolor cb.1 (deep_copy_paragraph Pt_of_pt line_spacing_of p created))
  | Table t => Table (deep_copy_table Pt_of_pt line_spacing_of t cb.1)
  end.

(** The loop, on the document [body]. *)
Definition render_comparison (body : list BodyChild)
    (orig_blocks new_blocks : list Block) : option (list BodyChild) :=
  match comparison_blocks orig_blocks new_blocks with
  | Some cbs =>
    Some (foldl (fun body cb => (add_block body (render_block cb)).1) body cbs)
  | None => None
  end.

End Comparison.

(** ** [add_explanatory_table] *)

(** [RGBColor(r, g, b)]: each part is between 0 and 255; [None] stands
    for the [ValueError]. *)
Definition RGBColor (parts : list Z) : option (Z * Z * Z) :=
  match parts with
  | [r; g; b] =>
    if forallb (fun x => (0 <=? x)%Z && (x <=? 255)%Z) [r; g; b]
    then Some (r, g, b) else None
  | _ => None
  end.

(** The body of [for text, bold, color, shading, italic in texts]: the run
    that is added to the paragraph. *)
Definition styled_run (spec : Py.str * bool * option Py.str * option Py.str * bool)
    : option Run :=
  let '(run_text, bold, color, shading, italic) := spec in
  let shading' :=
    match shading with
    | Some s => if Py.truthy s then Some (lstrip_hash s) else None
    | None => None
    end in
  let run c := mkRun run_text (Some bold) (Some italic) None
                 (Some (Py.lit "Arial")) None c shading' in
  match color with
  | Some c =>
    if Py.truthy c
    then match hex_to_rgb c ≫= RGBColor with
         | Some rgb => Some (run (Some rgb))
         | None => None
         end
    else Some (run None)
  | None => Some (run None)
  end.

Definition explanatory_texts
    : list (Py.str * bool * option Py.str * option Py.str * bool) :=
  [(Py.lit "Radi lakšeg sagledavanja izmena i dopuna propisa, nova sadržina odredaba data je ",
    true, None, None, false);
   (Py.lit "zelenom", true, None, Some (Py.lit "#33FF33"), false);
   (Py.lit ", prethodna ", true, None, None, false);
   (Py.lit "crvenom", true, Some (Py.lit "#FF0000"), None, false);
   (Py.lit " bojom, a nepromenjene odredbe nisu posebno označene, tako da pregledanjem crno-zelenog teksta pregledate važeću, a crno-crvenog teksta, prethodnu verziju propisa. Prečišćen tekst bez crvenih i zelenih oznaka i dalje možete videti na tabu ",
    true, None, None, false);
   ([Py.dquote] ++ Py.lit "Tekst dokumenta" ++ [Py.dquote] ++ Py.lit ".",
    true, None, None, true)].

(** A table of one cell with a fill: the cell holds the empty paragraph
    that it is created with and the paragraph [p]. *)
Definition boxed (fill : Py.str) (p : ParagraphT) : Block :=
  Table (mkTable false [[mkCell (Some (lstrip_hash fill)) [new_paragraph []; p]]]).

(** Lengths are in English metric units and line spacings in 240ths of a
    line: 5 points are 63500 units, 13 points 165100. *)
Definition add_explanatory_table (body : list BodyChild) : option (list BodyChild) :=
  match mapM styled_run explanatory_texts with
  | None => None
  | Some explanation =>
    let p1 :=
      mkParagraph
        (mkParaFormat (Py.lit "Normal") (Some CENTER) None None None
           (Some 63500%Z) (Some 63500%Z) (Some 240%Z) None)
        explanation in
    let body1 := (add_block body (boxed (Py.lit "#CCCCCC") p1)).1 in
    let p2 :=
      mkParagraph
        (mkParaFormat (Py.lit "Normal") (Some CENTER) None None None
           None None (Some 264%Z) None)
        [mkRun (Py.lit "Propis - analitički prikaz promena") (Some true) (Some true)
           None (Some (Py.lit "Arial")) (Some 165100%Z) (Some (255, 232, 191)%Z) None] in
    Some (add_block body1 (boxed (Py.lit "#000000") p2)).1
  end.

(** ** [process_part_b] *)

Section ComparisonPipeline.

Variable Pt_of_pt : Z → Z.
Variable line_spacing_of : Z → Z.

(** The comparison document of the original [orig] and the new document
    [new_d], with the reference to the amendment document [gov]:
    [desktop] tells the desktop front end, which sets the spacing of the
    references and adds the spacer, from the web front end.  [None] stands
    for an exception. *)
Definition process_part_b (desktop : bool) (orig new_d gov : list BodyChild)
    : option (list BodyChild) :=
  match add_explanatory_table [CSectPr] with
  | None => None
  | Some diff_doc0 =>
    match render_comparison Pt_of_pt line_spacing_of diff_doc0
            (iter_block_items orig) (iter_block_items new_d) with
    | None => None
    | Some diff_doc1 =>
      let ref := extract_amending_ref (iter_block_items gov) in
      let diff_doc2 :=
        insert_references (reference_paragraph desktop ref) diff_doc1 in
      Some (if desktop
            then add_spacer Pt_of_pt line_spacing_of diff_doc2
            else diff_doc2)
    end
  end.

End ComparisonPipeline.

(** ** The document before the instructions are applied *)

Section BeforeAmendments.

Variable Pt_of_pt : Z → Z.
Variable line_spacing_of : Z → Z.

(** The document that [process_part_a] has before it looks at the
    instructions: the copy of the original with the merged citation. *)
Definition copied_and_merged (orig amend_doc : list BodyChild) : list BodyChild :=
  (merge_gazette Pt_of_pt line_spacing_of (iter_block_items orig)
     (iter_block_items amend_doc)
     (copy_document Pt_of_pt line_spacing_of [CSectPr] (iter_block_items orig))).1.

End BeforeAmendments.

(** A law whose first article has been amended before, with its marker. *)
Definition marked_law : list BodyChild :=
  map CBlock [para "Član 1*"; para "text A"; para "Član 2"; para "text C"] ++ [CSectPr].

(** ** The copy of a table in a colour *)

(** What the cell [cell'] of the copy has of the cell [cell] of the
    source: its paragraphs, text by text, after the empty paragraph that a
    new cell holds; every run in the colour [c]; and the fixed fill where
    the source has a fill. *)
Definition cell_copied (c : Z * Z * Z) (cell cell' : CellT) : Prop :=
  map text (cell_paragraphs cell') = [] :: map text (cell_paragraphs cell) ∧
  Forall (fun q => Forall (fun r => font_color r = Some c) (runs q))
    (cell_paragraphs cell') ∧
  cell_shading cell' =
    match copied_shading (cell_shading cell) with
    | Some _ => Some (Py.lit "8A084B")
    | None => None
    end.

(** Two instructions, on the first and on the second article. *)
Definition two_repeals : list BodyChild :=
  [CBlock (para "Odredbe člana 1. stav 2. Zakona o računovodstvu prestaju da važe.");
   CBlock (para "Odredbe člana 2. stav 1. Zakona o računovodstvu prestaju da važe.");
   CSectPr].

(** ** The order of the citations read by number

    A citation of an issue is a number, a slash and a year, in decimal
    digits.  [numeric_order x y] is the order that sorts the citations of
    issues by year and number, before every other token. *)
Definition slash : Z := 47.

Definition ascii_digit (c : Z) : bool := (48 <=? c)%Z && (c <=? 57)%Z.

Definition decimal_value (s : Py.str) : nat :=
  foldl (fun n c => 10 * n + Z.to_nat (c - 48)) 0 s.

Fixpoint digits_prefix (s : Py.str) : Py.str * Py.str :=
  match s with
  | [] => ([], [])
  | c :: r =>
    if ascii_digit c
    then let (d, rest) := digits_prefix r in (c :: d, rest)
    else ([], s)
  end.

(** The number and the year of a citation of an issue. *)
Definition issue_token (x : Py.str) : option (nat * nat) :=
  let (number, rest) := digits_prefix x in
  match number, rest with
  | _ :: _, c :: year =>
    if (c =? slash)%Z && Py.truthy year && forallb ascii_digit year
    then Some (decimal_value number, decimal_value year)
    else None
  | _, _ => None
  end.

Definition numeric_order (x y : Py.str) : Prop :=
  match issue_token x, issue_token y with
  | Some (n, yr), Some (n', yr') => yr < yr' ∨ (yr = yr' ∧ n ≤ n')
  | Some _, None => True
  | None, Some _ => False
  | None, None => True
  end.

(** A citation paragraph with the references [refs]. *)
Definition citation_of (refs : Py.str) : Py.str :=
  Py.lit "ZAKON (" ++ gazette_prefix ++ refs ++ Py.lit ")".

(** * Properties *)
Lemma header_key_truthy b : is_header b = true → Py.truthy (header_key b) = true.
Proof.
  destruct b as [p|t]; simpl; [|done].
  destruct (Py.strip (text p)) as [|c s]; simpl; done.
Qed.

Lemma extract_loop_spec blocks : ∀ st i,
  close_article (extract_loop st i blocks) (i + length blocks) =
  assign_all (close_article st (next_boundary i blocks)) (spans_from i blocks).
Proof.
  induction blocks as [|b r IH]; intros st i; simpl.
  - by rewrite Nat.add_0_r.
  - replace (i + S (length r)) with (S i + length r) by lia.
    rewrite IH. unfold extract_step.
    destruct (is_header b) eqn:Hb; simpl; [|done].
    unfold close_article at 1; simpl.
    by rewrite (header_key_truthy b Hb).
Qed.

Lemma extract_articles_spec blocks :
  extract_articles blocks = assign_all ∅ (spans_from 0 blocks).
Proof.
  unfold extract_articles. by rewrite (extract_loop_spec blocks _ 0).
Qed.
Section AssignAll.
Context {V : Type}.
Implicit Types (m : gmap Py.str V) (l : list (Py.str * V)).

Lemma assign_all_app m l1 l2 :
  assign_all m (l1 ++ l2) = assign_all (assign_all m l1) l2.
Proof. apply foldl_app. Qed.

Lemma assign_all_notin m l k :
  k ∉ l.*1 → assign_all m l !! k = m !! k.
Proof.
  revert m; induction l as [|[k' v] l IH]; intros m Hk; simpl; [done|].
  rewrite fmap_cons, not_elem_of_cons in Hk. destruct Hk as [Hne Hk].
  unfold assign_all in *. simpl. rewrite IH by done.
  by rewrite lookup_insert_ne.
Qed.

Lemma assign_all_last m l1 l2 k v :
  k ∉ l2.*1 → assign_all m (l1 ++ (k, v) :: l2) !! k = Some v.
Proof.
  intros Hk. rewrite assign_all_app. unfold assign_all at 1. simpl.
  fold (assign_all (<[k:=v]> (assign_all m l1)) l2).
  rewrite assign_all_notin by done. by rewrite lookup_insert_eq.
Qed.

Lemma assign_all_lookup m l k v :
  assign_all m l !! k = Some v → m !! k = Some v ∨ (k, v) ∈ l.
Proof.
  revert m; induction l as [|[k' v'] l IH]; intros m; simpl; [by left|].
  unfold assign_all; simpl. intros H. apply IH in H as [H|H].
  - destruct (decide (k' = k)) as [->|Hne].
    + rewrite lookup_insert_eq in H. injection H as ->. right; left.
    + rewrite lookup_insert_ne in H by done. by left.
  - right. by right.
Qed.
End AssignAll.

Lemma spans_from_elem blocks : ∀ i k s e,
  (k, (s, e)) ∈ spans_from i blocks →
  ∃ b, i ≤ s ∧ blocks !! (s - i) = Some b ∧ is_header b = true ∧
       header_key b = k ∧ e = next_boundary (S s) (drop (S (s - i)) blocks).
Proof.
  induction blocks as [|b r IH]; intros i k s e; simpl.
  - intros H; inversion H.
  - destruct (is_header b) eqn:Hb.
    + rewrite elem_of_cons. intros [Heq|Hin].
      * injection Heq as -> -> ->. exists b. rewrite Nat.sub_diag. simpl.
        by rewrite drop_0.
      * apply IH in Hin as (b' & Hle & Hl & Hh & Hk & He).
        exists b'. replace (s - i) with (S (s - S i)) by lia. simpl.
        repeat split; try done. lia.
    + intros Hin. apply IH in Hin as (b' & Hle & Hl & Hh & Hk & He).
      exists b'. replace (s - i) with (S (s - S i)) by lia. simpl.
      repeat split; try done. lia.
Qed.

Lemma spans_from_split pre b post : ∀ i,
  is_header b = true →
  ∃ l1, spans_from i (pre ++ b :: post) =
        l1 ++ (header_key b, (i + length pre, next_boundary (S (i + length pre)) post))
           :: spans_from (S (i + length pre)) post.
Proof.
  induction pre as [|c pre IH]; intros i Hb; simpl.
  - exists []. rewrite Hb, Nat.add_0_r. done.
  - destruct (IH (S i) Hb) as [l1 Hl1].
    replace (i + S (length pre)) with (S i + length pre) by lia.
    destruct (is_header c).
    + eexists (_ :: l1). rewrite Hl1. done.
    + exists l1. done.
Qed.

Lemma spans_from_no_header blocks i :
  (∀ b, b ∈ blocks → is_header b = false) → spans_from i blocks = [].
Proof.
  revert i; induction blocks as [|b r IH]; intros i H; simpl; [done|].
  rewrite (H b) by left. apply IH. intros b' Hb'. apply H. by right.
Qed.

(** What [next_boundary] returns. *)
Lemma next_boundary_spec rest : ∀ i,
  let e := next_boundary i rest in
  i ≤ e ≤ i + length rest ∧
  (∀ j b, j < e - i → rest !! j = Some b → is_header b = false) ∧
  (e = i + length rest ∨ ∃ b, rest !! (e - i) = Some b ∧ is_header b = true).
Proof.
  induction rest as [|b r IH]; intros i; simpl.
  - split; [lia|]. split; [intros; lia|left; lia].
  - destruct (is_header b) eqn:Hb.
    + split; [lia|]. split; [intros; lia|]. right. exists b.
      by rewrite Nat.sub_diag.
    + destruct (IH (S i)) as (Hr & Hno & Hend). split; [lia|]. split.
      * intros [|j] b' Hj; simpl; [by intros [= <-]|].
        apply Hno. lia.
      * destruct Hend as [->|(b' & Hl & Hh)]; [left; lia|right].
        exists b'. replace (next_boundary (S i) r - i)
          with (S (next_boundary (S i) r - S i)) by lia. done.
Qed.
Lemma spans_from_header i b r :
  is_header b = true →
  spans_from i (b :: r) = (header_key b, (i, next_boundary (S i) r)) :: spans_from (S i) r.
Proof. intros H. simpl. by rewrite H. Qed.

Lemma spans_from_other i b r :
  is_header b = false → spans_from i (b :: r) = spans_from (S i) r.
Proof. intros H. simpl. by rewrite H. Qed.

Lemma next_boundary_header i b r :
  is_header b = true → next_boundary i (b :: r) = i.
Proof. intros H. simpl. by rewrite H. Qed.

Lemma next_boundary_other i b r :
  is_header b = false → next_boundary i (b :: r) = next_boundary (S i) r.
Proof. intros H. simpl. by rewrite H. Qed.

(** Every entry of the result is the span of a header. *)
Lemma extract_articles_entry blocks k s e :
  extract_articles blocks !! k = Some (s, e) →
  ∃ b, blocks !! s = Some b ∧ is_header b = true ∧ header_key b = k ∧
       e = next_boundary (S s) (drop (S s) blocks).
Proof.
  rewrite extract_articles_spec. intros H.
  apply assign_all_lookup in H as [H|H].
  { by rewrite lookup_empty in H. }
  apply spans_from_elem in H as (b & _ & Hl & Hb & Hk & He).
  rewrite Nat.sub_0_r in Hl, He. by exists b.
Qed.

(** C5 (as amended): [extract_articles] keys each span by the trimmed text
    of the header paragraph as it is written, with its case kept.  A header
    at index [h] whose key is not used again by a later header is mapped to
    [h, h'), where [h'] is the index of the next header or the length of
    the sequence; every entry of the result is the span of some header;
    without headers the result is empty; and for headers at 0, 5 and 12 in
    a sequence of length 20 the spans assigned are [0,5), [5,12), [12,20). *)
Theorem extract_articles_spans (blocks : list Block) :
  (∀ h b, blocks !! h = Some b → is_header b = true →
     (∀ h' b', h < h' → blocks !! h' = Some b' → is_header b' = true →
        header_key b' ≠ header_key b) →
     extract_articles blocks !! header_key b =
       Some (h, next_boundary (S h) (drop (S h) blocks))) ∧
  (∀ k s e, extract_articles blocks !! k = Some (s, e) →
     ∃ b, blocks !! s = Some b ∧ is_header b = true ∧ header_key b = k ∧
          e = next_boundary (S s) (drop (S s) blocks)) ∧
  ((∀ b, b ∈ blocks → is_header b = false) → extract_articles blocks = ∅) ∧
  (length blocks = 20 →
   (∀ i b, blocks !! i = Some b → is_header b = bool_decide (i ∈ [0; 5; 12])) →
   ∀ b0 b5 b12,
     blocks !! 0 = Some b0 → blocks !! 5 = Some b5 → blocks !! 12 = Some b12 →
     extract_articles blocks =
       <[header_key b12 := (12, 20)]>
         (<[header_key b5 := (5, 12)]> {[header_key b0 := (0, 5)]})).
Proof.
  rewrite extract_articles_spec. repeat split.
  - intros h b Hl Hb Hlater.
    pose proof (take_drop_middle blocks h b Hl) as Hsplit.
    assert (Hlen : length (take h blocks) = h).
    { apply length_take_le. apply lookup_lt_Some in Hl. lia. }
    destruct (spans_from_split (take h blocks) b (drop (S h) blocks) 0 Hb)
      as [l1 Hl1].
    rewrite Hsplit, Hlen in Hl1. simpl in Hl1. rewrite Hl1.
    apply assign_all_last. intros Hin.
    apply list_elem_of_fmap in Hin as ([k [s e]] & Hk & Hin). simpl in Hk.
    apply spans_from_elem in Hin as (b' & Hle & Hl' & Hb' & Hk' & _).
    rewrite lookup_drop in Hl'.
    apply (Hlater (S h + (s - S h)) b'); [lia|done|done|congruence].
  - intros k s e H. apply assign_all_lookup in H as [H|H].
    { by rewrite lookup_empty in H. }
    apply spans_from_elem in H as (b & _ & Hl & Hb & Hk & He).
    rewrite Nat.sub_0_r in Hl, He. by exists b.
  - intros H. by rewrite spans_from_no_header.
  - intros Hlen Hh b0 b5 b12 H0 H5 H12.
    do 20 (destruct blocks as [|? blocks]; [discriminate Hlen|]).
    destruct blocks; [|discriminate Hlen].
    injection H0 as ->. injection H5 as ->. injection H12 as ->.
    repeat match goal with
    | H : ?l !! ?k = Some ?b |- _ => clear H
    end.
    repeat match goal with
    | |- context [spans_from ?i (?b :: ?r)] =>
      first [ rewrite (spans_from_header i b r) by exact (Hh i b eq_refl)
            | rewrite (spans_from_other i b r) by exact (Hh i b eq_refl) ]
    | |- context [next_boundary ?i (?b :: ?r)] =>
      first [ rewrite (next_boundary_header i b r) by exact (Hh i b eq_refl)
            | rewrite (next_boundary_other i b r) by exact (Hh i b eq_refl) ]
    end.
    reflexivity.
Qed.
(** The sequence [twenty_blocks] meets the hypotheses of the last part of the
    statement on the spans. *)
Lemma extract_articles_spans_witness :
  length twenty_blocks = 20 ∧
  (∀ i b, twenty_blocks !! i = Some b →
     is_header b = bool_decide (i ∈ [0; 5; 12])) ∧
  extract_articles twenty_blocks =
    <[Py.lit "Član 3" := (12, 20)]>
      (<[Py.lit "Član 2" := (5, 12)]> {[Py.lit "Član 1" := (0, 5)]}).
Proof.
  assert (H : ∀ i b, twenty_blocks !! i = Some b →
     is_header b = bool_decide (i ∈ [0; 5; 12])).
  { intros i b.
    do 20 (destruct i as [|i]; [intros [= <-]; vm_compute; reflexivity|]).
    intros [=]. }
  split; [reflexivity|]. split; [exact H|].
  exact (proj2 (proj2 (proj2 (extract_articles_spans twenty_blocks)))
           eq_refl H _ _ _ eq_refl eq_refl eq_refl).
Defined.

(** The keys are not case-normalized: no normalization that identifies two
    spellings of one header differing in case only can give the keys. *)
Lemma extract_articles_not_case_normalized :
  ¬ ∃ norm : Py.str → Py.str,
      norm (Py.lit "ČLAN 5") = norm (Py.lit "član 5") ∧
      ∀ blocks h b, blocks !! h = Some b → is_header b = true →
        is_Some (extract_articles blocks !! norm (header_key b)).
Proof.
  intros (norm & Heq & H).
  assert (K : ∀ s, ARTICLE_RE_match (Py.strip (Py.lit s)) = true →
              Py.lit s ≠ [] → norm (Py.strip (Py.lit s)) = Py.strip (Py.lit s)).
  { intros s Hs Hne.
    assert (Hb : is_header (para s) = true).
    { unfold para, new_paragraph, is_header, text. simpl.
      destruct (Py.lit s); [done|]. simpl. by rewrite app_nil_r. }
    pose proof (H [para s] 0 _ eq_refl Hb) as [[s1 e1] H1].
    apply extract_articles_entry in H1 as (b1 & Hl1 & _ & Hk1 & _).
    destruct s1 as [|s1]; [|destruct s1; discriminate Hl1].
    injection Hl1 as <-.
    assert (Hkey : header_key (para s) = Py.strip (Py.lit s)).
    { unfold para, new_paragraph, header_key, text. simpl.
      destruct (Py.lit s); [done|]. simpl. by rewrite app_nil_r. }
    rewrite Hkey in Hk1. done. }
  pose proof (K "ČLAN 5" eq_refl ltac:(discriminate)) as K1.
  pose proof (K "član 5" eq_refl ltac:(discriminate)) as K2.
  change (Py.strip (Py.lit "ČLAN 5")) with (Py.lit "ČLAN 5") in K1.
  change (Py.strip (Py.lit "član 5")) with (Py.lit "član 5") in K2.
  rewrite K1, K2 in Heq. vm_compute in Heq. discriminate Heq.
Qed.

(** Two headers with one text: the span of the first is replaced by the
    span of the second. *)
Example extract_articles_same_header_twice :
  extract_articles [para "Član 1"; para "a"; para "Član 1"; para "b"] =
    {[Py.lit "Član 1" := (2, 4)]}.
Proof. vm_compute. reflexivity. Qed.

(** ** [extract_amending_ref] *)

Lemma upper_char_nonempty c : Py.upper_char c ≠ [].
Proof.
  unfold Py.upper_char.
  destruct (find _ Py.upper_special) as [e|] eqn:He.
  - apply find_some in He as [Hin _].
    assert (Hall : forallb (fun e : Z * list Z =>
                     match snd e with [] => false | _ => true end)
                     Py.upper_special = true) by (vm_compute; reflexivity).
    rewrite forallb_forall in Hall. specialize (Hall e Hin).
    by destruct (snd e).
  - destruct (find _ Py.upper_runs) as [[[[lo hi] step] off]|]; done.
Qed.

Lemma upper_truthy s : Py.truthy s = true → Py.truthy (Py.upper s) = true.
Proof.
  destruct s as [|c s]; [done|]. intros _. unfold Py.upper. simpl.
  pose proof (upper_char_nonempty c). by destruct (Py.upper_char c).
Qed.

Lemma contains_truthy sub s :
  Py.truthy sub = true → Py.contains sub s = true → Py.truthy s = true.
Proof. destruct sub, s; done. Qed.

Lemma ARTICLE_RE_match_truthy t : ARTICLE_RE_match t = true → Py.truthy t = true.
Proof. by destruct t. Qed.

Lemma last_match_cons P t ts :
  last_match P (t :: ts) =
    match last_match P ts with
    | Some a => Some a
    | None => if P t then Some t else None
    end.
Proof.
  unfold last_match. rewrite filter_cons.
  destruct (decide (P t = true)) as [->|Hn].
  - rewrite last_cons. by destruct (last _).
  - apply not_true_is_false in Hn. rewrite Hn. by destruct (last _).
Qed.

Lemma ref_loop_spec doc : ∀ st,
  let ts := paragraph_texts doc in
  let st' := foldl ref_step st doc in
  article st' = upper_or (article st) (last_match ARTICLE_RE_match ts) ∧
  law_name st' = upper_or (law_name st) (last_match names_statute ts) ∧
  gazette st' = upper_or (gazette st) (last_match has_gazette_marker ts).
Proof.
  induction doc as [|b r IH]; intros st; [done|].
  cbn zeta. change (foldl ref_step st (b :: r)) with (foldl ref_step (ref_step st b) r).
  destruct (IH (ref_step st b)) as (Ha & Hl & Hg). rewrite Ha, Hl, Hg.
  destruct b as [p|t]; [|done].
  change (paragraph_texts (Paragraph p :: r))
    with (Py.strip (text p) :: paragraph_texts r).
  rewrite !last_match_cons. unfold ref_step.
  generalize (Py.strip (text p)). intros t.
  destruct (last_match ARTICLE_RE_match _), (last_match names_statute _),
    (last_match has_gazette_marker _),
    (ARTICLE_RE_match t), (names_statute t), (has_gazette_marker t); done.
Qed.

Lemma last_match_holds P ts a : last_match P ts = Some a → P a = true.
Proof.
  unfold last_match. intros H. apply last_Some_elem_of in H.
  by apply list_elem_of_filter in H as [H _].
Qed.

(** C6 (as amended): [extract_amending_ref] composes the bracketed upper
    case citation from the last header-like paragraph, the last paragraph
    naming a statute and the last paragraph with the gazette marker of the
    amendment document; when one of the three is absent it returns the
    fixed literal citation. *)
Theorem extract_amending_ref_last (gov_doc : list Block) :
  extract_amending_ref gov_doc = amending_ref_of last_match gov_doc.
Proof.
  unfold extract_amending_ref, amending_ref_of.
  destruct (ref_loop_spec gov_doc (mkRefState [] [] [])) as (Ha & Hl & Hg).
  simpl in Ha, Hl, Hg. rewrite Ha, Hl, Hg.
  destruct (last_match ARTICLE_RE_match _) as [a|] eqn:Ea; simpl; [|done].
  apply last_match_holds in Ea.
  rewrite (upper_truthy a (ARTICLE_RE_match_truthy a Ea)). simpl.
  destruct (last_match names_statute _) as [l|] eqn:El; simpl; [|done].
  apply last_match_holds in El.
  rewrite (contains_truthy (Py.lit "ZAKON O") (Py.upper l) eq_refl El). simpl.
  destruct (last_match has_gazette_marker _) as [g|] eqn:Eg; simpl; [|done].
  apply last_match_holds in Eg.
  by rewrite (contains_truthy (Py.lit "SL. GLASNIK RS") (Py.upper g) eq_refl Eg).
Qed.

(** With two header-like paragraphs the citation names the second one, not
    the first. *)
Lemma extract_amending_ref_not_first :
  extract_amending_ref two_articles_gov_doc ≠
    amending_ref_of first_match two_articles_gov_doc.
Proof. vm_compute. discriminate. Qed.

Example extract_amending_ref_two_articles :
  extract_amending_ref two_articles_gov_doc =
    Py.lit "[ČLAN 2 ZAKON O IZMENAMA (SL. GLASNIK RS, BR. 1/2020)]".
Proof. vm_compute. reflexivity. Qed.

Example extract_amending_ref_fallback :
  extract_amending_ref [para "Član 1"; para "Zakon o izmenama"] = fallback_ref.
Proof. vm_compute. reflexivity. Qed.
(** ** [merge_gazette_text] *)

Lemma str_ltb_irrefl s : Py.str_ltb s s = false.
Proof.
  induction s as [|c s IH]; simpl; [done|].
  rewrite Z.ltb_irrefl, Z.eqb_refl, IH. done.
Qed.

Lemma str_ltb_trichotomy s t :
  Py.str_ltb s t = true ∨ s = t ∨ Py.str_ltb t s = true.
Proof.
  revert t; induction s as [|c s IH]; intros [|d t]; simpl; auto.
  destruct (Z.ltb_spec c d); [auto|].
  destruct (Z.ltb_spec d c); [auto|].
  assert (c = d) as -> by lia. rewrite Z.eqb_refl. simpl.
  destruct (IH t) as [H'|[->|H']]; auto.
Qed.

Lemma str_ltb_trans s t u :
  Py.str_ltb s t = true → Py.str_ltb t u = true → Py.str_ltb s u = true.
Proof.
  revert t u; induction s as [|c s IH]; intros [|d t] [|e u]; simpl; try done.
  rewrite !orb_true_iff, !andb_true_iff, !Z.ltb_lt, !Z.eqb_eq.
  intros [H1|[-> H1]] [H2|[-> H2]]; [left; lia|by left|by left|].
  right. split; [done|]. by apply (IH t u).
Qed.

Lemma str_ltb_asym s t : Py.str_ltb s t = true → Py.str_ltb t s = false.
Proof.
  intros H. destruct (Py.str_ltb t s) eqn:E; [|done].
  pose proof (str_ltb_trans _ _ _ H E) as H'. by rewrite str_ltb_irrefl in H'.
Qed.

Global Instance ref_key_le_total : Total ref_key_le.
Proof.
  intros x y. unfold ref_key_le, ref_key_leb.
  destruct (Py.isdigit x), (Py.isdigit y); simpl; auto;
    destruct (str_ltb_trichotomy x y) as [H|[->|H]];
    rewrite ?str_ltb_irrefl, ?(str_ltb_asym _ _ H), ?H; auto.
Qed.

Global Instance ref_key_le_trans : Transitive ref_key_le.
Proof.
  intros x y z. unfold ref_key_le, ref_key_leb.
  destruct (Py.isdigit x), (Py.isdigit y), (Py.isdigit z); simpl; try done;
    rewrite !negb_true_iff; intros H1 H2;
    destruct (Py.str_ltb z x) eqn:E; try done;
    destruct (str_ltb_trichotomy y z) as [H|[->|H]]; try congruence;
    pose proof (str_ltb_trans _ _ _ H E); congruence.
Qed.

Lemma StronglySorted_lookup {A} (R : relation A) l i j x y :
  StronglySorted R l → i < j → l !! i = Some x → l !! j = Some y → R x y.
Proof.
  intros Hs. revert i j. induction Hs as [|a l Hs IH Hall]; intros i j Hij Hi Hj.
  - done.
  - destruct j as [|j]; [lia|]. destruct i as [|i]; simpl in *.
    + injection Hi as <-. rewrite Forall_forall in Hall.
      apply Hall. by eapply list_elem_of_lookup_2.
    + apply (IH i j); [lia|done|done].
Qed.

Lemma isdigit_slash x : slash ∈ x → Py.isdigit x = false.
Proof.
  intros Hin. unfold Py.isdigit. destruct x as [|c r]; [done|].
  apply not_true_is_false. rewrite forallb_forall. intros Hall.
  apply list_elem_of_In in Hin. by specialize (Hall _ Hin).
Qed.

(** C3 (as amended): when both texts contain a gazette citation, the
    citation of the old text is replaced by the rendering of the merged
    list: the tokens of the merged list, joined by the conjunction, are the
    union of the two token sets, each once, with the tokens made of digits
    only before all others and each of the two groups in ascending order
    of the texts, compared code point by code point.  A token with a slash,
    as the citation of an issue and a year, is not made of digits only: it
    is sorted as a text among the other tokens, and not by its number.
    Merging the token 44/2021 with the tokens 44/2021 and 95/2022 renders
    44/2021 i 95/2022; merging 9/2021 with 10/2021 puts 10/2021 first. *)
Theorem merge_gazette_text_union (old_text new_text g0 g1 h0 h1 : Py.str) :
  GAZETTE_RE_search old_text = Some (g0, g1) →
  GAZETTE_RE_search new_text = Some (h0, h1) →
  let merged := merged_refs g1 h1 in
  merge_gazette_text old_text new_text =
    Py.replace old_text g0
      (Py.lit "(" ++ gazette_prefix ++ Py.join (Py.lit " i ") merged ++ Py.lit ")") ∧
  NoDup merged ∧
  (∀ x, x ∈ merged ↔ x ∈ refs_of g1 ∨ x ∈ refs_of h1) ∧
  (∀ i j x y, i < j → merged !! i = Some x → merged !! j = Some y →
     (Py.isdigit y = true → Py.isdigit x = true) ∧
     (Py.isdigit x = Py.isdigit y → Py.str_ltb x y = true)) ∧
  (∀ x, slash ∈ x → Py.isdigit x = false) ∧
  Py.join (Py.lit " i ")
    (merged_refs (Py.lit "44/2021") (Py.lit "44/2021 i 95/2022")) =
    Py.lit "44/2021 i 95/2022" ∧
  merged_refs (Py.lit "9/2021") (Py.lit "10/2021") =
    [Py.lit "10/2021"; Py.lit "9/2021"].
Proof.
  intros Hold Hnew merged.
  assert (Hperm : merged ≡ₚ elements (refs_of g1 ∪ refs_of h1))
    by apply merge_sort_Permutation.
  assert (Hnd : NoDup merged).
  { rewrite Hperm. apply NoDup_elements. }
  split; [|split; [|split; [|split; [|split; [|split]]]]].
  - unfold merge_gazette_text. by rewrite Hold, Hnew.
  - done.
  - intros x. rewrite Hperm, elem_of_elements. set_solver.
  - intros i j x y Hij Hi Hj.
    assert (Hle : ref_key_le x y).
    { eapply (StronglySorted_lookup ref_key_le merged i j); try done.
      apply StronglySorted_merge_sort; apply _. }
    assert (Hne : x ≠ y).
    { intros ->. pose proof (NoDup_lookup _ _ _ _ Hnd Hi Hj). lia. }
    unfold ref_key_le, ref_key_leb in Hle.
    split.
    + intros Hy. rewrite Hy in Hle. by destruct (Py.isdigit x).
    + intros Heq. rewrite Heq in Hle.
      destruct (str_ltb_trichotomy x y) as [H|[->|H]]; [done|done|].
      rewrite H in Hle. by destruct (Py.isdigit y).
  - apply isdigit_slash.
  - vm_compute. reflexivity.
  - vm_compute. reflexivity.
Qed.

Lemma merge_gazette_text_union_witness :
  GAZETTE_RE_search citation_one =
    Some (gazette_prefix ++ Py.lit "44/2021)", Py.lit "44/2021") ∧
  GAZETTE_RE_search citation_two =
    Some (gazette_prefix ++ Py.lit "44/2021 i 95/2022)", Py.lit "44/2021 i 95/2022") ∧
  merge_gazette_text citation_one citation_two =
    Py.replace citation_one (gazette_prefix ++ Py.lit "44/2021)")
      (Py.lit "(" ++ gazette_prefix ++
       Py.join (Py.lit " i ")
         (merged_refs (Py.lit "44/2021") (Py.lit "44/2021 i 95/2022")) ++
       Py.lit ")").
Proof.
  split; [reflexivity|]. split; [reflexivity|].
  exact (proj1 (merge_gazette_text_union citation_one citation_two
                  _ _ _ _ eq_refl eq_refl)).
Defined.

(** The merged list is not in the order of the numbers: the citations of
    the issues 9 and 10 of one year come out with the issue 10 first. *)
Lemma merge_gazette_text_not_numeric_order :
  ¬ ∀ old_text new_text g0 g1 h0 h1 : Py.str,
      GAZETTE_RE_search old_text = Some (g0, g1) →
      GAZETTE_RE_search new_text = Some (h0, h1) →
      ∀ i j x y, i < j →
        merged_refs g1 h1 !! i = Some x → merged_refs g1 h1 !! j = Some y →
        numeric_order x y.
Proof.
  intros H.
  assert (Ho : GAZETTE_RE_search (citation_of (Py.lit "9/2021")) =
               Some (gazette_prefix ++ Py.lit "9/2021)", Py.lit "9/2021"))
    by (vm_compute; reflexivity).
  assert (Hn : GAZETTE_RE_search (citation_of (Py.lit "10/2021")) =
               Some (gazette_prefix ++ Py.lit "10/2021)", Py.lit "10/2021"))
    by (vm_compute; reflexivity).
  assert (H0 : merged_refs (Py.lit "9/2021") (Py.lit "10/2021") !! 0 =
               Some (Py.lit "10/2021")) by (vm_compute; reflexivity).
  assert (H1 : merged_refs (Py.lit "9/2021") (Py.lit "10/2021") !! 1 =
               Some (Py.lit "9/2021")) by (vm_compute; reflexivity).
  specialize (H _ _ _ _ _ _ Ho Hn 0 1 _ _ ltac:(lia) H0 H1).
  vm_compute in H. destruct H as [H|[_ H]]; lia.
Qed.

(** The citations of issues in the merged text: the issue 10 before the
    issue 9. *)
Example merge_gazette_text_issue_order :
  merge_gazette_text (citation_of (Py.lit "9/2021")) (citation_of (Py.lit "10/2021")) =
    Py.lit "ZAKON ((" ++ gazette_prefix ++ Py.lit "10/2021 i 9/2021)".
Proof. vm_compute. reflexivity. Qed.

(** A token that is not the citation of an issue can come before one. *)
Example merged_refs_text_before_issue :
  merged_refs (Py.lit "44/2021") (Py.lit "- dr. zakon") =
    [Py.lit "- dr. zakon"; Py.lit "44/2021"].
Proof. vm_compute. reflexivity. Qed.

(** The replacement text opens with a parenthesis that the match does not
    contain, so the citation of [citation_one] gets a second one. *)
Example merge_gazette_text_citation :
  merge_gazette_text citation_one citation_two =
    Py.lit "ZAKON O RAČUNOVODSTVU ((" ++ gazette_prefix ++
    Py.lit "44/2021 i 95/2022)".
Proof. vm_compute. reflexivity. Qed.

(** The order of the texts is not the order of the numbers. *)
Example merged_refs_lexicographic :
  merged_refs (Py.lit "9 i 44/2021") (Py.lit "10 i 110/2021") =
    [Py.lit "10"; Py.lit "9"; Py.lit "110/2021"; Py.lit "44/2021"].
Proof. vm_compute. reflexivity. Qed.

Example merge_gazette_text_no_citation :
  merge_gazette_text citation_one (Py.lit "bez navoda") = citation_one.
Proof. vm_compute. reflexivity. Qed.
(** ** The comparison keys of the diff *)

Lemma replace_char_filter (s : Py.str) (c : Z) :
  Py.replace s [c] [] = filter (fun x => x ≠ c) s.
Proof.
  unfold Py.replace.
  assert (H : ∀ s, Py.replace_from [c] [] 0 s = filter (fun x => x ≠ c) s);
    [|apply H].
  clear s. induction s as [|x s IH]; [done|].
  cbn [Py.replace_from Py.startswith length Nat.sub app].
  assert (Hs : Py.startswith s [] = true) by (by destruct s).
  rewrite Hs, andb_true_r.
  destruct (Z.eqb_spec c x) as [->|Hne].
  - rewrite filter_cons_False by (by intros ?). apply IH.
  - rewrite filter_cons_True by congruence. f_equal. apply IH.
Qed.

Lemma lstrip_app_nonspace s c r :
  Py.isspace c = false → Py.lstrip (s ++ c :: r) = Py.lstrip s ++ c :: r
    ∨ (Py.lstrip s = [] ∧ Py.lstrip (s ++ c :: r) = c :: r).
Proof.
  intros Hc. induction s as [|x s IH]; simpl.
  - rewrite Hc. by left.
  - destruct (Py.isspace x); [done|by left].
Qed.

Lemma lstrip_app_nonspace_eq s c r :
  Py.isspace c = false → Py.lstrip (s ++ c :: r) = Py.lstrip s ++ c :: r.
Proof.
  intros Hc. destruct (lstrip_app_nonspace s c r Hc) as [H|[H1 H2]]; [done|].
  by rewrite H1, H2.
Qed.

Lemma rstrip_snoc_nonspace s c :
  Py.isspace c = false → Py.rstrip (s ++ [c]) = s ++ [c].
Proof.
  intros Hc. unfold Py.rstrip. rewrite rev_app_distr. simpl. rewrite Hc.
  simpl. by rewrite rev_involutive.
Qed.

Lemma lstrip_suffix s : ∃ pre, s = pre ++ Py.lstrip s.
Proof.
  induction s as [|x s [pre IH]]; simpl.
  - by exists [].
  - destruct (Py.isspace x); [|by exists []].
    exists (x :: pre). simpl. by f_equal.
Qed.

Lemma lstrip_length s : length (Py.lstrip s) ≤ length s.
Proof.
  destruct (lstrip_suffix s) as [pre H]. rewrite H at 2.
  rewrite length_app. lia.
Qed.

Lemma rstrip_fixed_lstrip s : Py.rstrip s = s → Py.rstrip (Py.lstrip s) = Py.lstrip s.
Proof.
  intros H. destruct (lstrip_suffix s) as [pre Hpre].
  destruct (Py.lstrip s) as [|x t] eqn:E; [done|].
  destruct (exists_last (l:=x :: t) ltac:(done)) as (u & c & Hu).
  rewrite Hu in *.
  destruct (Py.isspace c) eqn:Hc; [|by apply rstrip_snoc_nonspace].
  exfalso. rewrite Hpre in H. unfold Py.rstrip in H.
  assert (Hrev : rev (pre ++ u ++ [c]) = c :: rev (pre ++ u)).
  { by rewrite app_assoc, rev_app_distr. }
  rewrite Hrev in H. simpl in H. rewrite Hc in H.
  apply (f_equal (@length Z)) in H. rewrite length_rev in H.
  pose proof (lstrip_length (rev (pre ++ u))) as Hl.
  rewrite length_rev in Hl. rewrite !length_app in *. simpl in *. lia.
Qed.

Lemma filter_no_marker s : Py.star ∉ s → without_markers s = s.
Proof.
  intros H. unfold without_markers. induction s as [|x s IH]; [done|].
  rewrite not_elem_of_cons in H. destruct H as [Hx Hs].
  rewrite filter_cons_True by congruence. f_equal. by apply IH.
Qed.

Lemma without_markers_no_marker s : Py.star ∉ without_markers s.
Proof. unfold without_markers. rewrite list_elem_of_filter. by intros [? _]. Qed.

(** C9 (as amended): a paragraph of the original maps to its trimmed text
    and a paragraph of the new version to its trimmed text without markers,
    so a new paragraph compares equal to an old one exactly when its
    trimmed text without markers is the trimmed old text; this holds for an
    old text without markers and without trailing white space when markers
    are appended to it on the new side, and it holds for no new block when
    the trimmed old text contains a marker.  Every table on either side
    maps to the one sentinel, so two tables compare equal whatever they
    contain. *)
Theorem diff_keys (p q : ParagraphT) (t1 t2 : TableT) :
  orig_key (Paragraph p) = Py.strip (text p) ∧
  new_key (Paragraph q) = without_markers (Py.strip (text q)) ∧
  (new_key (Paragraph q) = orig_key (Paragraph p) ↔
     without_markers (Py.strip (text q)) = Py.strip (text p)) ∧
  (∀ (s : Py.str) (n : nat), Py.star ∉ s → Py.rstrip s = s →
     new_key (Paragraph (new_paragraph (s ++ replicate n Py.star))) =
     orig_key (Paragraph (new_paragraph s))) ∧
  (Py.star ∈ Py.strip (text p) → ∀ b, new_key b ≠ orig_key (Paragraph p)) ∧
  orig_key (Table t1) = TABLE ∧ new_key (Table t2) = TABLE ∧
  orig_key (Table t1) = new_key (Table t2).
Proof.
  assert (Hnew : ∀ r, new_key (Paragraph r) = without_markers (Py.strip (text r))).
  { intros r. simpl. apply replace_char_filter. }
  assert (Htext : ∀ s, text (new_paragraph s) = s).
  { intros [|c s]; [done|]. unfold text. simpl. by rewrite app_nil_r. }
  repeat split; try done.
  - by rewrite Hnew.
  - by rewrite Hnew.
  - intros s n Hs Hr. rewrite Hnew. simpl. rewrite !Htext.
    assert (Hstrip : Py.strip s = Py.lstrip s)
      by (by apply rstrip_fixed_lstrip).
    rewrite Hstrip.
    assert (Hl : Py.star ∉ Py.lstrip s).
    { destruct (lstrip_suffix s) as [pre Hpre]. intros Hin. apply Hs.
      rewrite Hpre. apply elem_of_app. by right. }
    destruct n as [|n].
    + simpl. rewrite app_nil_r. unfold Py.strip at 1. fold (Py.strip s).
      rewrite Hstrip. by apply filter_no_marker.
    + assert (Hstar : Py.isspace Py.star = false) by reflexivity.
      unfold Py.strip. simpl replicate.
      rewrite (lstrip_app_nonspace_eq s Py.star (replicate n Py.star) Hstar).
      change (Py.star :: replicate n Py.star) with (replicate (S n) Py.star).
      rewrite replicate_S_end, app_assoc.
      rewrite (rstrip_snoc_nonspace _ Py.star Hstar).
      rewrite <- app_assoc, <- replicate_S_end.
      unfold without_markers. rewrite filter_app.
      fold (without_markers (Py.lstrip s)). rewrite (filter_no_marker _ Hl).
      assert (Hrep : filter (fun c => c ≠ Py.star) (replicate (S n) Py.star) = []).
      { generalize (S n). intros m. induction m as [|m IH]; [done|].
        simpl. by rewrite filter_cons_False by (by intros ?). }
      rewrite Hrep. apply app_nil_r.
  - intros Hin b Heq. simpl in Heq. rewrite <- Heq in Hin.
    destruct b as [r|t].
    + rewrite Hnew in Hin. by apply without_markers_no_marker in Hin.
    + vm_compute in Hin. by repeat (inversion Hin as [|? ? ? Hin']; clear Hin; rename Hin' into Hin).
Qed.

(** A header that carries the marker on both sides differs from itself by
    no character at all, and its two keys are different. *)
Lemma marker_only_difference_unequal :
  ¬ ∀ p q : ParagraphT,
      differ_by_markers_only (text p) (text q) →
      orig_key (Paragraph p) = new_key (Paragraph q).
Proof.
  intros H.
  specialize (H (new_paragraph (Py.lit "Član 9*")) (new_paragraph (Py.lit "Član 9*"))
                eq_refl).
  vm_compute in H. discriminate H.
Qed.

(** A marker appended after trailing white space of the old text. *)
Example marker_after_space_unequal :
  differ_by_markers_only (Py.lit "Član 9 ") (Py.lit "Član 9 *") ∧
  orig_key (para "Član 9 ") = Py.lit "Član 9" ∧
  new_key (para "Član 9 *") = Py.lit "Član 9 ".
Proof. vm_compute. done. Qed.

Example marker_appended_equal :
  orig_key (para " Član 9") = new_key (para "Član 9* ").
Proof. vm_compute. reflexivity. Qed.

(** A paragraph that reads TABLE has the key of a table. *)
Example paragraph_with_sentinel_text :
  orig_key (para "TABLE") = new_key empty_table.
Proof. vm_compute. reflexivity. Qed.

(** ** [apply_amendment_text] *)

Lemma accepted_spec lines :
  accepted lines = true ↔
    2 ≤ length lines ∧ ∃ first rest, lines = first :: rest ∧ Py.star ∈ first.
Proof.
  assert (Hc : ∀ s : Py.str, Py.has_char Py.star s = true ↔ Py.star ∈ s).
  { intros s. unfold Py.has_char. rewrite existsb_exists. split.
    - intros (x & Hin & Hx). apply Z.eqb_eq in Hx as <-.
      by apply list_elem_of_In.
    - intros Hin. exists Py.star. split; [by apply list_elem_of_In|].
      apply Z.eqb_refl. }
  destruct lines as [|first rest]; simpl.
  - split; [done|]. intros [H _]. lia.
  - rewrite andb_true_iff, Hc. split.
    + intros [Hl Hs]. apply Nat.ltb_lt in Hl. split; [lia|]. by exists first, rest.
    + intros [Hl (f & r & [= <- <-] & Hs)]. split; [|done].
      apply Nat.ltb_lt. simpl in Hl. lia.
Qed.

(** *** The lines of a response *)

Lemma lstrip_blank l : Py.lstrip l = [] ↔ forallb Py.isspace l = true.
Proof.
  induction l as [|c l IH]; simpl; [done|].
  destruct (Py.isspace c); simpl; [done|]. split; done.
Qed.

Lemma lstrip_head l c r : Py.lstrip l = c :: r → Py.isspace c = false.
Proof.
  induction l as [|x l IH]; simpl; [done|].
  destruct (Py.isspace x) eqn:E; [done|]. by intros [= <- _].
Qed.

Lemma lstrip_fixed c r : Py.isspace c = false → Py.lstrip (c :: r) = c :: r.
Proof. intros Hc. simpl. by rewrite Hc. Qed.

(** A trimmed text is empty exactly when the text is white space only;
    otherwise it neither starts nor ends with white space. *)
Lemma strip_blank l : Py.truthy (Py.strip l) = negb (forallb Py.isspace l).
Proof.
  unfold Py.strip. destruct (Py.lstrip l) as [|c r] eqn:E.
  - apply lstrip_blank in E. by rewrite E.
  - pose proof (lstrip_head _ _ _ E) as Hc.
    destruct (forallb Py.isspace l) eqn:Ef.
    { apply lstrip_blank in Ef. congruence. }
    unfold Py.rstrip. cbn [rev].
    rewrite (lstrip_app_nonspace_eq (rev r) c [] Hc), rev_app_distr. done.
Qed.

Lemma strip_ends l :
  (∀ c, head (Py.strip l) = Some c → Py.isspace c = false) ∧
  (∀ c, last (Py.strip l) = Some c → Py.isspace c = false).
Proof.
  unfold Py.strip. split; intros c Hc.
  - destruct (Py.lstrip l) as [|x r] eqn:E; [done|].
    pose proof (lstrip_head _ _ _ E) as Hx.
    unfold Py.rstrip in Hc. cbn [rev] in Hc.
    rewrite (lstrip_app_nonspace_eq (rev r) x [] Hx), rev_app_distr in Hc.
    simpl in Hc. by injection Hc as <-.
  - unfold Py.rstrip in Hc.
    destruct (Py.lstrip (rev (Py.lstrip l))) as [|x r] eqn:E; [done|].
    cbn [rev] in Hc. rewrite last_snoc in Hc. injection Hc as <-.
    by eapply lstrip_head.
Qed.

Lemma strip_space_cons c l : Py.isspace c = true → Py.strip (c :: l) = Py.strip l.
Proof. intros Hc. unfold Py.strip. simpl. by rewrite Hc. Qed.

Lemma strip_space_snoc c l : Py.isspace c = true → Py.strip (l ++ [c]) = Py.strip l.
Proof.
  intros Hc. unfold Py.strip.
  destruct (Py.lstrip l) as [|x r] eqn:E.
  - assert (E' : Py.lstrip (l ++ [c]) = []).
    { apply lstrip_blank. rewrite forallb_app. apply lstrip_blank in E.
      rewrite E. simpl. by rewrite Hc. }
    by rewrite E'.
  - assert (E' : Py.lstrip (l ++ [c]) = (x :: r) ++ [c]).
    { clear -E. induction l as [|y l IH]; [done|]. simpl in *.
      destruct (Py.isspace y); [by apply IH|]. by injection E as -> ->. }
    rewrite E'. unfold Py.rstrip. rewrite rev_app_distr. simpl. by rewrite Hc.
Qed.

Section ResponseLines.

(** The lines that are kept of the lines of a text. *)
Local Abbreviation kept ls :=
  (filter (λ l, Py.truthy l = true) (map Py.strip ls)).

Lemma kept_cons l ls :
  kept (l :: ls) = (if Py.truthy (Py.strip l) then [Py.strip l] else []) ++ kept ls.
Proof.
  cbn [map]. destruct (Py.truthy (Py.strip l)) eqn:E.
  - by rewrite filter_cons_True.
  - rewrite filter_cons_False; [done|]. by rewrite E.
Qed.

(** The line that is open when the scan starts is put before the first
    line of the rest. *)
Lemma splitlines_from_open : ∀ n s cur, length s ≤ n →
  Py.splitlines_from cur s =
    match Py.splitlines_from [] s with
    | [] => match cur with [] => [] | _ => [rev cur] end
    | l :: ls => (rev cur ++ l) :: ls
    end.
Proof.
  induction n as [|n IH]; intros s cur Hn.
  { destruct s; [|simpl in Hn; lia]. simpl. by destruct cur. }
  destruct s as [|c r]; [simpl; by destruct cur|].
  simpl in Hn. cbn [Py.splitlines_from].
  destruct (Py.is_linebreak c); [cbn [rev]; by rewrite app_nil_r|].
  rewrite (IH r (c :: cur)) by lia. rewrite (IH r [c]) by lia.
  destruct (Py.splitlines_from [] r) as [|l ls]; cbn [rev app].
  - done.
  - by rewrite <- app_assoc.
Qed.

Lemma kept_space_cons c s :
  Py.isspace c = true →
  kept (Py.splitlines (c :: s)) = kept (Py.splitlines s).
Proof.
  intros Hc. unfold Py.splitlines. cbn [Py.splitlines_from].
  destruct (Py.is_linebreak c) eqn:Hl.
  - rewrite kept_cons. cbn [rev]. change (Py.strip []) with (@nil Z). simpl app.
    destruct s as [|c' r']; [done|].
    destruct ((c =? 13)%Z && (c' =? 10)%Z) eqn:E; [|done].
    apply andb_true_iff in E as [_ ->%Z.eqb_eq].
    cbn [Py.splitlines_from]. change (Py.is_linebreak 10) with true.
    cbn [rev]. rewrite kept_cons. change (Py.strip []) with (@nil Z). simpl app.
    destruct r' as [|c'' r'']; [done|].
    by change ((10 =? 13)%Z && (c'' =? 10)%Z) with false.
  - rewrite (splitlines_from_open (length s) s [c]) by lia.
    destruct (Py.splitlines_from [] s) as [|l ls].
    + cbn [rev app]. rewrite kept_cons.
      rewrite (strip_space_cons c [] Hc). done.
    + cbn [rev app]. rewrite !kept_cons. by rewrite (strip_space_cons c l Hc).
Qed.

Lemma kept_lstrip s :
  kept (Py.splitlines (Py.lstrip s)) = kept (Py.splitlines s).
Proof.
  induction s as [|c s IH]; [done|]. simpl.
  destruct (Py.isspace c) eqn:Hc; [|done].
  by rewrite IH, kept_space_cons.
Qed.

Lemma kept_space_snoc c : ∀ n s cur, length s ≤ n →
  Py.isspace c = true →
  kept (Py.splitlines_from cur (s ++ [c])) = kept (Py.splitlines_from cur s).
Proof.
  induction n as [|n IH]; intros s cur Hn Hc.
  - destruct s; [|simpl in Hn; lia]. cbn [app Py.splitlines_from].
    destruct (Py.is_linebreak c).
    + destruct cur as [|x cur]; [done|]. done.
    + destruct cur as [|x cur].
      * cbn [rev app]. rewrite kept_cons, (strip_space_cons c [] Hc). done.
      * rewrite !kept_cons. cbn [rev].
        by rewrite (strip_space_snoc c _ Hc).
  - destruct s as [|x r].
    { apply (IH [] cur); [simpl; lia|done]. }
    simpl in Hn. cbn [app Py.splitlines_from].
    destruct (Py.is_linebreak x) eqn:Hx.
    + rewrite !kept_cons. f_equal.
      destruct r as [|c' r']; cbn [app].
      * destruct ((x =? 13)%Z && (c =? 10)%Z); [done|].
        apply (IH [] []); [simpl; lia|done].
      * destruct ((x =? 13)%Z && (c' =? 10)%Z).
        -- apply (IH r' []); [simpl in Hn; lia|done].
        -- apply (IH (c' :: r') []); [simpl in *; lia|done].
    + apply IH; [lia|done].
Qed.

Lemma kept_rstrip s :
  kept (Py.splitlines (Py.rstrip s)) = kept (Py.splitlines s).
Proof.
  unfold Py.rstrip. rewrite <- (rev_involutive s) at 2.
  induction (rev s) as [|c t IH]; [done|]. simpl.
  destruct (Py.isspace c) eqn:Hc; [|done].
  rewrite IH. unfold Py.splitlines.
  by rewrite (kept_space_snoc c (length (rev t)) (rev t) [] ltac:(lia) Hc).
Qed.

(** The lines of a response: the lines of the content that are not white
    space only, each trimmed.  Trimming the content first changes
    nothing. *)
Lemma response_lines_spec content :
  response_lines content =
    map Py.strip (filter (λ l, forallb Py.isspace l = false) (Py.splitlines content)).
Proof.
  unfold response_lines, Py.strip at 2. rewrite kept_rstrip, kept_lstrip.
  induction (Py.splitlines content) as [|l ls IH]; [done|].
  rewrite kept_cons, IH, strip_blank.
  destruct (forallb Py.isspace l) eqn:E; simpl.
  - by rewrite filter_cons_False by (by rewrite E).
  - by rewrite filter_cons_True.
Qed.

Lemma response_lines_trimmed content l :
  l ∈ response_lines content →
  l ≠ [] ∧
  (∀ c, head l = Some c → Py.isspace c = false) ∧
  (∀ c, last l = Some c → Py.isspace c = false).
Proof.
  unfold response_lines. rewrite list_elem_of_filter, list_elem_of_fmap.
  intros [Ht (l0 & -> & _)]. split; [by destruct (Py.strip l0)|]. apply strip_ends.
Qed.

End ResponseLines.

Section ApplierProperties.
Context {Service : Type}.
Variable create : Service → Py.str → option Py.str * Service.
Variable prompt_head : Py.str.

(** C4: the lines of a response are the lines of its content that are
    not white space only, each trimmed, so every one is non-empty and
    neither starts nor ends with white space.  A response is accepted
    exactly when these lines are at least two and the first contains the
    marker, and then these lines are returned; a call that raises counts
    as a failure.  After a rejected response or a service error the same
    call is made again under the same criterion, at most three calls in
    all; when the three calls fail the result is the old text split into
    lines, and the function returns in every case. *)
Theorem apply_amendment_text_attempts (old_text instruction : Py.str) (svc : Service) :
  let p := prompt prompt_head old_text instruction in
  let c1 := create svc p in
  let c2 := create c1.2 p in
  let c3 := create c2.2 p in
  (∀ content,
     response_lines content =
       map Py.strip
         (filter (λ l, forallb Py.isspace l = false) (Py.splitlines content))) ∧
  (∀ content l, l ∈ response_lines content →
     l ≠ [] ∧
     (∀ c, head l = Some c → Py.isspace c = false) ∧
     (∀ c, last l = Some c → Py.isspace c = false)) ∧
  (∀ lines, accepted lines = true ↔
     2 ≤ length lines ∧ ∃ first rest, lines = first :: rest ∧ Py.star ∈ first) ∧
  (∀ response lines,
     validated response = inl lines ↔
       ∃ content, response = Some content ∧ lines = response_lines content ∧
                  accepted lines = true) ∧
  (∀ response, validated response = inr ServiceError ↔ response = None) ∧
  apply_amendment_text create prompt_head old_text instruction svc =
    match validated c1.1, validated c2.1, validated c3.1 with
    | inl lines, _, _ => (lines, c1.2, [LogSuccess])
    | inr e1, inl lines, _ => (lines, c2.2, [LogAttempt 1 e1; LogSuccess])
    | inr e1, inr e2, inl lines =>
      (lines, c3.2, [LogAttempt 1 e1; LogAttempt 2 e2; LogSuccess])
    | inr e1, inr e2, inr e3 =>
      (Py.splitlines old_text, c3.2,
       [LogAttempt 1 e1; LogAttempt 2 e2; LogAttempt 3 e3; LogFallingBack])
    end.
Proof.
  intros p c1 c2 c3.
  split; [apply response_lines_spec|].
  split; [apply response_lines_trimmed|].
  split; [apply accepted_spec|].
  split.
  { intros [content|] lines; unfold validated.
    - destruct (accepted (response_lines content)) eqn:E; split.
      + intros [= <-]. by exists content.
      + by intros (? & [= <-] & -> & _).
      + done.
      + intros (? & [= <-] & -> & E'). congruence.
    - split; [done|]. by intros (? & ? & _). }
  split.
  { intros [content|]; unfold validated; [|done].
    by destruct (accepted (response_lines content)). }
  unfold apply_amendment_text. fold p. simpl.
  subst c3 c2 c1.
  destruct (create svc p) as [[r1|] s1]; simpl.
  1: destruct (accepted (response_lines r1)); [done|].
  all: destruct (create s1 p) as [[r2|] s2]; simpl.
  1,3: destruct (accepted (response_lines r2)); [done|].
  all: destruct (create s2 p) as [[r3|] s3]; simpl.
  all: try destruct (accepted (response_lines r3)); done.
Qed.

End ApplierProperties.

(** When the service fails at every call, the old text is returned line by
    line after exactly three calls. *)
Example apply_amendment_text_fallback :
  apply_amendment_text failing_service []
    (Py.lit "Član 1" ++ [newline] ++ Py.lit "text A" ++ [newline] ++ Py.lit "text B")
    (Py.lit "člana 1. stav 2. Zakona o računovodstvu prestaju da važe") 0 =
  ([Py.lit "Član 1"; Py.lit "text A"; Py.lit "text B"], 3,
   [LogAttempt 1 ServiceError; LogAttempt 2 ServiceError;
    LogAttempt 3 ServiceError; LogFallingBack]).
Proof. vm_compute. reflexivity. Qed.

(** A response of two lines without the marker is rejected three times. *)
Example apply_amendment_text_rejects_unmarked :
  apply_amendment_text
    (constant_service (Py.lit "Član 1" ++ [newline] ++ Py.lit "text A")) []
    (Py.lit "Član 1" ++ [newline] ++ Py.lit "text A" ++ [newline] ++ Py.lit "text B")
    [] 0 =
  ([Py.lit "Član 1"; Py.lit "text A"; Py.lit "text B"], 3,
   [LogAttempt 1 InvalidOutput; LogAttempt 2 InvalidOutput;
    LogAttempt 3 InvalidOutput; LogFallingBack]).
Proof. vm_compute. reflexivity. Qed.

Example apply_amendment_text_accepts :
  apply_amendment_text
    (constant_service (Py.lit "  Član 1*" ++ [newline; newline] ++ Py.lit " text A "))
    [] (Py.lit "Član 1") [] 0 =
  ([Py.lit "Član 1*"; Py.lit "text A"], 1, [LogSuccess]).
Proof. vm_compute. reflexivity. Qed.

(** A response with one line that is not blank is rejected, marker or
    not: the blank lines do not count. *)
Example apply_amendment_text_rejects_one_line :
  apply_amendment_text
    (constant_service (Py.lit "Član 1*" ++ [newline; newline] ++ Py.lit " ")) []
    (Py.lit "Član 1" ++ [newline] ++ Py.lit "text A")
    [] 0 =
  ([Py.lit "Član 1"; Py.lit "text A"], 3,
   [LogAttempt 1 InvalidOutput; LogAttempt 2 InvalidOutput;
    LogAttempt 3 InvalidOutput; LogFallingBack]).
Proof. vm_compute. reflexivity. Qed.

(** The lines of a response whose content has blank lines and white space
    around its lines. *)
Example response_lines_example :
  response_lines
    ([newline] ++ Py.lit "  Član 1* " ++ [newline; 13%Z; newline] ++ Py.lit "a b  " ++
     [newline] ++ Py.lit "   " ++ [newline]) =
  [Py.lit "Član 1*"; Py.lit "a b"].
Proof. vm_compute. reflexivity. Qed.
(** ** The diff engine: bounds of [find_longest_match] *)

Section SequenceMatcherProperties.
Context {K : Type} `{Countable K}.
Implicit Types (a b : list K) (b2j : gmap K (list nat)).

Lemma j2lenget_prev_within alo blo bhi i j2len j :
  j2len_within alo blo bhi i j2len → blo ≤ j →
  j2lenget_prev j2len j ≤ j - blo ∧ j2lenget_prev j2len j ≤ i - alo.
Proof.
  intros Hw Hj. destruct j as [|j']; simpl; [lia|].
  destruct (j2len !! j') as [k|] eqn:E; simpl; [|lia].
  apply Hw in E. lia.
Qed.

Lemma inner_loop_within alo blo bhi i j2len js : ∀ newj2len best,
  alo ≤ i →
  j2len_within alo blo bhi i j2len →
  j2len_within alo blo bhi (S i) newj2len →
  best_within alo blo bhi (S i) best →
  let r := inner_loop i blo bhi j2len js newj2len best in
  j2len_within alo blo bhi (S i) r.1 ∧ best_within alo blo bhi (S i) r.2.
Proof.
  induction js as [|j js IH]; intros newj2len best Hi Hold Hnew Hbest; simpl.
  - done.
  - destruct (Nat.ltb_spec j blo); [by apply IH|].
    destruct (Nat.leb_spec bhi j); [done|].
    destruct (j2lenget_prev_within alo blo bhi i j2len j Hold ltac:(lia))
      as [Hp1 Hp2].
    apply IH; [done|done| |].
    + intros j0 k0 Hl. destruct (decide (j = j0)) as [<-|Hne].
      * rewrite lookup_insert_eq in Hl. injection Hl as <-. lia.
      * rewrite lookup_insert_ne in Hl by done. by apply Hnew.
    + destruct best as [[bi bj] bs]. simpl.
      destruct (Nat.ltb_spec bs (j2lenget_prev j2len j + 1)); [|done].
      simpl. lia.
Qed.

Lemma best_within_mono alo blo bhi i i' best :
  i ≤ i' → best_within alo blo bhi i best → best_within alo blo bhi i' best.
Proof. destruct best as [[bi bj] bs]. simpl. lia. Qed.

Lemma outer_loop_within a b2j alo blo bhi n : ∀ i j2len best,
  alo ≤ i →
  j2len_within alo blo bhi i j2len →
  best_within alo blo bhi i best →
  best_within alo blo bhi (i + n)
    (outer_loop a b2j blo bhi (seq i n) j2len best).
Proof.
  induction n as [|n IH]; intros i j2len best Hi Hj Hb; simpl.
  - by rewrite Nat.add_0_r.
  - destruct (inner_loop i blo bhi j2len (b2j_get a b2j i) ∅ best)
      as [newj2len best'] eqn:E.
    pose proof (inner_loop_within alo blo bhi i j2len (b2j_get a b2j i) ∅ best
                  Hi Hj) as Hin.
    rewrite E in Hin. simpl in Hin.
    destruct Hin as [Hn' Hb'].
    { intros j k Hl. by rewrite lookup_empty in Hl. }
    { eapply best_within_mono; [|done]. lia. }
    replace (i + S n) with (S i + n) by lia.
    apply IH; [lia|done|done].
Qed.

Lemma extend_back_within a b junk alo blo ahi bhi : ∀ besti bestj bestsize,
  best_within alo blo bhi ahi (besti, bestj, bestsize) →
  best_within alo blo bhi ahi (extend_back a b junk alo blo besti bestj bestsize).
Proof.
  induction besti as [|i' IH]; intros bestj bestsize Hb; simpl; [done|].
  destruct bestj as [|j']; [done|].
  destruct (_ && _) eqn:E; [|done].
  apply andb_true_iff in E as [E _]. apply andb_true_iff in E as [E1 E2].
  apply Nat.ltb_lt in E1, E2. apply IH. simpl in *. lia.
Qed.

Lemma extend_forward_within a b junk alo blo ahi bhi besti bestj : ∀ room bestsize,
  best_within alo blo bhi ahi (besti, bestj, bestsize) →
  best_within alo blo bhi ahi
    (besti, bestj, extend_forward a b junk ahi bhi besti bestj room bestsize).
Proof.
  induction room as [|room IH]; intros bestsize Hb; simpl; [done|].
  destruct (_ && _) eqn:E; [|done].
  apply andb_true_iff in E as [E _]. apply andb_true_iff in E as [E1 E2].
  apply Nat.ltb_lt in E1, E2. apply IH. simpl in *. lia.
Qed.

(** The block returned by [find_longest_match] lies in the region. *)
Lemma find_longest_match_within a b b2j alo ahi blo bhi :
  alo ≤ ahi → blo ≤ bhi →
  best_within alo blo bhi ahi (find_longest_match a b b2j alo ahi blo bhi).
Proof.
  intros Ha Hb. unfold find_longest_match.
  pose proof (outer_loop_within a b2j alo blo bhi (ahi - alo) alo ∅ (alo, blo, 0))
    as H0.
  replace (alo + (ahi - alo)) with ahi in H0 by lia.
  destruct (outer_loop _ _ _ _ _ _ _) as [[i0 j0] k0].
  assert (H0' : best_within alo blo bhi ahi (i0, j0, k0)).
  { apply H0; [lia| |simpl; lia].
    intros j k Hl. by rewrite lookup_empty in Hl. }
  pose proof (extend_back_within a b false alo blo ahi bhi i0 j0 k0 H0') as H1.
  destruct (extend_back a b false alo blo i0 j0 k0) as [[i1 j1] k1].
  pose proof (extend_forward_within a b false alo blo ahi bhi i1 j1
                (ahi - (i1 + k1)) k1 H1) as H2.
  set (k2 := extend_forward a b false ahi bhi i1 j1 (ahi - (i1 + k1)) k1) in *.
  pose proof (extend_back_within a b true alo blo ahi bhi i1 j1 k2 H2) as H3.
  destruct (extend_back a b true alo blo i1 j1 k2) as [[i3 j3] k3].
  apply (extend_forward_within a b true alo blo ahi bhi i3 j3). done.
Qed.

End SequenceMatcherProperties.
(** ** The diff engine: the queue loop *)

Lemma pairwise_app {A} (R : A → A → Prop) (l1 l2 : list A) :
  pairwise R (l1 ++ l2) ↔
    pairwise R l1 ∧ pairwise R l2 ∧ ∀ x y, x ∈ l1 → y ∈ l2 → R x y.
Proof.
  induction l1 as [|a l1 IH]; simpl.
  - split; [intros ?; repeat split; [done|]; intros x y Hx; inversion Hx|tauto].
  - rewrite Forall_app, IH. split.
    + intros [[H1 H2] (H3 & H4 & H5)]. repeat split; try done.
      intros x y Hx Hy. apply elem_of_cons in Hx as [->|Hx]; [|by apply H5].
      rewrite Forall_forall in H2. by apply H2.
    + intros ([H1 H2] & H3 & H4). repeat split; try done.
      * apply Forall_forall. intros y Hy. apply H4; [left|done].
      * intros x y Hx Hy. apply H4; [by right|done].
Qed.

Lemma pairwise_Permutation {A} (R : A → A → Prop) (l1 l2 : list A) :
  (∀ x y, R x y → R y x) → l1 ≡ₚ l2 → pairwise R l1 → pairwise R l2.
Proof.
  intros Hsym Hp. induction Hp as [|x l l' Hp IH|x y l|l l' l'' H1 IH1 H2 IH2];
    simpl; try tauto.
  - intros [H1 H2]. split; [by rewrite <- Hp|by apply IH].
  - intros [H1 [H2 H3]]. apply Forall_cons in H1 as [H1 H1'].
    repeat split; try done. constructor; [by apply Hsym|done].
Qed.

Lemma apart_sym x y : apart x y → apart y x.
Proof. unfold apart. tauto. Qed.

Lemma apart_inside x y z : box_inside x y → apart y z → apart x z.
Proof.
  destruct x as [[[a1 a2] a3] a4], y as [[[b1 b2] b3] b4],
    z as [[[c1 c2] c3] c4]. unfold apart. simpl. lia.
Qed.

Section MatchingLoop.
Context {K : Type} `{Countable K}.
Variables (a b : list K) (b2j : gmap K (list nat)) (la lb : nat).

(** The queue loop ends within its fuel, with blocks that are pairwise
    apart. *)
Lemma matching_loop_spec : ∀ fuel queue acc,
  weight queue ≤ fuel →
  Forall (box_ok la lb) queue →
  Forall (block_ok la lb) acc →
  pairwise apart (queue ++ map box_of acc) →
  ∃ res, matching_loop a b b2j fuel queue acc = Some res ∧
         Forall (block_ok la lb) res ∧ pairwise apart (map box_of res).
Proof.
  induction fuel as [|fuel IH]; intros queue acc Hw Hq Hacc Hpw.
  - destruct queue as [|[[[alo ahi] blo] bhi] q]; [|simpl in Hw; lia].
    exists acc. by repeat split.
  - destruct queue as [|[[[alo ahi] blo] bhi] q].
    { exists acc. by repeat split. }
    simpl in Hw. apply Forall_cons in Hq as [[Hwf Hin] Hq].
    simpl in Hwf, Hin.
    cbn [matching_loop].
    pose proof (find_longest_match_within a b b2j alo ahi blo bhi
                  ltac:(lia) ltac:(lia)) as Hm.
    destruct (find_longest_match a b b2j alo ahi blo bhi) as [[i j] k].
    simpl in Hm.
    simpl in Hpw. destruct Hpw as [HB Hrest].
    destruct (Nat.eqb_spec k 0) as [->|Hk].
    { apply IH; [lia|done|done|done]. }
    set (news := (if (i + k <? ahi) && (j + k <? bhi)
                  then [(i + k, ahi, j + k, bhi)] else []) ++
                 (if (alo <? i) && (blo <? j) then [(alo, i, blo, j)] else [])).
    assert (Hq2 : (if (i + k <? ahi) && (j + k <? bhi)
                   then (i + k, ahi, j + k, bhi) ::
                        (if (alo <? i) && (blo <? j)
                         then (alo, i, blo, j) :: q else q)
                   else (if (alo <? i) && (blo <? j)
                         then (alo, i, blo, j) :: q else q)) = news ++ q).
    { unfold news. by destruct (_ && _), (_ && _). }
    rewrite Hq2.
    assert (Hnews : ∀ x, x ∈ news →
              box_ok la lb x ∧ box_inside x (alo, ahi, blo, bhi) ∧
              apart x (box_of (i, j, k)) ∧
              (x = (alo, i, blo, j) ∨ x = (i + k, ahi, j + k, bhi))).
    { intros x Hx. unfold news in Hx. apply elem_of_app in Hx as [Hx|Hx].
      - destruct (_ && _) eqn:E in Hx; [|inversion Hx].
        apply list_elem_of_singleton in Hx as ->.
        apply andb_true_iff in E as [E1 E2]. apply Nat.ltb_lt in E1, E2.
        unfold box_ok, apart. simpl. repeat split; try lia. by right.
      - destruct (_ && _) eqn:E in Hx; [|inversion Hx].
        apply list_elem_of_singleton in Hx as ->.
        apply andb_true_iff in E as [E1 E2]. apply Nat.ltb_lt in E1, E2.
        unfold box_ok, apart. simpl. repeat split; try lia. by left. }
    apply IH.
    + assert (weight (news ++ q) ≤ 2 * (ahi - alo - k) + 2 + weight q); [|lia].
      unfold news.
      destruct (Nat.ltb_spec (i + k) ahi), (Nat.ltb_spec (j + k) bhi),
        (Nat.ltb_spec alo i), (Nat.ltb_spec blo j); simpl; lia.
    + apply Forall_app. split; [|done].
      apply Forall_forall. intros x Hx. by apply Hnews.
    + apply Forall_app. split; [done|]. constructor; [|done]. simpl. lia.
    + rewrite map_app. simpl.
      assert (HM : box_inside (box_of (i, j, k)) (alo, ahi, blo, bhi))
        by (simpl; lia).
      eapply (pairwise_Permutation apart
                ((news ++ [box_of (i, j, k)]) ++ (q ++ map box_of acc)));
        [apply apart_sym| |].
      { rewrite <- !app_assoc. apply Permutation_app_head.
        rewrite (Permutation_app_comm [box_of (i, j, k)]).
        by rewrite <- app_assoc. }
      apply pairwise_app. repeat split; [|done|].
      * apply pairwise_app. repeat split.
        -- unfold news.
           destruct (Nat.ltb_spec (i + k) ahi), (Nat.ltb_spec (j + k) bhi),
             (Nat.ltb_spec alo i), (Nat.ltb_spec blo j); simpl;
             repeat split; try done.
           all: repeat constructor; unfold apart; simpl; lia.
        -- simpl. done.
        -- intros x y Hx Hy. apply list_elem_of_singleton in Hy as ->.
           by apply Hnews.
      * intros x y Hx Hy. rewrite Forall_forall in HB.
        apply elem_of_app in Hx as [Hx|Hx].
        -- apply (apart_inside x (alo, ahi, blo, bhi)); [by apply Hnews|].
           by apply HB.
        -- apply list_elem_of_singleton in Hx as ->.
           apply (apart_inside _ (alo, ahi, blo, bhi)); [done|by apply HB].
Qed.

End MatchingLoop.
(** ** The diff engine: sorting and collapsing *)

Global Instance match_le_total : Total match_le.
Proof.
  intros [[i1 j1] k1] [[i2 j2] k2]. unfold match_le, match_leb.
  destruct (Nat.ltb_spec i1 i2), (Nat.ltb_spec i2 i1), (Nat.eqb_spec i1 i2),
    (Nat.eqb_spec i2 i1), (Nat.ltb_spec j1 j2), (Nat.ltb_spec j2 j1),
    (Nat.eqb_spec j1 j2), (Nat.eqb_spec j2 j1), (Nat.leb_spec k1 k2),
    (Nat.leb_spec k2 k1); simpl; auto; lia.
Qed.

Global Instance match_le_trans : Transitive match_le.
Proof.
  intros [[i1 j1] k1] [[i2 j2] k2] [[i3 j3] k3]. unfold match_le, match_leb.
  rewrite !orb_true_iff, !andb_true_iff, !orb_true_iff, !andb_true_iff,
    !Nat.ltb_lt, !Nat.eqb_eq, !Nat.leb_le. lia.
Qed.

Lemma match_le_first x y : match_le x y → x.1.1 ≤ y.1.1.
Proof.
  destruct x as [[i1 j1] k1], y as [[i2 j2] k2]. unfold match_le, match_leb.
  rewrite !orb_true_iff, !andb_true_iff, !Nat.ltb_lt, !Nat.eqb_eq. simpl. lia.
Qed.

(** Sorted blocks that are pairwise apart follow one another. *)
Lemma sorted_apart_before la lb (l : list Match) :
  StronglySorted match_le l → Forall (block_ok la lb) l →
  pairwise apart (map box_of l) → StronglySorted block_before l.
Proof.
  induction 1 as [|x l Hs IH Hall]; intros Hok Hpw; [constructor|].
  apply Forall_cons in Hok as [Hx Hok]. simpl in Hpw. destruct Hpw as [Hxa Hpw].
  constructor; [by apply IH|].
  apply Forall_forall. intros y Hy.
  rewrite Forall_forall in Hall. specialize (Hall y Hy).
  apply match_le_first in Hall.
  rewrite Forall_forall in Hok. specialize (Hok y Hy).
  assert (Ha : apart (box_of x) (box_of y)).
  { rewrite Forall_forall in Hxa. apply Hxa. by apply list_elem_of_fmap_2. }
  destruct x as [[i1 j1] k1], y as [[i2 j2] k2].
  clear IH Hxa Hpw Hs Hy.
  unfold block_before, apart, box_before, box_of, block_ok in *. simpl in *. lia.
Qed.

Lemma mono_weaken i j i' j' blocks :
  i ≤ i' → j ≤ j' → mono i' j' blocks → mono i j blocks.
Proof.
  destruct blocks as [|[[ai bj] size] r]; simpl; [done|].
  intros ? ? (? & ? & ?). repeat split; [lia|lia|done].
Qed.

Lemma mono_app i j l1 l2 :
  mono i j (l1 ++ l2) ↔ mono i j l1 ∧ mono (ends i j l1).1 (ends i j l1).2 l2.
Proof.
  revert i j; induction l1 as [|[[ai bj] size] l1 IH]; intros i j; simpl.
  - tauto.
  - rewrite IH. tauto.
Qed.

Lemma ends_app i j l1 l2 :
  ends i j (l1 ++ l2) = ends (ends i j l1).1 (ends i j l1).2 l2.
Proof.
  revert i j; induction l1 as [|[[ai bj] size] l1 IH]; intros i j; simpl;
    [done|apply IH].
Qed.

Lemma before_mono la lb (l : list Match) :
  StronglySorted block_before l → Forall (block_ok la lb) l →
  ∀ i j, (∀ x, x ∈ l → i ≤ x.1.1 ∧ j ≤ x.1.2) → i ≤ la → j ≤ lb →
  mono i j (l ++ [(la, lb, 0)]).
Proof.
  induction 1 as [|[[ai bj] size] l Hs IH Hall]; intros Hok i j Hij Hi Hj; simpl.
  - lia.
  - apply Forall_cons in Hok as [Hx Hok]. simpl in Hx.
    destruct (Hij (ai, bj, size) ltac:(left)) as [H1 H2]. simpl in H1, H2.
    repeat split; [done|done|].
    apply IH; [done| |lia|lia].
    intros [[i2 j2] k2] Hy. rewrite Forall_forall in Hall.
    specialize (Hall _ Hy). unfold block_before in Hall. simpl in *. lia.
Qed.

Lemma collapse_mono t tail : ∀ blocks i1 j1 k1 acc i0 j0,
  mono i0 j0 (acc ++ (i1, j1, k1) :: blocks ++ t :: tail) →
  mono i0 j0 (collapse i1 j1 k1 blocks acc ++ t :: tail) ∧
  ends i0 j0 (collapse i1 j1 k1 blocks acc ++ t :: tail) =
    ends i0 j0 (acc ++ (i1, j1, k1) :: blocks ++ t :: tail).
Proof.
  assert (Hdrop : ∀ acc i1 j1 r rest i0 j0,
            mono i0 j0 (acc ++ (i1, j1, 0) :: r :: rest) →
            mono i0 j0 (acc ++ r :: rest) ∧
            ends i0 j0 (acc ++ r :: rest) =
              ends i0 j0 (acc ++ (i1, j1, 0) :: r :: rest)).
  { intros acc i1 j1 [[i2 j2] k2] rest i0 j0.
    rewrite !mono_app, !ends_app. simpl.
    rewrite !Nat.add_0_r. intros (Ha & Hi & Hj & Hi' & Hj' & Hr).
    split; [|done]. split; [done|]. repeat split; [lia|lia|done]. }
  induction blocks as [|[[i2 j2] k2] rest IH]; intros i1 j1 k1 acc i0 j0 Hm.
  - simpl in *. destruct (Nat.eqb_spec k1 0) as [->|Hk].
    + by apply Hdrop.
    + by rewrite <- app_assoc.
  - cbn [collapse].
    destruct (Nat.eqb_spec (i1 + k1) i2) as [Ei|Ei];
      [destruct (Nat.eqb_spec (j1 + k1) j2) as [Ej|Ej]|]; simpl andb; cbv iota.
    + subst i2 j2.
      destruct (IH i1 j1 (k1 + k2) acc i0 j0) as [Hm' He'].
      { revert Hm. rewrite !mono_app. simpl. rewrite !Nat.add_assoc. tauto. }
      split; [done|]. rewrite He', !ends_app. simpl. by rewrite !Nat.add_assoc.
    + destruct (Nat.eqb_spec k1 0) as [->|Hk].
      * destruct (Hdrop acc i1 j1 (i2, j2, k2) (rest ++ t :: tail) i0 j0 Hm)
          as [Hm1 He1].
        destruct (IH i2 j2 k2 acc i0 j0 Hm1) as [Hm' He']. split; [done|].
        by rewrite He', He1.
      * replace (acc ++ (i1, j1, k1) :: ((i2, j2, k2) :: rest) ++ t :: tail)
          with ((acc ++ [(i1, j1, k1)]) ++ (i2, j2, k2) :: rest ++ t :: tail)
          in * by (by rewrite <- app_assoc).
        by apply IH.
    + destruct (Nat.eqb_spec k1 0) as [->|Hk].
      * destruct (Hdrop acc i1 j1 (i2, j2, k2) (rest ++ t :: tail) i0 j0 Hm)
          as [Hm1 He1].
        destruct (IH i2 j2 k2 acc i0 j0 Hm1) as [Hm' He']. split; [done|].
        by rewrite He', He1.
      * replace (acc ++ (i1, j1, k1) :: ((i2, j2, k2) :: rest) ++ t :: tail)
          with ((acc ++ [(i1, j1, k1)]) ++ (i2, j2, k2) :: rest ++ t :: tail)
          in * by (by rewrite <- app_assoc).
        by apply IH.
Qed.
(** ** The diff engine: the opcodes *)

Lemma tiles_app i0 j0 l1 i j l2 i' j' :
  tiles i0 j0 l1 i j → tiles i j l2 i' j' → tiles i0 j0 (l1 ++ l2) i' j'.
Proof.
  revert i0 j0; induction l1 as [|[[[[t i1] i2] j1] j2] l1 IH]; intros i0 j0; simpl.
  - by intros [-> ->].
  - intros (-> & -> & ? & ? & ? & Hr) H2. repeat split; try done. by apply IH.
Qed.

Lemma opcodes_loop_tiles : ∀ blocks i j answer i0 j0,
  mono i j blocks → tiles i0 j0 answer i j →
  tiles i0 j0 (opcodes_loop i j blocks answer)
    (ends i j blocks).1 (ends i j blocks).2.
Proof.
  induction blocks as [|[[ai bj] size] rest IH]; intros i j answer i0 j0 Hm Ht.
  - done.
  - simpl in Hm. destruct Hm as (Hi & Hj & Hm). cbn [opcodes_loop ends].
    apply IH; [done|].
    assert (Hgap : tiles i0 j0
      match (if (i <? ai) && (j <? bj) then Some TagReplace
             else if i <? ai then Some TagDelete
             else if j <? bj then Some TagInsert else None) with
      | Some t => answer ++ [(t, i, ai, j, bj)]
      | None => answer
      end ai bj).
    { destruct (Nat.ltb_spec i ai), (Nat.ltb_spec j bj); simpl.
      - eapply tiles_app; [done|]. simpl. lia.
      - eapply tiles_app; [done|]. simpl. lia.
      - eapply tiles_app; [done|]. simpl. lia.
      - by replace ai with i by lia; replace bj with j by lia. }
    destruct (Nat.eqb_spec size 0) as [->|Hs].
    + by rewrite !Nat.add_0_r.
    + eapply tiles_app; [done|]. simpl. lia.
Qed.

Lemma tiles_old_range : ∀ ops i j i' j',
  tiles i j ops i' j' → i ≤ i' ∧ flat_map old_range ops = seq i (i' - i).
Proof.
  induction ops as [|[[[[t i1] i2] j1] j2] ops IH]; intros i j i' j'; simpl.
  - intros [-> ->]. by rewrite Nat.sub_diag.
  - intros (-> & -> & Hi & Hj & _ & Hr). apply IH in Hr as [Hle Hr].
    split; [lia|]. rewrite Hr.
    replace (i' - i) with ((i2 - i) + (i' - i2)) by lia.
    rewrite seq_app. by replace (i + (i2 - i)) with i2 by lia.
Qed.

Lemma tiles_new_range : ∀ ops i j i' j',
  tiles i j ops i' j' → j ≤ j' ∧ flat_map new_range ops = seq j (j' - j).
Proof.
  induction ops as [|[[[[t i1] i2] j1] j2] ops IH]; intros i j i' j'; simpl.
  - intros [-> ->]. by rewrite Nat.sub_diag.
  - intros (-> & -> & Hi & Hj & _ & Hr). apply IH in Hr as [Hle Hr].
    split; [lia|]. rewrite Hr.
    replace (j' - j) with ((j2 - j) + (j' - j2)) by lia.
    rewrite seq_app. by replace (j + (j2 - j)) with j2 by lia.
Qed.

Section Partition.
Context {K : Type} `{Countable K}.

(** The matching blocks are computed within the fuel and follow one
    another up to the sentinel. *)
Lemma get_matching_blocks_mono (a b : list K) :
  ∃ blocks, get_matching_blocks a b = Some blocks ∧
            mono 0 0 blocks ∧ ends 0 0 blocks = (length a, length b).
Proof.
  unfold get_matching_blocks.
  destruct (matching_loop_spec a b (chain_b b) (length a) (length b)
              (2 * length a + 1) [(0, length a, 0, length b)] [])
    as (res & Hres & Hok & Hpw).
  { simpl. lia. }
  { repeat constructor; simpl; lia. }
  { constructor. }
  { simpl. split; constructor. }
  rewrite Hres. eexists. split; [done|].
  set (sorted := merge_sort match_le res).
  assert (Hperm : sorted ≡ₚ res) by apply merge_sort_Permutation.
  assert (Hbefore : StronglySorted block_before sorted).
  { apply (sorted_apart_before (length a) (length b)).
    - apply StronglySorted_merge_sort; apply _.
    - by rewrite Hperm.
    - eapply (pairwise_Permutation apart (map box_of res));
        [apply apart_sym| |done].
      by rewrite Hperm. }
  assert (Hmono : mono 0 0 (sorted ++ [(length a, length b, 0)])).
  { apply before_mono; [done|by rewrite Hperm| |lia|lia].
    intros x _. lia. }
  destruct (collapse_mono (length a, length b, 0) [] sorted 0 0 0 [] 0 0)
    as [Hm He].
  { simpl. repeat split; [lia|lia|done]. }
  split; [done|]. rewrite He. simpl. rewrite ends_app. simpl.
  by rewrite !Nat.add_0_r.
Qed.

Lemma get_opcodes_tiles (a b : list K) :
  ∃ ops, get_opcodes a b = Some ops ∧ tiles 0 0 ops (length a) (length b).
Proof.
  destruct (get_matching_blocks_mono a b) as (blocks & Hb & Hm & He).
  unfold get_opcodes. rewrite Hb. eexists. split; [done|].
  pose proof (opcodes_loop_tiles blocks 0 0 [] 0 0 Hm) as Ht.
  rewrite He in Ht. by apply Ht.
Qed.

(** C2: for any two sequences of keys the engine returns a list of
    regions; the regions follow one another without gap or overlap from
    the start of both sequences to their ends, none is empty on both
    sides, and their ranges, taken in the order of the list, enumerate
    the indices of the old sequence and those of the new sequence exactly
    once, in increasing order. *)
Theorem get_opcodes_partition (a b : list K) :
  ∃ ops, get_opcodes a b = Some ops ∧
         tiles 0 0 ops (length a) (length b) ∧
         flat_map old_range ops = seq 0 (length a) ∧
         flat_map new_range ops = seq 0 (length b).
Proof.
  destruct (get_opcodes_tiles a b) as (ops & Hops & Ht).
  exists ops. split; [done|]. split; [done|]. split.
  - destruct (tiles_old_range _ _ _ _ _ Ht) as [_ Hr].
    by rewrite Hr, Nat.sub_0_r.
  - destruct (tiles_new_range _ _ _ _ _ Ht) as [_ Hr].
    by rewrite Hr, Nat.sub_0_r.
Qed.

End Partition.

(** The same for the comparison of two documents. *)
Corollary diff_partition (orig_blocks new_blocks : list Block) :
  ∃ ops, diff orig_blocks new_blocks = Some ops ∧
         tiles 0 0 ops (length orig_blocks) (length new_blocks) ∧
         flat_map old_range ops = seq 0 (length orig_blocks) ∧
         flat_map new_range ops = seq 0 (length new_blocks).
Proof.
  destruct (get_opcodes_tiles (orig_texts orig_blocks) (new_texts new_blocks))
    as (ops & Hops & Ht).
  unfold orig_texts, new_texts in Ht. rewrite !length_map in Ht.
  exists ops. split; [done|]. split; [done|]. split.
  - destruct (tiles_old_range _ _ _ _ _ Ht) as [_ Hr].
    by rewrite Hr, Nat.sub_0_r.
  - destruct (tiles_new_range _ _ _ _ _ Ht) as [_ Hr].
    by rewrite Hr, Nat.sub_0_r.
Qed.
(** ** The diff engine: a sequence compared with itself *)

Section SelfComparisonProperties.
Context {K : Type} `{Countable K}.
Implicit Types (s b : list K) (b2j : gmap K (list nat)).

Lemma positions_elem x b : ∀ i j,
  j ∈ positions x i b ↔ i ≤ j ∧ b !! (j - i) = Some x.
Proof.
  induction b as [|y r IH]; intros i j; simpl.
  - split; [intros Hin; inversion Hin|intros [_ [=]]].
  - rewrite elem_of_app, IH. split.
    + intros [Hj|[Hle Hl]].
      * destruct (decide (y = x)) as [->|]; [|inversion Hj].
        apply list_elem_of_singleton in Hj as ->. by rewrite Nat.sub_diag.
      * split; [lia|]. by replace (j - i) with (S (j - S i)) by lia.
    + intros [Hle Hl]. destruct (decide (i = j)) as [->|Hne].
      * left. rewrite Nat.sub_diag in Hl. injection Hl as ->.
        rewrite decide_True by done. left.
      * right. split; [lia|].
        by replace (j - i) with (S (j - S i)) in Hl by lia.
Qed.

Lemma positions_sorted x b : ∀ i, StronglySorted lt (positions x i b).
Proof.
  induction b as [|y r IH]; intros i; simpl; [constructor|].
  destruct (decide (y = x)); simpl; [|apply IH].
  constructor; [apply IH|]. apply Forall_forall. intros j Hj.
  apply positions_elem in Hj. lia.
Qed.

Lemma chain_loop_lookup x b : ∀ i (m : gmap K (list nat)),
  chain_loop i b m !! x =
    match positions x i b with
    | [] => m !! x
    | ps => Some (default [] (m !! x) ++ ps)
    end.
Proof.
  induction b as [|y r IH]; intros i m; simpl; [done|].
  rewrite IH. destruct (decide (y = x)) as [->|Hne]; simpl.
  - rewrite lookup_insert_eq. simpl.
    destruct (positions x (S i) r); by rewrite <- ?app_assoc.
  - by rewrite lookup_insert_ne.
Qed.

Lemma chain_b_lookup b x js :
  chain_b b !! x = Some js → js = positions x 0 b.
Proof.
  assert (Hall : ∀ js, chain_loop 0 b ∅ !! x = Some js → js = positions x 0 b).
  { intros js'. rewrite chain_loop_lookup, lookup_empty. simpl.
    destruct (positions x 0 b); [done|]. by intros [= <-]. }
  unfold chain_b. destruct (200 <=? length b); [|apply Hall].
  intros Hl. apply map_lookup_filter_Some in Hl as [Hl _]. by apply Hall.
Qed.

Section Diagonal.
Variables (s : list K) (b2j : gmap K (list nat)).
Hypothesis b2j_positions : ∀ x js, b2j !! x = Some js → js = positions x 0 s.

Let n := length s.

Lemma keyed_run_len j : keyed s b2j j = true → run_len s b2j j = S (prev_run s b2j j).
Proof. intros Hk. destruct j as [|j']; simpl; by rewrite Hk. Qed.

Lemma unkeyed_run_len j : keyed s b2j j = false → run_len s b2j j = 0.
Proof. intros Hk. destruct j as [|j']; simpl; by rewrite Hk. Qed.

Lemma j2lenget_prev_le i j2len j :
  row_ok s b2j i j2len →
  j2lenget_prev j2len j ≤ prev_run s b2j j ∧
  j2lenget_prev j2len j ≤ prev_run s b2j i.
Proof.
  intros [Hr _]. destruct j as [|j']; simpl; [lia|].
  destruct (j2len !! j') as [k|] eqn:E; simpl; [|lia]. by apply Hr.
Qed.

Lemma inner_loop_diagonal i x j2len : ∀ rem newj2len best,
  s !! i = Some x → is_Some (b2j !! x) →
  row_ok s b2j i j2len →
  StronglySorted lt rem →
  (∀ j, j ∈ rem → s !! j = Some x) →
  (∀ j k, newj2len !! j = Some k →
     k ≤ run_len s b2j j ∧ k ≤ run_len s b2j i) →
  (i ∈ rem ∨ (newj2len !! i = Some (run_len s b2j i) ∧ run_len s b2j i ≤ best.2)) →
  best_ok s b2j i best →
  let r := inner_loop i 0 n j2len rem newj2len best in
  (∀ j k, r.1 !! j = Some k → k ≤ run_len s b2j j ∧ k ≤ run_len s b2j i) ∧
  r.1 !! i = Some (run_len s b2j i) ∧
  best_ok s b2j (S i) r.2.
Proof.
  intros rem. induction rem as [|j rem IH];
    intros newj2len best Hi Hx Hrow Hsort Hrem Hnew Hdone Hbest.
  - simpl. destruct Hdone as [Hin|[Hl Hle]]; [inversion Hin|].
    split; [done|]. split; [done|].
    destruct best as [[bi bj] bs]. simpl in *. destruct Hbest as [-> Hb].
    split; [done|]. intros j Hj. destruct (decide (j = i)) as [->|]; [done|].
    apply Hb. lia.
  - cbn [inner_loop]. change (j <? 0) with false. cbv iota.
    assert (Hj : s !! j = Some x) by (apply Hrem; left).
    assert (Hjn : j < n) by (by apply lookup_lt_Some in Hj).
    destruct (Nat.leb_spec n j); [lia|].
    assert (Hkey : ∀ j', s !! j' = Some x → keyed s b2j j' = true).
    { intros j' Hj'. unfold keyed. rewrite Hj'. by apply bool_decide_eq_true. }
    pose proof (keyed_run_len j (Hkey j Hj)) as Hrj.
    pose proof (keyed_run_len i (Hkey i Hi)) as Hri.
    destruct (j2lenget_prev_le i j2len j Hrow) as [Hp1 Hp2].
    apply StronglySorted_inv in Hsort as [Hsort Hhd].
    rewrite Forall_forall in Hhd.
    apply IH; try done.
    + intros j' Hj'. apply Hrem. by right.
    + intros j' k'. destruct (decide (j = j')) as [<-|Hne].
      * rewrite lookup_insert_eq. intros [= <-]. lia.
      * rewrite lookup_insert_ne by done. apply Hnew.
    + destruct best as [[bi bj] bs]. simpl in *.
      destruct Hbest as [-> Hb].
      destruct (decide (j = i)) as [->|Hne].
      * right. rewrite lookup_insert_eq.
        destruct Hrow as [_ Hr2]. rewrite Hr2.
        replace (prev_run s b2j i + 1) with (run_len s b2j i) by lia.
        split; [done|].
        destruct (Nat.ltb_spec bs (run_len s b2j i)); simpl; lia.
      * rewrite lookup_insert_ne by done.
        destruct Hdone as [Hin|[Hl Hle]].
        -- apply elem_of_cons in Hin as [->|Hin]; [done|by left].
        -- right. split; [done|].
           destruct (Nat.ltb_spec bs (j2lenget_prev j2len j + 1)); simpl; lia.
    + destruct best as [[bi bj] bs]. simpl in *.
      destruct Hbest as [-> Hb].
      destruct (Nat.ltb_spec bs (j2lenget_prev j2len j + 1)) as [Hlt|Hge];
        [|done].
      simpl. destruct (Nat.lt_trichotomy j i) as [Hji|[->|Hji]].
      * specialize (Hb j Hji). lia.
      * split; [done|]. intros j' Hj'. specialize (Hb j' Hj'). lia.
      * destruct Hdone as [Hin|[Hl Hle]].
        -- apply elem_of_cons in Hin as [->|Hin]; [lia|].
           specialize (Hhd i Hin). lia.
        -- lia.
Qed.

Lemma outer_loop_diagonal m : ∀ i j2len best,
  i + m = n → row_ok s b2j i j2len → best_ok s b2j i best →
  best_ok s b2j n (outer_loop s b2j 0 n (seq i m) j2len best).
Proof.
  induction m as [|m IH]; intros i j2len best Him Hrow Hbest; simpl.
  - by replace n with i by lia.
  - destruct (lookup_lt_is_Some_2 s i ltac:(fold n; lia)) as [x Hx].
    unfold b2j_get. rewrite Hx.
    destruct (b2j !! x) as [js|] eqn:Ejs; simpl.
    + pose proof (b2j_positions x js Ejs) as ->.
      pose proof (inner_loop_diagonal i x j2len (positions x 0 s) ∅ best Hx
                    ltac:(by rewrite Ejs) Hrow (positions_sorted x s 0)) as Hin.
      destruct (inner_loop i 0 n j2len (positions x 0 s) ∅ best)
        as [newj2len best'].
      simpl in Hin. destruct Hin as (Hn1 & Hn2 & Hb').
      { intros j Hj. apply positions_elem in Hj as [_ Hj].
        by rewrite Nat.sub_0_r in Hj. }
      { intros j k Hl. by rewrite lookup_empty in Hl. }
      { left. apply positions_elem. rewrite Nat.sub_0_r. split; [lia|done]. }
      { done. }
      apply IH; [lia| |done].
      split; [done|]. simpl. by rewrite Hn2.
    + assert (Hk : keyed s b2j i = false).
      { unfold keyed. rewrite Hx, Ejs. apply bool_decide_eq_false.
        by intros [? [=]]. }
      apply IH; [lia| |].
      * split; [intros j k Hl; by rewrite lookup_empty in Hl|].
        simpl. rewrite lookup_empty. simpl. by rewrite unkeyed_run_len.
      * destruct best as [[bi bj] bs]. simpl in *. destruct Hbest as [-> Hb].
        split; [done|]. intros j Hj. destruct (decide (j = i)) as [->|].
        -- rewrite unkeyed_run_len by done. lia.
        -- apply Hb. lia.
Qed.

Lemma same_element_diagonal i : i < n → same_element s s false i i = true.
Proof.
  intros Hi. unfold same_element.
  destruct (lookup_lt_is_Some_2 s i Hi) as [x ->]. simpl.
  by apply bool_decide_eq_true.
Qed.

Lemma extend_back_diagonal : ∀ d bs,
  d ≤ n → extend_back s s false 0 0 d d bs = (0, 0, bs + d).
Proof.
  induction d as [|d IH]; intros bs Hd; simpl.
  - by rewrite Nat.add_0_r.
  - rewrite same_element_diagonal by lia. simpl. rewrite IH by lia.
    f_equal. lia.
Qed.

Lemma extend_forward_diagonal : ∀ room bs,
  bs + room = n → extend_forward s s false n n 0 0 room bs = n.
Proof.
  induction room as [|room IH]; intros bs Hr; simpl.
  - lia.
  - destruct (Nat.ltb_spec bs n); [|lia]. simpl.
    rewrite same_element_diagonal by lia. apply IH. lia.
Qed.

Lemma extend_back_junk alo blo : ∀ bi bj bs,
  extend_back s s true alo blo bi bj bs = (bi, bj, bs).
Proof.
  intros [|bi] [|bj] bs; simpl; try done.
  unfold same_element. destruct (s !! bi), (s !! bj); simpl;
    by rewrite ?andb_false_r.
Qed.

Lemma find_longest_match_self :
  find_longest_match s s b2j 0 n 0 n = (0, 0, n).
Proof.
  unfold find_longest_match. rewrite Nat.sub_0_r.
  pose proof (outer_loop_diagonal n 0 ∅ (0, 0, 0) eq_refl) as Hd.
  pose proof (outer_loop_within s b2j 0 0 n n 0 ∅ (0, 0, 0)) as Hw.
  destruct (outer_loop s b2j 0 n (seq 0 n) ∅ (0, 0, 0)) as [[bi bj] bs].
  destruct Hd as [-> _].
  { split; [intros j k Hl; by rewrite lookup_empty in Hl|done]. }
  { split; [done|]. intros j Hj. lia. }
  simpl in Hw. destruct Hw as (_ & Hw & _).
  { lia. }
  { intros j k Hl. by rewrite lookup_empty in Hl. }
  { lia. }
  rewrite extend_back_diagonal by lia.
  rewrite (extend_forward_diagonal (n - (0 + (bs + bj))) (bs + bj)) by lia.
  rewrite extend_back_junk.
  by rewrite Nat.sub_diag.
Qed.

End Diagonal.
End SelfComparisonProperties.

Section SelfDiff.
Context {K : Type} `{Countable K}.

(** C8 (as amended): comparing a non-empty sequence with itself yields
    exactly one region, an equal region that spans the whole sequence, and
    no delete, insert or replace region; comparing the empty sequence with
    itself yields no region at all. *)
Theorem get_opcodes_self (s : list K) :
  get_opcodes s s =
    Some (match s with
          | [] => []
          | _ :: _ => [(TagEqual, 0, length s, 0, length s)]
          end).
Proof.
  unfold get_opcodes, get_matching_blocks.
  replace (2 * length s + 1) with (S (2 * length s)) by lia.
  cbn [matching_loop].
  rewrite (find_longest_match_self s (chain_b s) (chain_b_lookup s)).
  destruct s as [|x s']; [done|].
  assert (Hn : length (x :: s') ≠ 0) by done.
  generalize dependent (length (x :: s')). intros n Hn.
  cbv beta iota zeta.
  destruct (Nat.eqb_spec n 0) as [|_]; [done|].
  change (0 <? 0) with false.
  destruct (Nat.ltb_spec (0 + n) n) as [|_]; [lia|].
  simpl andb. cbv iota.
  assert (Hloop : ∀ fuel, matching_loop (x :: s') (x :: s') (chain_b (x :: s'))
                    fuel [] ([] ++ [(0, 0, n)]) = Some [(0, 0, n)])
    by (by intros [|fuel]).
  rewrite Hloop.
  change (merge_sort match_le [(0, 0, n)]) with [(0, 0, n)].
  simpl.
  destruct (Nat.eqb_spec n 0) as [|_]; [done|]. simpl.
  destruct (Nat.ltb_spec n n) as [|_]; [lia|].
  destruct (Nat.eqb_spec n 0) as [|_]; done.
Qed.

End SelfDiff.

(** The empty sequence compared with itself has no equal region. *)
Lemma get_opcodes_self_empty :
  ¬ ∀ s : list Py.str, ∃ i1 i2 j1 j2 : nat,
      get_opcodes s s = Some [(TagEqual, i1, i2, j1, j2)].
Proof.
  intros H. destruct (H []) as (i1 & i2 & j1 & j2 & Hops).
  vm_compute in Hops. discriminate Hops.
Qed.

Example diff_same_document :
  diff [para "Član 1"; para "a"; empty_table] [para "Član 1"; para "a"; empty_table] =
    Some [(TagEqual, 0, 3, 0, 3)].
Proof. vm_compute. reflexivity. Qed.

(** A document whose header carries the marker, compared with itself: the
    keys of the two sides differ at the header. *)
Example diff_marked_document :
  diff [para "Član 1*"; para "a"] [para "Član 1*"; para "a"] =
    Some [(TagReplace, 0, 1, 0, 1); (TagEqual, 1, 2, 1, 2)].
Proof. vm_compute. reflexivity. Qed.
(** ** The ReferenceAnnotator *)

Lemma iter_block_items_body_of s l : iter_block_items (body_of s l) = l.
Proof.
  unfold body_of, iter_block_items. rewrite flat_map_app.
  assert (H : flat_map (fun c => match c with CBlock b => [b] | CSectPr => [] end)
                (map CBlock l) = l).
  { induction l as [|b l IH]; simpl; [done|by rewrite IH]. }
  rewrite H. destruct s; simpl; by rewrite app_nil_r.
Qed.

Lemma sectPr_index_body_of s l : sectPr_index (body_of s l) = length l.
Proof.
  unfold body_of. induction l as [|b l IH]; simpl; [by destruct s|by rewrite IH].
Qed.

Lemma add_block_body_of s l b :
  add_block (body_of s l) b = (body_of s (l ++ [b]), length l).
Proof.
  unfold add_block. rewrite sectPr_index_body_of. f_equal.
  unfold body_of. rewrite map_app. simpl.
  rewrite take_app_length', drop_app_length' by (by rewrite length_map).
  by rewrite <- app_assoc.
Qed.

Lemma lxml_insert_last s l b pos :
  pos < length l →
  lxml_insert pos (length l) (body_of s (l ++ [b])) =
    body_of s (take pos l ++ [b] ++ drop pos l).
Proof.
  intros Hpos. unfold lxml_insert, body_of.
  rewrite map_app. simpl.
  assert (Hlen : length l = length (map CBlock l)) by (by rewrite length_map).
  set (tail := if s then [CSectPr] else []).
  rewrite <- app_assoc. simpl.
  rewrite (list_lookup_middle (map CBlock l) tail (CBlock b) (length l)) by done.
  destruct (Nat.eqb_spec pos (length l)); [lia|].
  rewrite (take_app_length' (map CBlock l) _ (length l)) by done.
  replace (map CBlock l ++ CBlock b :: tail)
    with ((map CBlock l ++ [CBlock b]) ++ tail) by (by rewrite <- app_assoc).
  rewrite (drop_app_length' (map CBlock l ++ [CBlock b]) tail (S (length l)))
    by (rewrite length_app; simpl; lia).
  rewrite <- app_assoc. simpl.
  rewrite lookup_app_l by lia.
  destruct (lookup_lt_is_Some_2 (map CBlock l) pos ltac:(lia)) as [c ->].
  destruct (Nat.ltb_spec (length l) pos); [lia|].
  rewrite take_app_le, drop_app_le by lia.
  rewrite !map_app, firstn_map, skipn_map. simpl. by rewrite <- !app_assoc.
Qed.

Lemma splice_step_body_of ref_p s l pos :
  pos < length l →
  splice_step ref_p (body_of s l) pos =
    body_of s (take pos l ++ [Paragraph ref_p] ++ drop pos l).
Proof.
  intros Hpos. unfold splice_step. rewrite add_block_body_of.
  by apply lxml_insert_last.
Qed.

Lemma splice_descending ref_p s l2 : ∀ l1,
  foldl (splice_step ref_p) (body_of s (l1 ++ l2))
    (reverse (flagged_from (length l1) l2)) =
  body_of s (l1 ++ with_references ref_p l2).
Proof.
  induction l2 as [|b l2 IH]; intros l1; [done|].
  cbn [flagged_from]. rewrite reverse_app, foldl_app.
  replace (l1 ++ b :: l2) with ((l1 ++ [b]) ++ l2) by (by rewrite <- app_assoc).
  replace (S (length l1)) with (length (l1 ++ [b]))
    by (rewrite length_app; simpl; lia).
  rewrite IH. unfold with_references at 2. cbn [flat_map].
  fold (with_references ref_p l2). rewrite <- app_assoc. simpl.
  destruct (is_flagged b); [|done].
  simpl. rewrite splice_step_body_of by (rewrite length_app; simpl; lia).
  rewrite take_app_length, drop_app_length. done.
Qed.

Lemma strip_head_nonspace c r :
  Py.isspace c = false → ∃ r', Py.strip (c :: r) = c :: r'.
Proof.
  intros Hc. unfold Py.strip, Py.rstrip. cbn [Py.lstrip]. rewrite Hc.
  cbn [rev]. rewrite (lstrip_app_nonspace_eq (rev r) c [] Hc).
  rewrite rev_app_distr. simpl. by eexists.
Qed.

(** The amending reference opens with a bracket, so the reference
    paragraph is never taken for a flagged header. *)
Lemma reference_not_flagged spacing gov_doc :
  is_flagged (Paragraph (reference_paragraph spacing (extract_amending_ref gov_doc)))
    = false.
Proof.
  assert (Hb : ∃ r, extract_amending_ref gov_doc = 91%Z :: r).
  { unfold extract_amending_ref. destruct (_ && _).
    - eexists. unfold bracketed. change (Py.lit "[") with [91%Z]. reflexivity.
    - exists (tail fallback_ref). vm_compute. reflexivity. }
  destruct Hb as [r Hr].
  unfold is_flagged, text, reference_paragraph. cbn [runs map run_text concat].
  rewrite app_nil_r, Hr.
  destruct (strip_head_nonspace 91%Z r eq_refl) as [r' ->].
  by destruct r' as [|? [|? [|? ?]]].
Qed.

(** C10: the positions of the flagged headers are collected first and one
    reference paragraph is spliced in per position, from the last position
    to the first; afterwards the document is the rendered sequence with a
    reference paragraph immediately before every flagged header and
    nothing else moved, so that a new scan finds every flagged header right
    after its reference paragraph, and the document has grown by one
    paragraph per flagged header. *)
Theorem insert_references_before_headers
    (spacing has_sectPr : bool) (gov_doc : list Block) (rendered : list Block) :
  let ref_p := reference_paragraph spacing (extract_amending_ref gov_doc) in
  let result := insert_references ref_p (body_of has_sectPr rendered) in
  result = body_of has_sectPr (with_references ref_p rendered) ∧
  (∀ idx b, iter_block_items result !! idx = Some b → is_flagged b = true →
     ∃ idx', idx = S idx' ∧
       iter_block_items result !! idx' = Some (Paragraph ref_p)) ∧
  length (iter_block_items result) =
    length rendered + length (flagged_from 0 rendered).
Proof.
  intros ref_p result.
  assert (Hres : result = body_of has_sectPr (with_references ref_p rendered)).
  { unfold result, insert_references. rewrite iter_block_items_body_of.
    apply (splice_descending ref_p has_sectPr rendered []). }
  assert (Hnf : is_flagged (Paragraph ref_p) = false)
    by apply reference_not_flagged.
  split; [done|]. rewrite Hres, iter_block_items_body_of. split.
  - clear Hres result. induction rendered as [|c l IH]; intros idx b Hl Hb.
    + done.
    + unfold with_references in *. cbn [flat_map] in *.
      destruct (is_flagged c) eqn:Hc.
      * destruct idx as [|[|idx]]; simpl in Hl.
        -- injection Hl as <-. congruence.
        -- by exists 0.
        -- destruct (IH idx b Hl Hb) as (idx' & -> & Hl').
           exists (S (S idx')). done.
      * destruct idx as [|idx]; simpl in Hl.
        -- injection Hl as <-. congruence.
        -- destruct (IH idx b Hl Hb) as (idx' & -> & Hl').
           exists (S idx'). done.
  - clear Hres result. generalize 0.
    induction rendered as [|c l IH]; intros k; [done|].
    unfold with_references in *. cbn [flat_map flagged_from].
    rewrite !length_app, (IH (S k)). destruct (is_flagged c); simpl; lia.
Qed.

Example insert_references_three_flagged :
  map (fun b => match b with Paragraph p => text p | Table _ => TABLE end)
    (iter_block_items
       (insert_references (reference_paragraph true fallback_ref)
          (body_of true three_flagged))) =
  [TABLE; TABLE; Py.lit "Član 1"; Py.lit "a";
   fallback_ref; Py.lit "Član 2*"; Py.lit "b";
   fallback_ref; Py.lit "Član 3*"; fallback_ref; Py.lit "Član 4*"; Py.lit "c"].
Proof. vm_compute. reflexivity. Qed.
(** ** The revision pipeline *)

Section RevisionPipelineProperties.
Variable Pt_of_pt : Z → Z.
Variable line_spacing_of : Z → Z.

(** The new paragraphs are added after all the blocks of the document,
    whatever the span was. *)
Lemma insert_new_appends orig_paragraphs s sect : ∀ new_lines i blocks,
  ∃ added,
    insert_new Pt_of_pt line_spacing_of orig_paragraphs s i new_lines
      (body_of sect blocks) = body_of sect (blocks ++ added) ∧
    length added = length new_lines.
Proof.
  induction new_lines as [|line rest IH]; intros i blocks.
  - exists []. by rewrite app_nil_r.
  - cbn [insert_new]. rewrite add_block_body_of. cbn [fst].
    destruct (IH (S i) (blocks ++ [Paragraph
      (if ARTICLE_RE_match line
       then title_format
              match orig_paragraphs !! (s + i) with
              | Some source =>
                deep_copy_paragraph Pt_of_pt line_spacing_of source (new_paragraph line)
              | None => new_paragraph line
              end
       else match orig_paragraphs !! (s + i) with
            | Some source =>
              deep_copy_paragraph Pt_of_pt line_spacing_of source (new_paragraph line)
            | None => new_paragraph line
            end)])) as (added & Heq & Hlen).
    eexists (_ :: added). rewrite Heq, <- app_assoc. split; [done|].
    simpl. by rewrite Hlen.
Qed.

Lemma remove_paragraph_sublist : ∀ body k body',
  remove_paragraph k body = Some body' → body' `sublist_of` body.
Proof.
  induction body as [|c r IH]; intros k body' Hr; simpl in Hr; [done|].
  assert (Hrec : ∀ k', option_map (cons c) (remove_paragraph k' r) = Some body' →
                       body' `sublist_of` c :: r).
  { intros k' Hk. destruct (remove_paragraph k' r) as [r'|] eqn:E; [|done].
    injection Hk as <-. apply sublist_skip. by eapply IH. }
  destruct c as [[p|t]|]; [destruct k as [|k']|..]; try by eapply Hrec.
  injection Hr as <-. by apply sublist_cons.
Qed.

Lemma remove_span_sublist s : ∀ count body body',
  remove_span s count body = Some body' → body' `sublist_of` body.
Proof.
  induction count as [|count IH]; intros body body' Hr; simpl in Hr.
  - by injection Hr as <-.
  - destruct (remove_paragraph (s + count) body) as [b1|] eqn:E; [|done].
    etrans; [by eapply IH|by eapply remove_paragraph_sublist].
Qed.

End RevisionPipelineProperties.

(** C1, at a law of two articles: the revised first article does not take
    the place of the span that was removed.  Its paragraphs are added at
    the end of the document, after the second article, and carry the text
    of the paragraphs of the original, without the marker. *)
Theorem process_part_a_moves_article :
  option_map (fun r => block_texts r.1)
    (process_part_a (fun z => z) (fun z => z) (constant_service repeal_answer) []
       two_articles_law repeal_instruction 0) =
  Some [Py.lit "Član 2"; Py.lit "text C"; Py.lit "Član 1"; Py.lit "text A"].
Proof. vm_compute. reflexivity. Qed.

(** With one article only the end of the document is the place of the
    span; the header still has no marker. *)
Example process_part_a_one_article :
  option_map (fun r => block_texts r.1)
    (process_part_a (fun z => z) (fun z => z) (constant_service repeal_answer) []
       one_article_law repeal_instruction 0) =
  Some [Py.lit "Član 1"; Py.lit "text A"].
Proof. vm_compute. reflexivity. Qed.

(** A table before the article: the spans count blocks and
    [doc.paragraphs] counts paragraphs, so the index runs out of range. *)
Example process_part_a_table_first :
  process_part_a (fun z => z) (fun z => z) (constant_service repeal_answer) []
    (CBlock empty_table :: one_article_law) repeal_instruction 0 = None.
Proof. vm_compute. reflexivity. Qed.
(** ** The documents as objects: copies share nothing with the source *)

Section StoreProperties.
Variable Pt_of_pt : Z → Z.
Variable line_spacing_of : Z → Z.
Variables (h0 : gmap positive Store.Node) (out : positive).

Local Abbreviation target_side := (Store.target_side h0 out).
Local Abbreviation new_in := (Store.new_in h0).
Local Abbreviation step := (Store.step h0 out).

Lemma new_in_mono h h' c : dom h ⊆ dom h' → new_in h c → new_in h' c.
Proof. intros Hs [H1 H2]. split; [by apply Hs|done]. Qed.

Lemma new_in_target_side h c : new_in h c → target_side c.
Proof. intros [_ ?]. by left. Qed.

Lemma step_refl h : Store.good h0 out h → step h h.
Proof. by split. Qed.

Lemma step_trans h1 h2 h3 : step h1 h2 → step h2 h3 → step h1 h3.
Proof. intros [_ H1] [H2 H3]. split; [done|set_solver]. Qed.

Lemma good_children h l n c :
  Store.good h0 out h → h !! l = Some n → target_side l →
  c ∈ Store.children n → new_in h c.
Proof. intros (_ & _ & Hc) Hl Ht Hin. by eapply Hc. Qed.

Lemma good_update h l n :
  Store.good h0 out h → target_side l →
  (∀ c, c ∈ Store.children n → new_in h c) →
  step h (<[l := n]> h).
Proof.
  intros (Ha & Hb & Hc) Ht Hn. split; [split; [|split]|].
  - rewrite dom_insert_L. etrans; [exact Ha|apply union_subseteq_r].
  - intros l' Hl' Hne. rewrite lookup_insert_ne; [by apply Hb|].
    intros ->. destruct Ht as [Ht|Ht]; [done|by subst].
  - intros l' n' Hl' Ht' c Hin. rewrite dom_insert_L.
    destruct (decide (l = l')) as [<-|Hne].
    + rewrite lookup_insert_eq in Hl'. injection Hl' as <-.
      destruct (Hn c Hin). split; [by apply elem_of_union_r|done].
    + rewrite lookup_insert_ne in Hl' by done.
      destruct (Hc l' n' Hl' Ht' c Hin). split; [by apply elem_of_union_r|done].
  - rewrite dom_insert_L. apply union_subseteq_r.
Qed.

Lemma good_alloc h n :
  Store.good h0 out h →
  (∀ c, c ∈ Store.children n → new_in h c) →
  step h (Store.alloc n h).2 ∧ new_in (Store.alloc n h).2 (Store.alloc n h).1 ∧
  (Store.alloc n h).2 !! (Store.alloc n h).1 = Some n.
Proof.
  intros Hg Hn. unfold Store.alloc. simpl.
  pose proof (is_fresh (dom h)) as Hf.
  assert (Hf0 : fresh (dom h) ∉ dom h0) by (destruct Hg as (Ha & _); set_solver).
  split; [|split].
  - apply good_update; [done|by left|done].
  - split; [|done]. rewrite dom_insert_L.
    apply elem_of_union_l. by apply elem_of_singleton.
  - by rewrite lookup_insert_eq.
Qed.

Lemma add_run_step h target r :
  Store.good h0 out h → target_side target →
  step h (Store.add_run target r h).
Proof.
  intros Hg Ht. unfold Store.add_run.
  destruct (h !! target) as [[| f rs | | |]|] eqn:E; try by apply step_refl.
  destruct (good_alloc h (Store.NRun r) Hg) as ([Hg1 Hd1] & Hnew & _).
  { intros c Hc. inversion Hc. }
  unfold Store.alloc in *. simpl in *.
  eapply step_trans; [by split|].
  apply good_update; [done|done|].
  intros c Hc. simpl in Hc. apply elem_of_app in Hc as [Hc|Hc].
  - eapply new_in_mono; [done|]. by eapply (good_children h target).
  - by apply list_elem_of_singleton in Hc as ->.
Qed.

Lemma foldl_step {A} (f : gmap positive Store.Node → A → gmap positive Store.Node)
    (l : list A) :
  (∀ h x, Store.good h0 out h → step h (f h x)) →
  ∀ h, Store.good h0 out h → step h (foldl f h l).
Proof.
  intros Hf. induction l as [|x l IH]; intros h Hg; simpl.
  - by apply step_refl.
  - eapply step_trans; [by apply Hf|]. apply IH. by apply Hf.
Qed.

Lemma deep_copy_paragraph_step h source target :
  Store.good h0 out h → target_side target →
  step h (Store.deep_copy_paragraph Pt_of_pt line_spacing_of source target h).
Proof.
  intros Hg Ht. unfold Store.deep_copy_paragraph.
  destruct (h !! source) as [[| fs rs | | |]|]; try by apply step_refl.
  destruct (h !! target) as [[| ft rt | | |]|]; try by apply step_refl.
  assert (H1 : step h (<[target := Store.NParagraph
             (copy_format Pt_of_pt line_spacing_of fs ft) []]> h)).
  { apply good_update; [done|done|]. intros c Hc. inversion Hc. }
  destruct (_ !! source) as [[| fs' rs' | | |]|]; try done.
  eapply step_trans; [done|].
  apply foldl_step; [|by destruct H1].
  intros h' r Hg'. by apply add_run_step.
Qed.

Lemma add_paragraph_step h container :
  Store.good h0 out h → target_side container →
  step h (Store.add_paragraph container h).2 ∧
  new_in (Store.add_paragraph container h).2 (Store.add_paragraph container h).1.
Proof.
  intros Hg Ht. unfold Store.add_paragraph.
  destruct (good_alloc h (Store.NParagraph default_format []) Hg)
    as ([Hg1 Hd1] & Hnew & Hl).
  { intros c Hc. inversion Hc. }
  unfold Store.alloc in *. simpl in *.
  set (p := fresh (dom h)) in *.
  set (h1 := <[p := Store.NParagraph default_format []]> h) in *.
  assert (Hstep : ∀ n, h1 !! container = Some n →
            ∀ n', Store.children n' = Store.children n ++ [p] →
            step h (<[container := n']> h1) ∧ new_in (<[container := n']> h1) p).
  { intros n Hn n' Hch. split.
    - eapply step_trans; [by split|]. apply good_update; [done|done|].
      intros c Hc. rewrite Hch in Hc. apply elem_of_app in Hc as [Hc|Hc].
      + by eapply (good_children h1 container).
      + by apply list_elem_of_singleton in Hc as ->.
    - eapply new_in_mono; [|done]. rewrite dom_insert_L. apply union_subseteq_r. }
  destruct (h1 !! container) as [[| | sh ps | | bs]|] eqn:E;
    try (split; [by split|done]).
  - by eapply Hstep.
  - by eapply Hstep.
Qed.


Lemma set_color_step h c run :
  Store.good h0 out h → target_side run → step h (Store.set_color c run h).
Proof.
  intros Hg Ht. unfold Store.set_color.
  destruct (h !! run) as [[r | | | |]|]; try by apply step_refl.
  apply good_update; [done|done|]. intros x Hx. inversion Hx.
Qed.

Lemma foldl_step_list {A} (P : A → Prop)
    (f : gmap positive Store.Node → A → gmap positive Store.Node) (l : list A) :
  (∀ h x, P x → Store.good h0 out h → step h (f h x)) →
  Forall P l → ∀ h, Store.good h0 out h → step h (foldl f h l).
Proof.
  intros Hf Hl. induction Hl as [|x l Hx Hl IH]; intros h Hg; simpl.
  - by apply step_refl.
  - eapply step_trans; [by apply Hf|]. apply IH. by apply Hf.
Qed.

Lemma recolor_step h color p :
  Store.good h0 out h → target_side p → step h (Store.recolor color p h).
Proof.
  intros Hg Ht. unfold Store.recolor.
  destruct color as [c|]; [|by apply step_refl].
  destruct (h !! p) as [[| f rs | | |]|] eqn:E; try by apply step_refl.
  apply (foldl_step_list (fun r => target_side r)); [|  |done].
  - intros h' r Hr Hg'. by apply set_color_step.
  - apply Forall_forall. intros r Hr.
    eapply new_in_target_side. by eapply (good_children h p).
Qed.

Lemma new_cell_step h :
  Store.good h0 out h →
  step h (Store.new_cell h).2 ∧ new_in (Store.new_cell h).2 (Store.new_cell h).1.
Proof.
  intros Hg. unfold Store.new_cell.
  destruct (good_alloc h (Store.NParagraph default_format []) Hg)
    as ([Hg1 Hd1] & Hnew & Hl).
  { intros c Hc. inversion Hc. }
  destruct (Store.alloc (Store.NParagraph default_format []) h) as [p h1].
  simpl in *.
  destruct (good_alloc h1 (Store.NCell None [p]) Hg1) as (Hs2 & Hnew2 & _).
  { intros c Hc. simpl in Hc. by apply list_elem_of_singleton in Hc as ->. }
  split; [|done]. eapply step_trans; [by split|done].
Qed.

Lemma new_cells_step n : ∀ h,
  Store.good h0 out h →
  step h (Store.new_cells n h).2 ∧
  Forall (new_in (Store.new_cells n h).2) (Store.new_cells n h).1.
Proof.
  induction n as [|n IH]; intros h Hg; cbn [Store.new_cells].
  - cbn [fst snd concat]. split; [by apply step_refl|constructor].
  - destruct (new_cell_step h Hg) as [Hs1 Hn1].
    destruct (Store.new_cell h) as [c h1]. cbn [fst snd concat] in *.
    destruct (IH h1 ltac:(by destruct Hs1)) as [Hs2 Hn2].
    destruct (Store.new_cells n h1) as [cs h2]. cbn [fst snd concat] in *.
    split; [exact (step_trans _ _ _ Hs1 Hs2)|].
    constructor; [|done]. eapply new_in_mono; [|done]. by destruct Hs2.
Qed.

Lemma new_rows_step shape : ∀ h,
  Store.good h0 out h →
  step h (Store.new_rows shape h).2 ∧
  Forall (new_in (Store.new_rows shape h).2) (concat (Store.new_rows shape h).1).
Proof.
  induction shape as [|n shape IH]; intros h Hg; cbn [Store.new_rows].
  - cbn [fst snd concat]. split; [by apply step_refl|constructor].
  - destruct (new_cells_step n h Hg) as [Hs1 Hn1].
    destruct (Store.new_cells n h) as [row h1]. cbn [fst snd concat] in *.
    destruct (IH h1 ltac:(by destruct Hs1)) as [Hs2 Hn2].
    destruct (Store.new_rows shape h1) as [rows h2]. cbn [fst snd concat] in *.
    split; [exact (step_trans _ _ _ Hs1 Hs2)|].
    apply Forall_app. split; [|done].
    eapply Forall_impl; [done|]. intros c Hc.
    eapply new_in_mono; [|done]. by destruct Hs2.
Qed.

Lemma add_table_step h shape doc :
  Store.good h0 out h → target_side doc →
  step h (Store.add_table shape doc h).2 ∧
  new_in (Store.add_table shape doc h).2 (Store.add_table shape doc h).1.
Proof.
  intros Hg Ht. unfold Store.add_table.
  destruct (new_rows_step shape h Hg) as [Hs1 Hn1].
  destruct (Store.new_rows shape h) as [rows h1]. cbn [fst snd] in *.
  destruct (good_alloc h1 (Store.NTable true rows) ltac:(by destruct Hs1))
    as (Hs2 & Hnew & Hl).
  { intros c Hc. simpl in Hc. rewrite Forall_forall in Hn1. by apply Hn1. }
  destruct (Store.alloc (Store.NTable true rows) h1) as [t h2].
  cbn [fst snd] in *.
  assert (Hs : step h h2) by exact (step_trans _ _ _ Hs1 Hs2).
  assert (Hs3 : step h2 match h2 !! doc with
                        | Some (Store.NBody bs) => <[doc := Store.NBody (bs ++ [t])]> h2
                        | _ => h2
                        end).
  { destruct (h2 !! doc) as [[| | | | bs]|] eqn:E;
      try (apply step_refl; by destruct Hs2).
    apply good_update; [by destruct Hs2|done|].
    intros c Hc. simpl in Hc. apply elem_of_app in Hc as [Hc|Hc].
    - eapply (good_children h2 doc); [by destruct Hs2|done|done|done].
    - by apply list_elem_of_singleton in Hc as ->. }
  split; [exact (step_trans _ _ _ Hs Hs3)|].
  eapply new_in_mono; [|done]. by destruct Hs3.
Qed.

Lemma copy_cell_into_step h color cells :
  Store.good h0 out h → target_side cells.2 →
  step h (Store.copy_cell_into Pt_of_pt line_spacing_of color h cells).
Proof.
  intros Hg Ht. destruct cells as [sc tc]. simpl in Ht.
  unfold Store.copy_cell_into.
  destruct (h !! sc) as [[| | sh sps | |]|]; try by apply step_refl.
  set (h1 := match copied_shading sh, h !! tc with
             | Some _, Some (Store.NCell _ ps) =>
               <[tc := Store.NCell (Some (Py.lit "8A084B")) ps]> h
             | _, _ => h
             end).
  assert (Hs1 : step h h1).
  { unfold h1. destruct (copied_shading sh); [|by apply step_refl].
    destruct (h !! tc) as [[| | sh' ps | |]|] eqn:E; try by apply step_refl.
    apply good_update; [done|done|]. intros c Hc.
    by eapply (good_children h tc). }
  eapply step_trans; [done|].
  apply foldl_step; [|by destruct Hs1].
  intros h' sp Hg'.
  destruct (add_paragraph_step h' tc Hg' Ht) as [Hsa Hna].
  destruct (Store.add_paragraph tc h') as [tp h2]. simpl in *.
  pose proof (new_in_target_side _ _ Hna) as Htp.
  eapply step_trans; [done|].
  eapply step_trans.
  - apply (deep_copy_paragraph_step h2 sp tp); [by destruct Hsa|done].
  - apply recolor_step; [|done].
    by destruct (deep_copy_paragraph_step h2 sp tp ltac:(by destruct Hsa) Htp).
Qed.

Lemma deep_copy_table_step h source_table doc color :
  Store.good h0 out h → target_side doc →
  step h (Store.deep_copy_table Pt_of_pt line_spacing_of source_table doc color h).
Proof.
  intros Hg Ht. unfold Store.deep_copy_table.
  destruct (h !! source_table) as [[| | | b srows |]|]; try by apply step_refl.
  destruct (add_table_step h (map length srows) doc Hg Ht) as [Hs1 Hn1].
  destruct (Store.add_table (map length srows) doc h) as [t h1]. simpl in *.
  destruct (h1 !! t) as [[| | | b' trows |]|] eqn:E; try done.
  eapply step_trans; [done|].
  apply (foldl_step_list (fun cells : positive * positive => target_side cells.2));
    [| |by destruct Hs1].
  - intros h' cells Hc Hg'. by apply copy_cell_into_step.
  - apply Forall_forall. intros [sc tc] Hin. simpl.
    apply elem_of_zip_r in Hin.
    eapply new_in_target_side.
    eapply (good_children h1 t); [by destruct Hs1|done| |done].
    by eapply new_in_target_side.
Qed.

Lemma copy_block_step h block :
  Store.good h0 out h →
  step h (Store.copy_block Pt_of_pt line_spacing_of out h block).
Proof.
  intros Hg. unfold Store.copy_block.
  assert (Hout : target_side out) by (by right).
  destruct (h !! block) as [[| f rs | | b rows |]|]; try by apply step_refl.
  - destruct (add_paragraph_step h out Hg Hout) as [Hs1 Hn1].
    destruct (Store.add_paragraph out h) as [p h1]. simpl in *.
    eapply step_trans; [done|].
    apply deep_copy_paragraph_step; [by destruct Hs1|].
    by eapply new_in_target_side.
  - by apply deep_copy_table_step.
Qed.

Lemma copy_document_step h orig :
  Store.good h0 out h →
  step h (Store.copy_document Pt_of_pt line_spacing_of orig out h).
Proof.
  intros Hg. unfold Store.copy_document.
  destruct (h !! orig) as [[| | | | bs]|]; try by apply step_refl.
  apply foldl_step; [|done]. intros h' x Hg'. by apply copy_block_step.
Qed.

(** What can be reached from a location on the side of the target is on
    that side. *)
Lemma reachable_target_side h l l' :
  Store.good h0 out h → Store.reachable h l l' → target_side l → target_side l'.
Proof.
  intros Hg Hr. induction Hr as [l|l n c l' Hl Hc Hr IH]; [done|].
  intros Ht. apply IH. eapply new_in_target_side.
  by eapply (good_children h l).
Qed.


(** ** Reading the source after the copy *)

Lemma read_all_impl {A B} (read read' : A → option B) ls vs :
  (∀ l v, read l = Some v → read' l = Some v) →
  Store.read_all read ls = Some vs → Store.read_all read' ls = Some vs.
Proof.
  intros Hr. revert vs. induction ls as [|l ls IH]; intros vs; simpl; [done|].
  destruct (read l) as [x|] eqn:E; [|done].
  destruct (Store.read_all read ls) as [xs|]; [|done].
  intros [= <-]. by rewrite (Hr _ _ E), (IH xs).
Qed.

Section ReadAgreement.

Variable h : gmap positive Store.Node.
Variable bs0 : list positive.
Hypothesis out_body : h0 !! out = Some (Store.NBody bs0).
Hypothesis frame : ∀ l, l ∈ dom h0 → l ≠ out → h !! l = h0 !! l.

Lemma frame_lookup l n :
  h0 !! l = Some n → (∀ bs, n ≠ Store.NBody bs) → h !! l = Some n.
Proof.
  intros Hl Hn. rewrite frame, Hl; [done|by apply elem_of_dom|].
  intros ->. rewrite out_body in Hl. injection Hl as <-. by eapply Hn.
Qed.

Lemma read_run_agree l r : Store.read_run h0 l = Some r → Store.read_run h l = Some r.
Proof.
  unfold Store.read_run. destruct (h0 !! l) as [[r'| | | |]|] eqn:E; try done.
  intros [= <-]. by rewrite (frame_lookup _ _ E).
Qed.

Lemma read_paragraph_agree l p :
  Store.read_paragraph h0 l = Some p → Store.read_paragraph h l = Some p.
Proof.
  unfold Store.read_paragraph.
  destruct (h0 !! l) as [[| f rs | | |]|] eqn:E; try done.
  rewrite (frame_lookup _ _ E) by done.
  destruct (Store.read_all (Store.read_run h0) rs) as [vs|] eqn:E1; [|done].
  by rewrite (read_all_impl _ _ _ _ read_run_agree E1).
Qed.

Lemma read_cell_agree l c :
  Store.read_cell h0 l = Some c → Store.read_cell h l = Some c.
Proof.
  unfold Store.read_cell.
  destruct (h0 !! l) as [[| | sh ps | |]|] eqn:E; try done.
  rewrite (frame_lookup _ _ E) by done.
  destruct (Store.read_all (Store.read_paragraph h0) ps) as [vs|] eqn:E1; [|done].
  by rewrite (read_all_impl _ _ _ _ read_paragraph_agree E1).
Qed.

Lemma read_table_agree l t :
  Store.read_table h0 l = Some t → Store.read_table h l = Some t.
Proof.
  unfold Store.read_table.
  destruct (h0 !! l) as [[| | | b rows |]|] eqn:E; try done.
  rewrite (frame_lookup _ _ E) by done.
  destruct (Store.read_all (Store.read_all (Store.read_cell h0)) rows)
    as [vs|] eqn:E1; [|done].
  rewrite (read_all_impl _ (Store.read_all (Store.read_cell h)) _ _ 
             (fun l v => read_all_impl _ _ l v read_cell_agree) E1).
  done.
Qed.

Lemma read_block_agree l b :
  Store.read_block h0 l = Some b → Store.read_block h l = Some b.
Proof.
  unfold Store.read_block.
  destruct (h0 !! l) as [[| f rs | | br rows |]|] eqn:E; try done;
    rewrite (frame_lookup _ _ E) by done.
  - destruct (Store.read_paragraph h0 l) as [p|] eqn:E1; [|done].
    by rewrite (read_paragraph_agree _ _ E1).
  - destruct (Store.read_table h0 l) as [t|] eqn:E1; [|done].
    by rewrite (read_table_agree _ _ E1).
Qed.

Lemma read_document_agree orig d :
  orig ≠ out → Store.read_document h0 orig = Some d →
  Store.read_document h orig = Some d.
Proof.
  intros Hne. unfold Store.read_document.
  destruct (h0 !! orig) as [[| | | | bs]|] eqn:E; try done.
  rewrite frame, E; [|by apply elem_of_dom|done].
  apply read_all_impl, read_block_agree.
Qed.

End ReadAgreement.

End StoreProperties.


(** ** The copy read back *)

Section StoreRefinement.

Variable Pt_of_pt : Z → Z.
Variable line_spacing_of : Z → Z.

Lemma read_all_Some {A B} (read : A → option B) ls vs :
  Store.read_all read ls = Some vs ↔ Forall2 (λ l v, read l = Some v) ls vs.
Proof.
  revert vs. induction ls as [|l ls IH]; intros vs; simpl.
  - split; [intros [= <-]; constructor | by intros ->%Forall2_nil_inv_l].
  - split.
    + destruct (read l) as [x|] eqn:E; [|done].
      destruct (Store.read_all read ls) as [xs|] eqn:E2; [|done].
      intros [= <-]. constructor; [done|by apply IH].
    + intros (x & xs & Hx & Hxs & ->)%Forall2_cons_inv_l.
      rewrite Hx. apply IH in Hxs. by rewrite Hxs.
Qed.

Lemma mods_refl W h : Store.mods W h h.
Proof. by split. Qed.

Lemma mods_fresh W W' h1 h2 h3 :
  Store.mods W h1 h2 → Store.mods W' h2 h3 →
  (∀ w, w ∈ W' → w ∈ W ∨ w ∉ dom h1) → Store.mods W h1 h3.
Proof.
  intros [Hd1 H1] [Hd2 H2] HW. split; [set_solver|].
  intros l Hl HlW. rewrite H2, H1; [done|done|done|by apply Hd1|].
  intros Hw. destruct (HW l Hw); done.
Qed.

Lemma mods_trans W h1 h2 h3 :
  Store.mods W h1 h2 → Store.mods W h2 h3 → Store.mods W h1 h3.
Proof. intros H1 H2. eapply mods_fresh; [done|done|]. by left. Qed.

Lemma mods_weaken W W' h h' :
  Store.mods W h h' → (∀ w, w ∈ W → w ∈ W') → Store.mods W' h h'.
Proof. intros [Hd H] HW. split; [done|]. intros l Hl Hn. apply H; [done|]. by intros ?%HW. Qed.

Lemma mods_insert h w n : Store.mods [w] h (<[w:=n]> h).
Proof.
  split; [rewrite dom_insert_L; set_solver|].
  intros l Hl Hn. rewrite lookup_insert_ne; [done|]. intros ->. apply Hn. by left.
Qed.

Lemma mods_alloc W h n : Store.mods W h (Store.alloc n h).2.
Proof.
  unfold Store.alloc. simpl. split; [rewrite dom_insert_L; set_solver|].
  intros l Hl _. rewrite lookup_insert_ne; [done|].
  intros <-. by apply (is_fresh (dom h)).
Qed.

Lemma mods_lookup W h h' l n :
  Store.mods W h h' → h !! l = Some n → l ∉ W → h' !! l = Some n.
Proof. intros [_ H] Hl Hn. rewrite H; [done|by apply elem_of_dom|done]. Qed.

Lemma above_not_in h W k l n :
  Store.above h W k → h !! l = Some n → Store.rank n < k → l ∉ W.
Proof. intros Ha Hl Hr Hin. specialize (Ha l n Hin Hl). lia. Qed.

Lemma above_single h w n k :
  h !! w = Some n → k ≤ Store.rank n → Store.above h [w] k.
Proof.
  intros Hw Hk w' n' ->%list_elem_of_singleton Hw'. by simplify_eq.
Qed.

Lemma above_weaken h W k k' : Store.above h W k → k' ≤ k → Store.above h W k'.
Proof. intros Ha Hk w n Hw Hn. specialize (Ha w n Hw Hn). lia. Qed.

Lemma above_fresh h W k : (∀ w, w ∈ W → w ∉ dom h) → Store.above h W k.
Proof. intros H w n Hw Hn. destruct (H w Hw). by apply elem_of_dom. Qed.

(** *** What has been read stays as it was where nothing is written *)

Section Stable.

Variable W : list positive.
Variables h h' : gmap positive Store.Node.
Hypothesis Hmods : Store.mods W h h'.

Lemma read_run_stable l r :
  l ∉ W → Store.read_run h l = Some r → Store.read_run h' l = Some r.
Proof.
  unfold Store.read_run. intros Hn.
  destruct (h !! l) as [[r'| | | |]|] eqn:E; try done.
  intros [= <-]. by rewrite (mods_lookup _ _ _ _ _ Hmods E Hn).
Qed.

Lemma read_runs_stable rs vs :
  Store.above h W 1 →
  Forall2 (λ l v, Store.read_run h l = Some v) rs vs →
  Forall2 (λ l v, Store.read_run h' l = Some v) rs vs.
Proof.
  intros Ha HF. eapply Forall2_impl; [exact HF|]. cbv beta. intros l v Hl. apply read_run_stable; [|done].
  unfold Store.read_run in Hl. destruct (h !! l) as [[r'| | | |]|] eqn:E; try done.
  eapply above_not_in; [done|done|simpl; lia].
Qed.

Lemma read_paragraph_stable l p :
  Store.above h W 1 → l ∉ W →
  Store.read_paragraph h l = Some p → Store.read_paragraph h' l = Some p.
Proof.
  unfold Store.read_paragraph. intros Ha Hn.
  destruct (h !! l) as [[| f rs | | |]|] eqn:E; try done.
  rewrite (mods_lookup _ _ _ _ _ Hmods E Hn).
  destruct (Store.read_all (Store.read_run h) rs) as [vs|] eqn:E1; [|done].
  apply read_all_Some, (read_runs_stable _ _ Ha), read_all_Some in E1.
  by rewrite E1.
Qed.

Lemma read_paragraphs_stable ps vs :
  Store.above h W 2 →
  Forall2 (λ l v, Store.read_paragraph h l = Some v) ps vs →
  Forall2 (λ l v, Store.read_paragraph h' l = Some v) ps vs.
Proof.
  intros Ha HF. eapply Forall2_impl; [exact HF|]. cbv beta. intros l v Hl.
  apply read_paragraph_stable; [eapply above_weaken; [done|lia]| |done].
  unfold Store.read_paragraph in Hl.
  destruct (h !! l) as [[| f rs | | |]|] eqn:E; try done.
  eapply above_not_in; [done|done|simpl; lia].
Qed.

Lemma read_cell_stable l c :
  Store.above h W 2 → l ∉ W →
  Store.read_cell h l = Some c → Store.read_cell h' l = Some c.
Proof.
  unfold Store.read_cell. intros Ha Hn.
  destruct (h !! l) as [[| | sh ps | |]|] eqn:E; try done.
  rewrite (mods_lookup _ _ _ _ _ Hmods E Hn).
  destruct (Store.read_all (Store.read_paragraph h) ps) as [vs|] eqn:E1; [|done].
  apply read_all_Some, (read_paragraphs_stable _ _ Ha), read_all_Some in E1.
  by rewrite E1.
Qed.

Lemma read_cells_stable cs vs :
  Store.above h W 3 →
  Forall2 (λ l v, Store.read_cell h l = Some v) cs vs →
  Forall2 (λ l v, Store.read_cell h' l = Some v) cs vs.
Proof.
  intros Ha HF. eapply Forall2_impl; [exact HF|]. cbv beta. intros l v Hl.
  apply read_cell_stable; [eapply above_weaken; [done|lia]| |done].
  unfold Store.read_cell in Hl.
  destruct (h !! l) as [[| | sh ps | |]|] eqn:E; try done.
  eapply above_not_in; [done|done|simpl; lia].
Qed.

Lemma read_table_stable l t :
  Store.above h W 3 → l ∉ W →
  Store.read_table h l = Some t → Store.read_table h' l = Some t.
Proof.
  unfold Store.read_table. intros Ha Hn.
  destruct (h !! l) as [[| | | b rows |]|] eqn:E; try done.
  rewrite (mods_lookup _ _ _ _ _ Hmods E Hn).
  destruct (Store.read_all (Store.read_all (Store.read_cell h)) rows)
    as [vs|] eqn:E1; [|done].
  assert (E2 : Store.read_all (Store.read_all (Store.read_cell h')) rows = Some vs).
  { apply read_all_Some. apply read_all_Some in E1.
    eapply Forall2_impl; [exact E1|]. intros row v Hr. simpl in Hr.
    by apply read_all_Some, read_cells_stable, read_all_Some. }
  by rewrite E2.
Qed.

Lemma read_block_stable l b :
  Store.above h W 4 →
  Store.read_block h l = Some b → Store.read_block h' l = Some b.
Proof.
  unfold Store.read_block. intros Ha.
  destruct (h !! l) as [[| f rs | | br rows |]|] eqn:E; try done.
  - assert (Hn : l ∉ W) by (eapply above_not_in; [done|done|simpl; lia]).
    rewrite (mods_lookup _ _ _ _ _ Hmods E Hn).
    destruct (Store.read_paragraph h l) as [p|] eqn:E1; [|done].
    by rewrite (read_paragraph_stable _ _ (above_weaken _ _ _ 1 Ha ltac:(lia)) Hn E1).
  - assert (Hn : l ∉ W) by (eapply above_not_in; [done|done|simpl; lia]).
    rewrite (mods_lookup _ _ _ _ _ Hmods E Hn).
    destruct (Store.read_table h l) as [t|] eqn:E1; [|done].
    by rewrite (read_table_stable _ _ (above_weaken _ _ _ 3 Ha ltac:(lia)) Hn E1).
Qed.

Lemma read_blocks_stable bs vs :
  Store.above h W 4 →
  Forall2 (λ l v, Store.read_block h l = Some v) bs vs →
  Forall2 (λ l v, Store.read_block h' l = Some v) bs vs.
Proof.
  intros Ha HF. eapply Forall2_impl; [exact HF|]. cbv beta.
  intros l v. by apply read_block_stable.
Qed.

End Stable.


(** *** The paragraphs *)

Lemma add_run_spec target r h f rs :
  h !! target = Some (Store.NParagraph f rs) →
  Store.mods [target] h (Store.add_run target r h) ∧
  (Store.add_run target r h) !! target = Some (Store.NParagraph f (rs ++ [fresh (dom h)])) ∧
  (Store.add_run target r h) !! fresh (dom h) = Some (Store.NRun r) ∧
  fresh (dom h) ∉ dom h.
Proof.
  intros Ht. unfold Store.add_run, Store.alloc. rewrite Ht.
  pose proof (is_fresh (dom h)) as Hf.
  assert (Hne : fresh (dom h) ≠ target).
  { intros E. apply Hf. rewrite E. by apply elem_of_dom. }
  split; [|split; [|split]].
  - eapply mods_trans; [apply (mods_alloc _ h (Store.NRun r))|apply mods_insert].
  - by rewrite lookup_insert_eq.
  - by rewrite lookup_insert_ne, lookup_insert_eq.
  - done.
Qed.

Lemma add_runs_spec target F vs : ∀ h rs acc,
  h !! target = Some (Store.NParagraph F rs) →
  Forall2 (λ l v, Store.read_run h l = Some v) rs acc →
  let h' := foldl (λ h r, Store.add_run target (copy_run r) h) h vs in
  Store.mods [target] h h' ∧
  ∃ rs', h' !! target = Some (Store.NParagraph F rs') ∧
    Forall2 (λ l v, Store.read_run h' l = Some v) rs' (acc ++ map copy_run vs) ∧
    (∀ l, l ∈ rs' → l ∈ rs ∨ l ∉ dom h).
Proof.
  induction vs as [|v vs IH]; intros h rs acc Ht Hrs; simpl.
  - split; [apply mods_refl|]. exists rs. rewrite app_nil_r. by auto.
  - destruct (add_run_spec target (copy_run v) h F rs Ht) as (Hm & Ht1 & Hl1 & Hf).
    set (h1 := Store.add_run target (copy_run v) h) in *.
    assert (Ha : Store.above h [target] 1)
      by (eapply above_single; [done|simpl; lia]).
    assert (Hrs1 : Forall2 (λ l v, Store.read_run h1 l = Some v)
                     (rs ++ [fresh (dom h)]) (acc ++ [copy_run v])).
    { apply Forall2_app; [by eapply read_runs_stable|].
      constructor; [|constructor]. unfold Store.read_run. by rewrite Hl1. }
    destruct (IH h1 _ _ Ht1 Hrs1) as (Hm2 & rs' & Ht2 & Hrs2 & Hnew).
    split; [by eapply mods_trans|]. exists rs'. split; [done|].
    split; [by rewrite <- app_assoc in Hrs2|].
    intros l Hl. destruct (Hnew l Hl) as [Hin|Hout].
    + apply elem_of_app in Hin as [?| ->%list_elem_of_singleton]; [by left|by right].
    + right. intros Hd. apply Hout. by apply Hm.
Qed.

Lemma run_values_read h rs vs :
  Forall2 (λ l v, Store.read_run h l = Some v) rs vs → Store.run_values h rs = vs.
Proof.
  induction 1 as [|l v rs vs Hl _ IH]; [done|].
  unfold Store.run_values in *. simpl. rewrite IH.
  unfold Store.read_run in Hl. destruct (h !! l) as [[r| | | |]|]; try done.
  by injection Hl as ->.
Qed.

Lemma read_paragraph_Some h l p :
  Store.read_paragraph h l = Some p ↔
  ∃ rs, h !! l = Some (Store.NParagraph (pformat p) rs) ∧
        Forall2 (λ l v, Store.read_run h l = Some v) rs (runs p).
Proof.
  unfold Store.read_paragraph. split.
  - destruct (h !! l) as [[| f rs | | |]|]; try done.
    destruct (Store.read_all (Store.read_run h) rs) as [vs|] eqn:E; [|done].
    intros [= <-]. exists rs. split; [done|]. by apply read_all_Some.
  - intros (rs & -> & Hrs). apply read_all_Some in Hrs. rewrite Hrs. by destruct p.
Qed.

Lemma deep_copy_paragraph_spec source target h sv ft rs_t :
  Store.read_paragraph h source = Some sv →
  h !! target = Some (Store.NParagraph ft rs_t) →
  source ≠ target →
  let h' := Store.deep_copy_paragraph Pt_of_pt line_spacing_of source target h in
  Store.mods [target] h h' ∧
  Store.read_paragraph h' target =
    Some (deep_copy_paragraph Pt_of_pt line_spacing_of sv (mkParagraph ft [])) ∧
  ∃ rs', h' !! target =
           Some (Store.NParagraph (copy_format Pt_of_pt line_spacing_of (pformat sv) ft) rs') ∧
         (∀ l, l ∈ rs' → l ∉ dom h).
Proof.
  intros (rs & Hs & Hrs)%read_paragraph_Some Ht Hne.
  unfold Store.deep_copy_paragraph. rewrite Hs, Ht.
  set (F := copy_format Pt_of_pt line_spacing_of (pformat sv) ft).
  set (h1 := <[target := Store.NParagraph F []]> h).
  assert (Hm1 : Store.mods [target] h h1) by apply mods_insert.
  assert (Ha : Store.above h [target] 1)
    by (eapply above_single; [done|simpl; lia]).
  assert (Hs1 : h1 !! source = Some (Store.NParagraph (pformat sv) rs)).
  { unfold h1. by rewrite lookup_insert_ne. }
  rewrite Hs1.
  pose proof (read_runs_stable _ _ _ Hm1 _ _ Ha Hrs) as Hrs1.
  rewrite (run_values_read _ _ _ Hrs1).
  destruct (add_runs_spec target F (runs sv) h1 [] [])
    as (Hm2 & rs' & Ht2 & Hrs2 & Hnew).
  { unfold h1. by rewrite lookup_insert_eq. }
  { constructor. }
  split; [by eapply mods_trans|]. split.
  - apply read_paragraph_Some. exists rs'. by split.
  - exists rs'. split; [done|]. intros l Hl.
    destruct (Hnew l Hl) as [Hin|Hout]; [inversion Hin|].
    intros Hd. apply Hout. by apply Hm1.
Qed.

Lemma add_paragraph_spec container h :
  let p := fresh (dom h) in
  let h' := (Store.add_paragraph container h).2 in
  (Store.add_paragraph container h).1 = p ∧ (p ∉ dom h) ∧
  Store.mods [container] h h' ∧
  h' !! p = Some (Store.NParagraph default_format []) ∧
  (∀ sh ps, h !! container = Some (Store.NCell sh ps) →
            h' !! container = Some (Store.NCell sh (ps ++ [p]))) ∧
  (∀ bs, h !! container = Some (Store.NBody bs) →
         h' !! container = Some (Store.NBody (bs ++ [p]))).
Proof.
  unfold Store.add_paragraph, Store.alloc. cbn [fst snd].
  pose proof (is_fresh (dom h)) as Hf.
  set (p := fresh (dom h)) in *.
  set (h1 := <[p := Store.NParagraph default_format []]> h).
  assert (Hm1 : Store.mods [container] h h1)
    by apply (mods_alloc _ h (Store.NParagraph default_format [])).
  assert (Hp1 : h1 !! p = Some (Store.NParagraph default_format []))
    by (unfold h1; by rewrite lookup_insert_eq).
  assert (Hc : ∀ n, h !! container = Some n → p ≠ container ∧ h1 !! container = Some n).
  { intros n Hn. assert (p ≠ container).
    { intros E. apply Hf. rewrite E. by apply elem_of_dom. }
    split; [done|]. unfold h1. by rewrite lookup_insert_ne. }
  split; [done|]. split; [done|].
  split; [|split; [|split]].
  - destruct (h1 !! container) as [[| | sh ps | | bs]|]; try done;
      (eapply mods_trans; [exact Hm1|apply mods_insert]).
  - destruct (h1 !! container) as [[| | sh ps | | bs]|] eqn:E; try done;
      (rewrite lookup_insert_ne; [done|]); intros <-; by rewrite Hp1 in E.
  - intros sh ps Hn. destruct (Hc _ Hn) as [_ ->]. by rewrite lookup_insert_eq.
  - intros bs Hn. destruct (Hc _ Hn) as [_ ->]. by rewrite lookup_insert_eq.
Qed.


Lemma set_color_lookup c run h l :
  (Store.set_color c run h) !! l =
    if decide (l = run) then Store.color_node c <$> h !! l else h !! l.
Proof.
  unfold Store.set_color. destruct (decide (l = run)) as [->|Hne].
  - destruct (h !! run) as [[r| | | |]|] eqn:E; rewrite ?E; try done.
    by rewrite lookup_insert_eq.
  - destruct (h !! run) as [[r| | | |]|] eqn:E; try done.
    by rewrite lookup_insert_ne.
Qed.

Lemma color_node_idemp c n :
  Store.color_node c (Store.color_node c n) = Store.color_node c n.
Proof. by destruct n. Qed.

Lemma set_colors_lookup c rs : ∀ h l,
  (foldl (λ h r, Store.set_color c r h) h rs) !! l =
    if decide (l ∈ rs) then Store.color_node c <$> h !! l else h !! l.
Proof.
  induction rs as [|r rs IH]; intros h l; simpl.
  - destruct (decide (l ∈ [])) as [Hin|]; [inversion Hin|done].
  - rewrite IH, set_color_lookup. destruct (decide (l = r)) as [E|Hne].
    + subst l. rewrite (decide_True (P := r ∈ r :: rs)) by (by left).
      destruct (decide (r ∈ rs)); [|done].
      destruct (h !! r) as [n|]; [|done]. simpl. by rewrite color_node_idemp.
    + destruct (decide (l ∈ rs)) as [Hin|Hnin],
        (decide (l ∈ r :: rs)) as [Hin'|Hnin']; try done.
      * destruct Hnin'. by right.
      * apply elem_of_cons in Hin' as [?|?]; done.
Qed.

Lemma recolor_spec color p h v :
  Store.read_paragraph h p = Some v →
  let h' := Store.recolor color p h in
  (∃ rs, h !! p = Some (Store.NParagraph (pformat v) rs) ∧ Store.mods rs h h') ∧
  (∀ l, l ∈ dom h' → l ∈ dom h) ∧
  (∀ l n, h !! l = Some n → 1 ≤ Store.rank n → h' !! l = Some n) ∧
  Store.read_paragraph h' p = Some (recolor color v).
Proof.
  intros (rs & Hp & Hrs)%read_paragraph_Some. unfold Store.recolor.
  destruct color as [c|]; simpl.
  2:{ split; [exists rs; split; [done|apply mods_refl]|].
      split; [done|]. split; [done|].
      apply read_paragraph_Some. by exists rs. }
  rewrite Hp.
  set (h' := foldl (λ h r, Store.set_color c r h) h rs).
  assert (Hl : ∀ l, h' !! l =
            if decide (l ∈ rs) then Store.color_node c <$> h !! l else h !! l)
    by apply set_colors_lookup.
  assert (Hk : ∀ l n, h !! l = Some n → 1 ≤ Store.rank n → h' !! l = Some n).
  { intros l n Hn Hr. rewrite Hl, Hn. destruct (decide (l ∈ rs)); [|done].
    destruct n; simpl in *; [lia|done..]. }
  split; [|split; [|split]].
  - exists rs. split; [done|]. split.
    + intros l [n Hn]%elem_of_dom. apply elem_of_dom. rewrite Hl, Hn.
      by destruct (decide (l ∈ rs)).
    + intros l _ Hn. rewrite Hl. by destruct (decide (l ∈ rs)).
  - intros l [n Hn]%elem_of_dom. apply elem_of_dom. rewrite Hl in Hn.
    destruct (decide (l ∈ rs)); [|done]. by destruct (h !! l).
  - done.
  - apply read_paragraph_Some. exists rs. split; [by apply Hk; [|simpl; lia]|].
    assert (Hgen : ∀ rs1 vs, (∀ l, l ∈ rs1 → l ∈ rs) →
              Forall2 (λ l v, Store.read_run h l = Some v) rs1 vs →
              Forall2 (λ l v, Store.read_run h' l =
                 Some (mkRun (run_text v) (bold v) (italic v) (underline v)
                         (font_name v) (font_size v) (Some c) (run_shading v)))
                rs1 vs).
    { intros rs1 vs Hall HF.
      induction HF as [|l r rs1 vs Hr _ IH]; [constructor|].
      constructor.
      - unfold Store.read_run in *. rewrite Hl.
        destruct (decide (l ∈ rs)) as [|Hn]; [|destruct Hn; apply Hall; by left].
        destruct (h !! l) as [[r'| | | |]|]; try done. by injection Hr as ->.
      - apply IH. intros l' Hl'. apply Hall. by right. }
    simpl. apply Forall2_fmap_r.
    eapply Forall2_impl; [exact (Hgen rs _ (λ _ H, H) Hrs)|].
    intros l r H. exact H.
Qed.

(** *** The cells *)

Lemma read_cell_Some h l c :
  Store.read_cell h l = Some c ↔
  ∃ ps, h !! l = Some (Store.NCell (cell_shading c) ps) ∧
        Forall2 (λ l v, Store.read_paragraph h l = Some v) ps (cell_paragraphs c).
Proof.
  unfold Store.read_cell. split.
  - destruct (h !! l) as [[| | sh ps | |]|]; try done.
    destruct (Store.read_all (Store.read_paragraph h) ps) as [vs|] eqn:E; [|done].
    intros [= <-]. exists ps. split; [done|]. by apply read_all_Some.
  - intros (ps & -> & Hps). apply read_all_Some in Hps. rewrite Hps. by destruct c.
Qed.

Lemma cell_step_spec color tc h sp spv sh ps acc :
  h !! tc = Some (Store.NCell sh ps) →
  Forall2 (λ l v, Store.read_paragraph h l = Some v) ps acc →
  Store.read_paragraph h sp = Some spv →
  let h' := (let (tp, h1) := Store.add_paragraph tc h in
             Store.recolor color tp
               (Store.deep_copy_paragraph Pt_of_pt line_spacing_of sp tp h1)) in
  Store.mods [tc] h h' ∧
  ∃ ps', h' !! tc = Some (Store.NCell sh ps') ∧
    Forall2 (λ l v, Store.read_paragraph h' l = Some v) ps'
      (acc ++ [recolor color
                 (deep_copy_paragraph Pt_of_pt line_spacing_of spv (new_paragraph []))]).
Proof.
  intros Htc Hps Hsp.
  destruct (add_paragraph_spec tc h) as (Hp & Hf & Hm1 & Hp1 & Hc1 & _).
  destruct (Store.add_paragraph tc h) as [tp h1]. cbn [fst snd] in *. subst tp.
  set (p := fresh (dom h)) in *.
  specialize (Hc1 _ _ Htc).
  assert (Ha : Store.above h [tc] 2) by (eapply above_single; [done|simpl; lia]).
  assert (Htcp : tc ≠ p).
  { intros E. apply Hf. rewrite <- E. by apply elem_of_dom. }
  assert (Hsp1 : Store.read_paragraph h1 sp = Some spv).
  { pose proof (read_paragraphs_stable _ _ _ Hm1 [sp] [spv] Ha
                  ltac:(by constructor)) as Hx.
    by apply Forall2_cons_1 in Hx as [Hx _]. }
  assert (Hspp : sp ≠ p).
  { intros E. apply Hf. rewrite <- E.
    apply read_paragraph_Some in Hsp as (? & Hsp & _). by apply elem_of_dom. }
  destruct (deep_copy_paragraph_spec sp p h1 spv default_format [] Hsp1 Hp1 Hspp)
    as (Hm2 & Hr2 & rs' & Hp2 & Hnew).
  set (h2 := Store.deep_copy_paragraph Pt_of_pt line_spacing_of sp p h1) in *.
  destruct (recolor_spec color p h2 _ Hr2) as ((rs2 & Hp2' & Hm3) & _ & Hk3 & Hr3).
  set (h3 := Store.recolor color p h2) in *.
  assert (rs2 = rs') by (rewrite Hp2 in Hp2'; by simplify_eq). subst rs2.
  assert (Hm12 : Store.mods [tc] h h2).
  { eapply mods_fresh; [exact Hm1|exact Hm2|].
    intros w ->%list_elem_of_singleton. by right. }
  assert (Hm : Store.mods [tc] h h3).
  { eapply mods_fresh; [exact Hm12|exact Hm3|].
    intros w Hw. right. intros Hd. apply (Hnew w Hw). by apply Hm1. }
  split; [done|]. exists (ps ++ [p]). split.
  - apply Hk3; [|simpl; lia].
    eapply mods_lookup; [exact Hm2|done|].
    by intros ->%list_elem_of_singleton.
  - apply Forall2_app; [by eapply read_paragraphs_stable|].
    constructor; [|constructor]. exact Hr3.
Qed.


Lemma cell_steps_spec color tc sps : ∀ spvs h sh ps acc,
  h !! tc = Some (Store.NCell sh ps) →
  Forall2 (λ l v, Store.read_paragraph h l = Some v) ps acc →
  Forall2 (λ l v, Store.read_paragraph h l = Some v) sps spvs →
  let h' := foldl (λ h source_p,
                     let (target_p, h1) := Store.add_paragraph tc h in
                     Store.recolor color target_p
                       (Store.deep_copy_paragraph Pt_of_pt line_spacing_of
                          source_p target_p h1)) h sps in
  Store.mods [tc] h h' ∧
  ∃ ps', h' !! tc = Some (Store.NCell sh ps') ∧
    Forall2 (λ l v, Store.read_paragraph h' l = Some v) ps'
      (acc ++ map (λ spv, recolor color
                     (deep_copy_paragraph Pt_of_pt line_spacing_of spv (new_paragraph [])))
                  spvs).
Proof.
  induction sps as [|sp sps IH]; intros spvs h sh ps acc Htc Hps Hsps.
  - apply Forall2_nil_inv_l in Hsps as ->. simpl.
    split; [apply mods_refl|]. exists ps. by rewrite app_nil_r.
  - apply Forall2_cons_inv_l in Hsps as (spv & spvs' & Hsp & Hsps & ->).
    cbn [foldl map].
    destruct (cell_step_spec color tc h sp spv sh ps acc Htc Hps Hsp)
      as (Hm1 & ps1 & Htc1 & Hps1).
    match goal with |- context [foldl _ ?x sps] => set (h1 := x) in * end.
    assert (Ha : Store.above h [tc] 2) by (eapply above_single; [done|simpl; lia]).
    pose proof (read_paragraphs_stable _ _ _ Hm1 _ _ Ha Hsps) as Hsps1.
    destruct (IH spvs' h1 sh ps1 _ Htc1 Hps1 Hsps1) as (Hm2 & ps2 & Htc2 & Hps2).
    split; [by eapply mods_trans|]. exists ps2. split; [done|].
    by rewrite <- app_assoc in Hps2.
Qed.

Lemma copy_cell_into_spec color h sc tc scv :
  Store.read_cell h sc = Some scv →
  Store.read_cell h tc = Some Store.fresh_cell →
  sc ≠ tc →
  let h' := Store.copy_cell_into Pt_of_pt line_spacing_of color h (sc, tc) in
  Store.mods [tc] h h' ∧
  Store.read_cell h' tc = Some (copy_cell Pt_of_pt line_spacing_of color scv).
Proof.
  intros (sps & Hsc & Hsps)%read_cell_Some (ps & Htc & Hps)%read_cell_Some Hne.
  simpl in Htc, Hps. unfold Store.copy_cell_into. rewrite Hsc.
  set (sh' := match copied_shading (cell_shading scv) with
              | Some _ => Some (Py.lit "8A084B")
              | None => None
              end).
  set (h1 := match copied_shading (cell_shading scv), h !! tc with
             | Some _, Some (Store.NCell _ ps) =>
               <[tc := Store.NCell (Some (Py.lit "8A084B")) ps]> h
             | _, _ => h
             end).
  assert (Hh1 : Store.mods [tc] h h1 ∧ h1 !! tc = Some (Store.NCell sh' ps)).
  { unfold h1, sh'. rewrite Htc. destruct (copied_shading (cell_shading scv)).
    - split; [apply mods_insert|by rewrite lookup_insert_eq].
    - split; [apply mods_refl|done]. }
  destruct Hh1 as [Hm1 Htc1].
  assert (Ha : Store.above h [tc] 2) by (eapply above_single; [done|simpl; lia]).
  pose proof (read_paragraphs_stable _ _ _ Hm1 _ _ Ha Hsps) as Hsps1.
  pose proof (read_paragraphs_stable _ _ _ Hm1 _ _ Ha Hps) as Hps1.
  destruct (cell_steps_spec color tc sps _ h1 sh' ps _ Htc1 Hps1 Hsps1)
    as (Hm2 & ps2 & Htc2 & Hps2).
  split; [by eapply mods_trans|].
  apply read_cell_Some. exists ps2. by split.
Qed.

(** *** The tables *)

Lemma subseteq_mods W (h h' : gmap positive Store.Node) : h ⊆ h' → Store.mods W h h'.
Proof.
  intros Hs. split; [by apply subseteq_dom|].
  intros l [n Hn]%elem_of_dom _. rewrite Hn. by eapply lookup_weaken.
Qed.

Lemma read_cell_weaken (h h' : gmap positive Store.Node) l c :
  h ⊆ h' → Store.read_cell h l = Some c → Store.read_cell h' l = Some c.
Proof.
  intros Hs. apply (read_cell_stable [] h h' (subseteq_mods [] h h' Hs)).
  - intros w n Hw. inversion Hw.
  - intros Hw. inversion Hw.
Qed.

Lemma alloc_subseteq n (h : gmap positive Store.Node) : h ⊆ (Store.alloc n h).2.
Proof.
  unfold Store.alloc. simpl. apply insert_subseteq, not_elem_of_dom, is_fresh.
Qed.

Lemma new_cell_spec h :
  h ⊆ (Store.new_cell h).2 ∧ ((Store.new_cell h).1 ∉ dom h) ∧
  Store.read_cell (Store.new_cell h).2 (Store.new_cell h).1 = Some Store.fresh_cell.
Proof.
  unfold Store.new_cell, Store.alloc. cbn [fst snd].
  pose proof (is_fresh (dom h)) as Hf. set (p := fresh (dom h)) in *.
  set (h1 := <[p := Store.NParagraph default_format []]> h).
  pose proof (is_fresh (dom h1)) as Hf1. set (c := fresh (dom h1)) in *.
  assert (Hs1 : h ⊆ h1) by (by apply insert_subseteq, not_elem_of_dom).
  assert (Hs2 : h1 ⊆ <[c := Store.NCell None [p]]> h1)
    by (by apply insert_subseteq, not_elem_of_dom).
  split; [by etrans|]. split.
  - intros Hc. apply Hf1. by eapply (subseteq_dom h h1).
  - apply read_cell_Some. exists [p]. split; [by rewrite lookup_insert_eq|].
    constructor; [|constructor]. apply read_paragraph_Some. exists [].
    split; [|constructor]. simpl. rewrite lookup_insert_ne.
    + unfold h1. by rewrite lookup_insert_eq.
    + intros E. apply Hf1. rewrite E. unfold h1. rewrite dom_insert_L.
      apply elem_of_union_l. by apply elem_of_singleton.
Qed.

Lemma new_cells_spec n : ∀ h,
  h ⊆ (Store.new_cells n h).2 ∧ length (Store.new_cells n h).1 = n ∧
  NoDup (Store.new_cells n h).1 ∧
  Forall (λ c, (c ∉ dom h) ∧
               Store.read_cell (Store.new_cells n h).2 c = Some Store.fresh_cell)
         (Store.new_cells n h).1.
Proof.
  induction n as [|n IH]; intros h; cbn [Store.new_cells].
  - cbn [fst snd]. split; [done|]. split; [done|]. split; constructor.
  - destruct (new_cell_spec h) as (Hs1 & Hf1 & Hr1).
    destruct (Store.new_cell h) as [c h1]. cbn [fst snd] in *.
    destruct (IH h1) as (Hs2 & Hlen & Hnd & Hall).
    destruct (Store.new_cells n h1) as [cs h2]. cbn [fst snd] in *.
    split; [by etrans|]. split; [by rewrite <- Hlen|].
    rewrite Forall_forall in Hall. split.
    + constructor; [|done]. intros Hin. destruct (Hall c Hin) as [Hc _].
      apply Hc. apply read_cell_Some in Hr1 as (? & Hr1 & _). by apply elem_of_dom.
    + constructor.
      * split; [done|]. by eapply read_cell_weaken.
      * apply Forall_forall. intros c' Hin. destruct (Hall c' Hin) as [Hc Hr].
        split; [|done]. intros Hd. apply Hc. by eapply (subseteq_dom h h1).
Qed.

Lemma new_rows_spec shape : ∀ h,
  h ⊆ (Store.new_rows shape h).2 ∧
  map length (Store.new_rows shape h).1 = shape ∧
  NoDup (concat (Store.new_rows shape h).1) ∧
  Forall (λ c, (c ∉ dom h) ∧
               Store.read_cell (Store.new_rows shape h).2 c = Some Store.fresh_cell)
         (concat (Store.new_rows shape h).1).
Proof.
  induction shape as [|n shape IH]; intros h; cbn [Store.new_rows].
  - cbn [fst snd concat]. split; [done|]. split; [done|]. split; constructor.
  - destruct (new_cells_spec n h) as (Hs1 & Hlen1 & Hnd1 & Hall1).
    destruct (Store.new_cells n h) as [row h1]. cbn [fst snd] in *.
    destruct (IH h1) as (Hs2 & Hlen & Hnd & Hall).
    destruct (Store.new_rows shape h1) as [rows h2]. cbn [fst snd concat map] in *.
    rewrite Forall_forall in Hall, Hall1.
    split; [by etrans|]. split; [by rewrite Hlen1, Hlen|]. split.
    + apply NoDup_app. split; [done|]. split; [|done].
      intros c Hc Hc'. destruct (Hall1 c Hc) as [_ Hr], (Hall c Hc') as [Hn _].
      apply Hn. apply read_cell_Some in Hr as (? & Hr & _). by apply elem_of_dom.
    + apply Forall_app. split; apply Forall_forall; intros c Hc.
      * destruct (Hall1 c Hc) as [Hn Hr]. split; [done|]. by eapply read_cell_weaken.
      * destruct (Hall c Hc) as [Hn Hr]. split; [|done].
        intros Hd. apply Hn. by eapply (subseteq_dom h h1).
Qed.


Lemma read_table_Some h l t :
  Store.read_table h l = Some t ↔
  ∃ rows_, h !! l = Some (Store.NTable (single_borders t) rows_) ∧
    Forall2 (Forall2 (λ l v, Store.read_cell h l = Some v)) rows_ (rows t).
Proof.
  unfold Store.read_table. split.
  - destruct (h !! l) as [[| | | b rs |]|]; try done.
    destruct (Store.read_all (Store.read_all (Store.read_cell h)) rs)
      as [vs|] eqn:E; [|done].
    intros [= <-]. exists rs. split; [done|]. simpl.
    apply read_all_Some in E. eapply Forall2_impl; [exact E|].
    intros row v Hr. by apply read_all_Some.
  - intros (rs & -> & Hrs).
    assert (E : Store.read_all (Store.read_all (Store.read_cell h)) rs = Some (rows t)).
    { apply read_all_Some. eapply Forall2_impl; [exact Hrs|].
      intros row v Hr. by apply read_all_Some. }
    rewrite E. by destruct t.
Qed.

Lemma add_table_spec shape doc h bs :
  h !! doc = Some (Store.NBody bs) →
  let t := (Store.add_table shape doc h).1 in
  let h' := (Store.add_table shape doc h).2 in
  Store.mods [doc] h h' ∧ (t ∉ dom h) ∧
  h' !! doc = Some (Store.NBody (bs ++ [t])) ∧
  ∃ rows_, h' !! t = Some (Store.NTable true rows_) ∧
    map length rows_ = shape ∧ NoDup (concat rows_) ∧ (t ∉ concat rows_) ∧
    Forall (λ c, (c ∉ dom h) ∧ Store.read_cell h' c = Some Store.fresh_cell)
           (concat rows_).
Proof.
  intros Hdoc. unfold Store.add_table.
  destruct (new_rows_spec shape h) as (Hs1 & Hlen & Hnd & Hall).
  destruct (Store.new_rows shape h) as [rows_ h1]. cbn [fst snd] in *.
  unfold Store.alloc.
  pose proof (is_fresh (dom h1)) as Hf. set (t := fresh (dom h1)) in *.
  set (h2 := <[t := Store.NTable true rows_]> h1).
  assert (Hs2 : h1 ⊆ h2) by (by apply insert_subseteq, not_elem_of_dom).
  assert (Hd1 : h1 !! doc = Some (Store.NBody bs))
    by exact (lookup_weaken _ _ _ _ Hdoc Hs1).
  assert (Hd2 : h2 !! doc = Some (Store.NBody bs))
    by exact (lookup_weaken _ _ _ _ Hd1 Hs2).
  rewrite Hd2. cbn [fst snd].
  assert (Htd : t ≠ doc).
  { intros E. apply Hf. rewrite E. by apply elem_of_dom. }
  assert (Hm2 : Store.mods [doc] h h2) by (apply subseteq_mods; by etrans).
  assert (Hm3 : Store.mods [doc] h2 (<[doc := Store.NBody (bs ++ [t])]> h2))
    by apply mods_insert.
  rewrite Forall_forall in Hall.
  split; [by eapply mods_trans|]. split.
  { intros Hd. apply Hf. by eapply (subseteq_dom h h1). }
  split; [by rewrite lookup_insert_eq|].
  exists rows_. split.
  { rewrite lookup_insert_ne by done. unfold h2. by rewrite lookup_insert_eq. }
  split; [done|]. split; [done|]. split.
  { intros Hin. destruct (Hall t Hin) as [_ Hr].
    apply read_cell_Some in Hr as (? & Hr & _). apply Hf. by apply elem_of_dom. }
  apply Forall_forall. intros c Hc. destruct (Hall c Hc) as [Hn Hr].
  split; [done|].
  eapply (read_cell_stable [doc] h2); [exact Hm3| | |by eapply read_cell_weaken].
  - eapply above_single; [exact Hd2|simpl; lia].
  - intros ->%list_elem_of_singleton. apply Hn. by apply elem_of_dom.
Qed.

Lemma copy_cells_spec color : ∀ pairs scvs h,
  Forall2 (λ l v, Store.read_cell h l = Some v) (pairs.*1) scvs →
  Forall (λ c, Store.read_cell h c = Some Store.fresh_cell) (pairs.*2) →
  NoDup (pairs.*2) →
  (∀ sc tc, sc ∈ pairs.*1 → tc ∈ pairs.*2 → sc ≠ tc) →
  let h' := foldl (Store.copy_cell_into Pt_of_pt line_spacing_of color) h pairs in
  Store.mods (pairs.*2) h h' ∧
  Forall2 (λ l v, Store.read_cell h' l =
                    Some (copy_cell Pt_of_pt line_spacing_of color v))
          (pairs.*2) scvs.
Proof.
  induction pairs as [|[sc tc] pairs IH]; intros scvs h Hsrc Htgt Hnd Hdis.
  - apply Forall2_nil_inv_l in Hsrc as ->. simpl.
    split; [apply mods_refl|constructor].
  - cbn [fmap list_fmap fst snd foldl] in *.
    apply Forall2_cons_inv_l in Hsrc as (scv & scvs' & Hsc & Hsrc & ->).
    apply Forall_cons in Htgt as [Htc Htgt].
    apply NoDup_cons in Hnd as [Hnin Hnd].
    destruct (copy_cell_into_spec color h sc tc scv Hsc Htc) as (Hm1 & Hr1).
    { apply Hdis; by left. }
    set (h1 := Store.copy_cell_into Pt_of_pt line_spacing_of color h (sc, tc)) in *.
    assert (Ha : Store.above h [tc] 2).
    { apply read_cell_Some in Htc as (? & Htc & _).
      eapply above_single; [done|simpl; lia]. }
    assert (Hsrc1 : Forall2 (λ l v, Store.read_cell h1 l = Some v) (pairs.*1) scvs').
    { apply Forall2_same_length_lookup. 
      apply Forall2_same_length_lookup in Hsrc as [Hlen Hsrc].
      split; [done|]. intros i l v Hl Hv.
      eapply (read_cell_stable [tc] h); [exact Hm1|done| |by eapply Hsrc].
      intros ->%list_elem_of_singleton.
      eapply (Hdis tc tc); [right; by eapply list_elem_of_lookup_2|by left|done]. }
    assert (Htgt1 : Forall (λ c, Store.read_cell h1 c = Some Store.fresh_cell) (pairs.*2)).
    { rewrite Forall_forall in Htgt. apply Forall_forall. intros c Hc.
      eapply (read_cell_stable [tc] h); [exact Hm1|done| |by apply Htgt].
      by intros ->%list_elem_of_singleton. }
    destruct (IH scvs' h1 Hsrc1 Htgt1 Hnd) as (Hm2 & Hr2).
    { intros sc' tc' Hs Ht. apply Hdis; by right. }
    split.
    + eapply mods_trans.
      * eapply mods_weaken; [exact Hm1|]. intros w ->%list_elem_of_singleton. by left.
      * eapply mods_weaken; [exact Hm2|]. intros w Hw. by right.
    + constructor; [|done].
      eapply (read_cell_stable (pairs.*2) h1); [exact Hm2| |done|done].
      intros w n Hw Hn. rewrite Forall_forall in Htgt1.
      specialize (Htgt1 w Hw). apply read_cell_Some in Htgt1 as (? & Hn' & _).
      rewrite Hn' in Hn. injection Hn as <-. simpl. lia.
Qed.

Lemma Forall2_concat_inv {A B} (Q : A → B → Prop) : ∀ (ls : list (list A)) (ks : list (list B)),
  map length ls = map length ks →
  Forall2 Q (concat ls) (concat ks) → Forall2 (Forall2 Q) ls ks.
Proof.
  induction ls as [|l ls IH]; intros [|k ks] Hlen HF; try done.
  injection Hlen as Hl Hlen. cbn [concat] in HF.
  apply Forall2_app_inv in HF as [H1 H2]; [|done].
  constructor; [done|by apply IH].
Qed.

Lemma Forall2_rows_concat {A B} (Q : A → B → Prop) (ls : list (list A)) (ks : list (list B)) :
  Forall2 (Forall2 Q) ls ks → Forall2 Q (concat ls) (concat ks).
Proof.
  induction 1 as [|l k ls ks H _ IH]; [constructor|].
  simpl. by apply Forall2_app.
Qed.

Lemma Forall2_rows_length {A B} (Q : A → B → Prop) (ls : list (list A)) (ks : list (list B)) :
  Forall2 (Forall2 Q) ls ks → map length ls = map length ks.
Proof.
  induction 1 as [|l k ls ks H _ IH]; [done|].
  simpl. by rewrite IH, (Forall2_length _ _ _ H).
Qed.

Lemma concat_length_shape {A B} (ls : list (list A)) (ks : list (list B)) :
  map length ls = map length ks → length (concat ls) = length (concat ks).
Proof.
  revert ks. induction ls as [|l ls IH]; intros [|k ks] H; try done.
  injection H as H1 H2. simpl. rewrite !length_app. by rewrite H1, (IH ks).
Qed.

Lemma deep_copy_table_spec source_table doc color h tv bs :
  Store.read_table h source_table = Some tv →
  h !! doc = Some (Store.NBody bs) →
  let h' := Store.deep_copy_table Pt_of_pt line_spacing_of source_table doc color h in
  Store.mods [doc] h h' ∧
  ∃ t, (t ∉ dom h) ∧ h' !! doc = Some (Store.NBody (bs ++ [t])) ∧
       Store.read_table h' t = Some (deep_copy_table Pt_of_pt line_spacing_of tv color).
Proof.
  intros (srows & Hsrc & Hsrows)%read_table_Some Hdoc.
  unfold Store.deep_copy_table. rewrite Hsrc.
  destruct (add_table_spec (map length srows) doc h bs Hdoc)
    as (Hm1 & Hft & Hdoc1 & trows & Ht1 & Hshape & Hnd & Htn & Hall).
  destruct (Store.add_table (map length srows) doc h) as [t h1]. cbn [fst snd] in *.
  rewrite Ht1.
  set (pairs := zip (concat srows) (concat trows)).
  assert (Hlen : length (concat srows) = length (concat trows))
    by (by apply concat_length_shape).
  assert (Hp1 : pairs.*1 = concat srows) by (apply fst_zip; lia).
  assert (Hp2 : pairs.*2 = concat trows) by (apply snd_zip; lia).
  assert (Ha : Store.above h [doc] 3) by (eapply above_single; [done|simpl; lia]).
  rewrite Forall_forall in Hall.
  destruct (copy_cells_spec color pairs (concat (rows tv)) h1) as (Hm2 & Hr2).
  { rewrite Hp1. eapply (read_cells_stable [doc] h); [exact Hm1|done|].
    by apply Forall2_rows_concat. }
  { rewrite Hp2. apply Forall_forall. intros c Hc. by apply Hall. }
  { by rewrite Hp2. }
  { rewrite Hp1, Hp2. intros sc tc Hs Ht ->. destruct (Hall tc Ht) as [Hn _].
    apply Hn. apply Forall2_rows_concat in Hsrows.
    apply list_elem_of_lookup in Hs as [i Hi].
    destruct (Forall2_lookup_l _ _ _ _ _ Hsrows Hi) as (v & _ & Hv).
    apply read_cell_Some in Hv as (? & Hv & _). by apply elem_of_dom. }
  set (h2 := foldl (Store.copy_cell_into Pt_of_pt line_spacing_of color) h1 pairs) in *.
  rewrite Hp2 in Hm2, Hr2.
  assert (Hm : Store.mods [doc] h h2).
  { eapply mods_fresh; [exact Hm1|exact Hm2|].
    intros w Hw. right. by apply Hall. }
  split; [done|]. exists t. split; [done|]. split.
  - eapply mods_lookup; [exact Hm2|done|]. intros Hin.
    destruct (Hall doc Hin) as [Hn _]. apply Hn. by apply elem_of_dom.
  - apply read_table_Some. exists trows. split.
    + simpl. eapply mods_lookup; [exact Hm2|exact Ht1|exact Htn].
    + simpl. apply Forall2_concat_inv.
      * rewrite Hshape. rewrite (Forall2_rows_length _ _ _ Hsrows).
        rewrite <- !list_fmap_compose. apply list_fmap_ext. intros ? row _.
        simpl. symmetry. apply List.length_map.
      * assert (E : concat (map (map (copy_cell Pt_of_pt line_spacing_of color)) (rows tv))
                    = map (copy_cell Pt_of_pt line_spacing_of color) (concat (rows tv))).
        { symmetry. apply List.concat_map. }
        rewrite E. apply Forall2_fmap_r.
        eapply Forall2_impl; [exact Hr2|]. intros ? ? H. exact H.
Qed.

(** *** The documents *)

Lemma read_block_Some h l b :
  Store.read_block h l = Some b ↔
  match b with
  | Paragraph p => Store.read_paragraph h l = Some p
  | Table t => Store.read_table h l = Some t
  end.
Proof.
  unfold Store.read_block. split.
  - destruct (h !! l) as [[| f rs | | br rs |]|] eqn:E; try done.
    + intros (p & Hp & ->)%fmap_Some. done.
    + intros (t & Ht & ->)%fmap_Some. done.
  - destruct b as [p|t].
    + intros Hp. pose proof Hp as (rs & -> & _)%read_paragraph_Some. by rewrite Hp.
    + intros Ht. pose proof Ht as (rs & -> & _)%read_table_Some. by rewrite Ht.
Qed.

Lemma copy_block_spec out h block bv bs :
  Store.read_block h block = Some bv →
  h !! out = Some (Store.NBody bs) →
  let h' := Store.copy_block Pt_of_pt line_spacing_of out h block in
  Store.mods [out] h h' ∧
  ∃ x, h' !! out = Some (Store.NBody (bs ++ [x])) ∧
       Store.read_block h' x = Some (copy_block Pt_of_pt line_spacing_of bv).
Proof.
  intros Hb Hout. apply read_block_Some in Hb. unfold Store.copy_block.
  assert (Ha : Store.above h [out] 4) by (eapply above_single; [done|simpl; lia]).
  destruct bv as [pv|tv].
  - pose proof Hb as (rs & Hl & _)%read_paragraph_Some. rewrite Hl.
    destruct (add_paragraph_spec out h) as (Hp & Hf & Hm1 & Hp1 & _ & Hc1).
    destruct (Store.add_paragraph out h) as [p h1]. cbn [fst snd] in *. subst p.
    set (p := fresh (dom h)) in *. specialize (Hc1 _ Hout).
    assert (Hb1 : Store.read_paragraph h1 block = Some pv).
    { eapply (read_paragraph_stable [out] h); [exact Hm1| | |done].
      - eapply above_weaken; [done|lia].
      - intros ->%list_elem_of_singleton. by rewrite Hout in Hl. }
    destruct (deep_copy_paragraph_spec block p h1 pv default_format [] Hb1 Hp1)
      as (Hm2 & Hr2 & _).
    { intros ->. apply Hf. by apply elem_of_dom. }
    split.
    + eapply mods_fresh; [exact Hm1|exact Hm2|].
      intros w ->%list_elem_of_singleton. by right.
    + exists p. split.
      * eapply mods_lookup; [exact Hm2|done|].
        intros ->%list_elem_of_singleton. apply Hf. by apply elem_of_dom.
      * by apply read_block_Some.
  - pose proof Hb as (rs & Hl & _)%read_table_Some. rewrite Hl.
    destruct (deep_copy_table_spec block out None h tv bs Hb Hout)
      as (Hm & t & _ & Hout' & Hr).
    split; [done|]. exists t. split; [done|]. by apply read_block_Some.
Qed.

Lemma copy_blocks_spec out : ∀ blocks bvs h bs acc,
  h !! out = Some (Store.NBody bs) →
  Forall2 (λ l v, Store.read_block h l = Some v) bs acc →
  Forall2 (λ l v, Store.read_block h l = Some v) blocks bvs →
  let h' := foldl (Store.copy_block Pt_of_pt line_spacing_of out) h blocks in
  Store.mods [out] h h' ∧
  ∃ bs', h' !! out = Some (Store.NBody bs') ∧
    Forall2 (λ l v, Store.read_block h' l = Some v) bs'
      (acc ++ map (copy_block Pt_of_pt line_spacing_of) bvs).
Proof.
  induction blocks as [|b blocks IH]; intros bvs h bs acc Hout Hbs Hbl.
  - apply Forall2_nil_inv_l in Hbl as ->. simpl.
    split; [apply mods_refl|]. exists bs. by rewrite app_nil_r.
  - apply Forall2_cons_inv_l in Hbl as (bv & bvs' & Hb & Hbl & ->).
    cbn [foldl map].
    destruct (copy_block_spec out h b bv bs Hb Hout) as (Hm1 & x & Hout1 & Hx).
    set (h1 := Store.copy_block Pt_of_pt line_spacing_of out h b) in *.
    assert (Ha : Store.above h [out] 4) by (eapply above_single; [done|simpl; lia]).
    destruct (IH bvs' h1 (bs ++ [x]) (acc ++ [copy_block Pt_of_pt line_spacing_of bv])
                Hout1) as (Hm2 & bs2 & Hout2 & Hbs2).
    { apply Forall2_app; [by eapply read_blocks_stable|]. by constructor. }
    { by eapply read_blocks_stable. }
    split; [by eapply mods_trans|]. exists bs2. split; [done|].
    by rewrite <- app_assoc in Hbs2.
Qed.

(** The output document reads as the copies of the blocks of the source. *)
Lemma copy_document_reads h orig out d :
  orig ≠ out →
  h !! out = Some (Store.NBody []) →
  Store.read_document h orig = Some d →
  Store.read_document (Store.copy_document Pt_of_pt line_spacing_of orig out h) out =
    Some (map (copy_block Pt_of_pt line_spacing_of) d).
Proof.
  intros Hne Hout Hd. unfold Store.read_document in Hd. unfold Store.copy_document.
  destruct (h !! orig) as [[| | | | bs]|] eqn:E; try done.
  apply read_all_Some in Hd.
  destruct (copy_blocks_spec out bs d h [] [] Hout ltac:(constructor) Hd)
    as (_ & bs' & Hout' & Hbs').
  unfold Store.read_document. rewrite Hout'. by apply read_all_Some.
Qed.

End StoreRefinement.

(** C7. No block is shared between the source and the output: when the
    blocks of the document [orig] are copied into the new, empty document
    [out] by [deep_copy_paragraph] and [deep_copy_table], every object of
    the store that existed before, the body [out] apart, is left as it
    was; every object that the output document is made of, at any depth,
    is the body [out] or an object that did not exist before the copy;
    the output document reads as the copies of the blocks of the source;
    the source document reads as it did; and it still does after any
    change of the store that is confined to the objects of the output
    document and to new objects. *)
Theorem copy_document_no_alias (Pt_of_pt line_spacing_of : Z → Z)
    (h0 : Store.Heap) (orig out : positive) (d : list Block) :
  orig ≠ out →
  h0 !! out = Some (Store.NBody []) →
  Store.read_document h0 orig = Some d →
  let h' := Store.copy_document Pt_of_pt line_spacing_of orig out h0 in
  (∀ l, l ∈ dom h0 → l ≠ out → h' !! l = h0 !! l) ∧
  (∀ l, Store.reachable h' out l → l = out ∨ l ∉ dom h0) ∧
  Store.read_document h' out = Some (map (copy_block Pt_of_pt line_spacing_of) d) ∧
  Store.read_document h' orig = Some d ∧
  (∀ h'' : Store.Heap,
     (∀ l, l ∈ dom h' → ¬ Store.reachable h' out l → h'' !! l = h' !! l) →
     Store.read_document h'' orig = Some d).
Proof.
  intros Hne Hout Hd h'.
  assert (Hg0 : Store.good h0 out h0).
  { split; [done|]. split; [done|]. intros l n Hl [Hn| ->] c Hc.
    - by apply not_elem_of_dom in Hn; rewrite Hn in Hl.
    - rewrite Hout in Hl. injection Hl as <-. inversion Hc. }
  destruct (copy_document_step Pt_of_pt line_spacing_of h0 out h0 orig Hg0)
    as [Hg Hdom]. fold h' in Hg, Hdom.
  pose proof Hg as (_ & Hframe & _).
  assert (Hreach : ∀ l, Store.reachable h' out l → l = out ∨ l ∉ dom h0).
  { intros l Hr.
    destruct (reachable_target_side h0 out h' out l Hg Hr) as [?| ->];
      [by right|by right|by left]. }
  split; [done|]. split; [done|].
  split; [by apply copy_document_reads|]. split.
  - by eapply read_document_agree.
  - intros h'' Hh''. eapply read_document_agree; [done| |done|done].
    intros l Hl Hlo. rewrite Hh'', Hframe; [done|done|done| |].
    + by apply Hdom.
    + intros Hr. destruct (Hreach l Hr); done.
Qed.

Lemma copy_document_no_alias_witness :
  let d := [para "Član 1";
            Table (mkTable false
                     [[mkCell (Some (Py.lit "FFFF00")) [new_paragraph (Py.lit "a")]]])] in
  let h' := Store.copy_document id id 1 8 Store.example_heap in
  (∀ l, l ∈ dom Store.example_heap → l ≠ 8%positive →
        h' !! l = Store.example_heap !! l) ∧
  (∀ l, Store.reachable h' 8 l → l = 8%positive ∨ l ∉ dom Store.example_heap) ∧
  Store.read_document h' 8 = Some (map (copy_block id id) d) ∧
  Store.read_document h' 1 = Some d ∧
  (∀ h'' : Store.Heap,
     (∀ l, l ∈ dom h' → ¬ Store.reachable h' 8 l → h'' !! l = h' !! l) →
     Store.read_document h'' 1 = Some d).
Proof.
  intros d h'.
  apply (copy_document_no_alias id id Store.example_heap 1 8 d).
  - discriminate.
  - vm_compute. reflexivity.
  - vm_compute. reflexivity.
Defined.

(** The store after the copy of the example: the output document is made
    of the objects 9 to 15, which are new. *)
Example copy_document_example :
  let h' := Store.copy_document id id 1 8 Store.example_heap in
  h' !! 8%positive = Some (Store.NBody [9; 13]%positive) ∧
  h' !! 9%positive = Some (Store.NParagraph default_format [10%positive]) ∧
  h' !! 13%positive = Some (Store.NTable true [[12%positive]]) ∧
  h' !! 12%positive =
    Some (Store.NCell (Some (Py.lit "8A084B")) [11; 14]%positive).
Proof. vm_compute. repeat split; reflexivity. Qed.

(** A change of a run of the output, here of its colour, is not seen in
    the source. *)
Example recolor_output_keeps_source :
  let h' := Store.copy_document id id 1 8 Store.example_heap in
  let h'' := Store.recolor (Some (255, 0, 0)%Z) 9 h' in
  h'' !! 10%positive ≠ h' !! 10%positive ∧
  Store.read_document h'' 1 = Store.read_document Store.example_heap 1.
Proof. vm_compute. split; [discriminate|reflexivity]. Qed.

(** * Further properties *)

(** ** [merge_gazette] *)

Section MergeGazetteProperties.

Variable Pt_of_pt : Z → Z.
Variable line_spacing_of : Z → Z.

Lemma patch_gazette_None block merged target :
  patch_gazette Pt_of_pt line_spacing_of block merged target = None ↔
  Forall (λ b, has_gazette b = false) (iter_block_items target).
Proof.
  induction target as [|c r IH]; simpl; [by split; [constructor|]|].
  destruct c as [[t|t]|]; simpl.
  - destruct (Py.contains (Py.lit "Sl. glasnik RS") (text t)) eqn:E.
    + split; [done|]. intros Hall. apply Forall_cons in Hall as [Hc _].
      simpl in Hc. congruence.
    + destruct (patch_gazette Pt_of_pt line_spacing_of block merged r); simpl.
      * split; [done|]. intros Hall. apply Forall_cons in Hall as [_ Hr].
        by apply IH in Hr.
      * split; [|done]. intros _. constructor; [done|by apply IH].
  - destruct (patch_gazette Pt_of_pt line_spacing_of block merged r); simpl.
    + split; [done|]. intros Hall. apply Forall_cons in Hall as [_ Hr].
      by apply IH in Hr.
    + split; [|done]. intros _. constructor; [done|by apply IH].
  - destruct (patch_gazette Pt_of_pt line_spacing_of block merged r); simpl.
    + split; [done|]. intros Hr. by apply IH in Hr.
    + split; [|done]. intros _. by apply IH.
Qed.

Lemma patch_gazette_Some block merged : ∀ target target',
  patch_gazette Pt_of_pt line_spacing_of block merged target = Some target' →
  ∃ pre t post,
    target = pre ++ CBlock (Paragraph t) :: post ∧
    Forall (λ b, has_gazette b = false) (iter_block_items pre) ∧
    has_gazette (Paragraph t) = true ∧
    target' = pre ++ CBlock (Paragraph
                (mkParagraph (copy_format Pt_of_pt line_spacing_of (pformat block) (pformat t))
                   [plain_run merged])) :: post.
Proof.
  induction target as [|c r IH]; intros target' Hp; [done|].
  assert (Hrec : ∀ nog : Forall (λ b, has_gazette b = false) (iter_block_items [c]),
            option_map (cons c) (patch_gazette Pt_of_pt line_spacing_of block merged r)
              = Some target' →
            ∃ pre t post,
              c :: r = pre ++ CBlock (Paragraph t) :: post ∧
              Forall (λ b, has_gazette b = false) (iter_block_items pre) ∧
              has_gazette (Paragraph t) = true ∧
              target' = pre ++ CBlock (Paragraph
                (mkParagraph (copy_format Pt_of_pt line_spacing_of (pformat block) (pformat t))
                   [plain_run merged])) :: post).
  { intros Hc Hm.
    destruct (patch_gazette Pt_of_pt line_spacing_of block merged r) as [r'|] eqn:E;
      [|done].
    injection Hm as <-.
    destruct (IH r' eq_refl) as (pre & t & post & -> & Hpre & Ht & ->).
    exists (c :: pre), t, post. split; [done|]. split; [|done].
    change (c :: pre) with ([c] ++ pre). unfold iter_block_items.
    rewrite flat_map_app. by apply Forall_app. }
  simpl in Hp. destruct c as [[t|t]|].
  - simpl in Hp. destruct (Py.contains (Py.lit "Sl. glasnik RS") (text t)) eqn:E.
    + injection Hp as <-. exists [], t, r. split; [done|]. split; [constructor|].
      by split.
    + apply Hrec; [|done]. simpl. constructor; [done|constructor].
  - apply Hrec; [|done]. simpl. constructor; [done|constructor].
  - apply Hrec; [|done]. simpl. constructor.
Qed.

Lemma find_has_gazette blocks :
  match find has_gazette blocks with
  | Some (Paragraph p) => has_gazette (Paragraph p) = true
  | Some (Table _) => False
  | None => Forall (λ b, has_gazette b = false) blocks
  end.
Proof.
  induction blocks as [|b r IH]; simpl; [constructor|].
  destruct (has_gazette b) eqn:E.
  - by destruct b.
  - destruct (find has_gazette r) as [[p|t]|]; [done|done|by constructor].
Qed.

(** X1: [merge_gazette] returns [False] exactly when the old document has no
    paragraph with the gazette marker or the target has none, and then it
    leaves the target as it is. *)
Theorem merge_gazette_false_unchanged (old_blocks gov_blocks : list Block)
    (target : list BodyChild) :
  let r := merge_gazette Pt_of_pt line_spacing_of old_blocks gov_blocks target in
  (r.2 = false ↔
     Forall (λ b, has_gazette b = false) old_blocks ∨
     Forall (λ b, has_gazette b = false) (iter_block_items target)) ∧
  (r.2 = false → r.1 = target).
Proof.
  unfold merge_gazette. pose proof (find_has_gazette old_blocks) as Hold.
  destruct (find has_gazette old_blocks) as [[block|t]|] eqn:Ef; [|done|].
  - set (merged := merge_gazette_text _ _).
    destruct (patch_gazette Pt_of_pt line_spacing_of block merged target)
      as [target'|] eqn:Ep; simpl.
    + split; [|done]. split; [done|]. intros [Hno|Hno].
      * apply find_some in Ef as [Hin _]. apply list_elem_of_In in Hin.
        rewrite Forall_forall in Hno. specialize (Hno _ Hin). congruence.
      * apply (patch_gazette_None block merged) in Hno. congruence.
    + split; [|done]. split; [|done]. intros _. right.
      by eapply patch_gazette_None.
  - simpl. split; [|done]. split; [|done]. intros _. by left.
Qed.

(** X2: when [merge_gazette] returns [True], the target keeps its children but
    for the first paragraph with the gazette marker: this one takes the
    format of the first such paragraph of the old document and has the
    merged citation line as its only run.  Without a gazette paragraph in
    the amendment document the line is the line of the old document. *)
Theorem merge_gazette_patches_first (old_blocks gov_blocks : list Block)
    (target : list BodyChild) :
  (merge_gazette Pt_of_pt line_spacing_of old_blocks gov_blocks target).2 = true →
  ∃ block pre t post,
    find has_gazette old_blocks = Some (Paragraph block) ∧
    target = pre ++ CBlock (Paragraph t) :: post ∧
    Forall (λ b, has_gazette b = false) (iter_block_items pre) ∧
    has_gazette (Paragraph t) = true ∧
    let gov_line := match find has_gazette gov_blocks with
                    | Some (Paragraph q) => text q
                    | _ => []
                    end in
    let t' := mkParagraph
                (copy_format Pt_of_pt line_spacing_of (pformat block) (pformat t))
                [plain_run (merge_gazette_text (text block) gov_line)] in
    (merge_gazette Pt_of_pt line_spacing_of old_blocks gov_blocks target).1 =
      pre ++ CBlock (Paragraph t') :: post ∧
    text t' = merge_gazette_text (text block) gov_line ∧
    (Forall (λ b, has_gazette b = false) gov_blocks → text t' = text block).
Proof.
  unfold merge_gazette. pose proof (find_has_gazette gov_blocks) as Hgov.
  destruct (find has_gazette old_blocks) as [[block|t]|] eqn:Ef; [|done|done].
  set (gov_line := match find has_gazette gov_blocks with
                   | Some (Paragraph q) => text q
                   | _ => []
                   end) in *.
  destruct (patch_gazette Pt_of_pt line_spacing_of block
              (merge_gazette_text (text block) gov_line) target)
    as [target'|] eqn:Ep; [|done].
  intros _. apply patch_gazette_Some in Ep as (pre & t & post & -> & Hpre & Ht & ->).
  exists block, pre, t, post. split; [done|]. split; [done|]. split; [done|].
  split; [done|]. cbv zeta. split; [done|].
  assert (Ht' : ∀ m, text (mkParagraph
                (copy_format Pt_of_pt line_spacing_of (pformat block) (pformat t))
                [plain_run m]) = m).
  { intros m. unfold text. simpl. by rewrite app_nil_r. }
  split; [by rewrite Ht'|]. intros Hno. rewrite Ht'.
  assert (Hg : gov_line = []).
  { unfold gov_line. destruct (find has_gazette gov_blocks) as [[q|?]|] eqn:Eg;
      [|done|done].
    apply find_some in Eg as [Hin Hq]. apply list_elem_of_In in Hin.
    rewrite Forall_forall in Hno. specialize (Hno _ Hin). congruence. }
  rewrite Hg. unfold merge_gazette_text. simpl.
  by destruct (GAZETTE_RE_search (text block)) as [[? ?]|].
Qed.

End MergeGazetteProperties.

Lemma merge_gazette_patches_first_witness :
  let old_blocks := [para "Zakon"; Paragraph (new_paragraph citation_one)] in
  let gov_blocks := [Paragraph (new_paragraph citation_two)] in
  let target := body_of true old_blocks in
  ∃ block pre t post,
    find has_gazette old_blocks = Some (Paragraph block) ∧
    target = pre ++ CBlock (Paragraph t) :: post ∧
    Forall (λ b, has_gazette b = false) (iter_block_items pre) ∧
    has_gazette (Paragraph t) = true ∧
    let gov_line := match find has_gazette gov_blocks with
                    | Some (Paragraph q) => text q
                    | _ => []
                    end in
    let t' := mkParagraph (copy_format id id (pformat block) (pformat t))
                [plain_run (merge_gazette_text (text block) gov_line)] in
    (merge_gazette id id old_blocks gov_blocks target).1 =
      pre ++ CBlock (Paragraph t') :: post ∧
    text t' = merge_gazette_text (text block) gov_line ∧
    (Forall (λ b, has_gazette b = false) gov_blocks → text t' = text block).
Proof.
  intros old_blocks gov_blocks target.
  apply (merge_gazette_patches_first id id old_blocks gov_blocks target).
  vm_compute. reflexivity.
Defined.

(** ** The copy of a paragraph keeps the text *)

Lemma deep_copy_paragraph_text (Pt_of_pt line_spacing_of : Z → Z) (source target : ParagraphT) :
  text (deep_copy_paragraph Pt_of_pt line_spacing_of source target) = text source.
Proof.
  unfold text, deep_copy_paragraph. simpl. rewrite map_map. done.
Qed.

(** ** The spacer *)

Lemma first_index_Some {A} (P : A → bool) (l : list A) : ∀ i,
  first_index P l = Some i →
  ∃ x, l !! i = Some x ∧ P x = true ∧
       ∀ j y, j < i → l !! j = Some y → P y = false.
Proof.
  induction l as [|x r IH]; intros i Hi; [done|]. simpl in Hi.
  destruct (P x) eqn:E.
  - injection Hi as <-. exists x. split; [done|]. split; [done|]. intros; lia.
  - destruct (first_index P r) as [i'|]; [|done]. injection Hi as <-.
    destruct (IH i' eq_refl) as (y & Hl & Hy & Hbefore).
    exists y. split; [done|]. split; [done|].
    intros [|j] z Hj Hz; [by injection Hz as <-|].
    apply (Hbefore j); [lia|done].
Qed.

Lemma first_index_None {A} (P : A → bool) (l : list A) :
  first_index P l = None ↔ Forall (λ x, P x = false) l.
Proof.
  induction l as [|x r IH]; simpl; [by split; [constructor|]|].
  destruct (P x) eqn:E.
  - split; [done|]. intros [? _]%Forall_cons. congruence.
  - destruct (first_index P r); simpl.
    + split; [done|]. intros [_ Hr]%Forall_cons. by apply IH in Hr.
    + split; [|done]. intros _. constructor; [done|by apply IH].
Qed.

(** An element that has just been added to a body, moved by [insert]. *)
Lemma lxml_insert_moved s l b pos :
  pos ≤ S (length l) →
  lxml_insert pos (length l) (body_of s (l ++ [b])) =
    body_of s (take pos l ++ [b] ++ drop pos l).
Proof.
  intros Hpos. destruct (Nat.lt_ge_cases pos (length l)) as [Hlt|Hge].
  { by apply lxml_insert_last. }
  rewrite take_ge, drop_ge by done. simpl.
  unfold lxml_insert, body_of. rewrite map_app. simpl.
  assert (Hlen : length (map CBlock l) = length l) by (by rewrite length_map).
  set (tail := if s then [CSectPr] else []).
  rewrite <- app_assoc. simpl.
  rewrite (list_lookup_middle (map CBlock l) tail (CBlock b) (length l)) by done.
  destruct (Nat.eqb_spec pos (length l)) as [->|Hne]; [done|].
  rewrite (take_app_length' (map CBlock l) _ (length l)) by done.
  replace (map CBlock l ++ CBlock b :: tail)
    with ((map CBlock l ++ [CBlock b]) ++ tail) by (by rewrite <- app_assoc).
  rewrite (drop_app_length' (map CBlock l ++ [CBlock b]) tail (S (length l)))
    by (rewrite length_app; simpl; lia).
  rewrite <- app_assoc. simpl.
  destruct ((map CBlock l ++ CBlock b :: tail) !! pos) as [c|] eqn:E.
  - destruct (Nat.ltb_spec (length l) pos); [|lia].
    apply lookup_lt_Some in E. rewrite length_app in E. simpl in E.
    assert (Htail : length tail = 1 ∧ pos = S (length l)).
    { destruct s; simpl in *; lia. }
    destruct Htail as [Htail ->].
    replace (S (length l) - 1) with (length l) by lia.
    rewrite take_app_length', drop_app_length' by done. done.
  - apply lookup_ge_None in E. rewrite length_app in E. simpl in E.
    assert (Htail : tail = []) by (destruct s; [simpl in *; lia|done]).
    rewrite Htail. by rewrite app_nil_r.
Qed.

Section SpacerProperties.

Variable Pt_of_pt : Z → Z.
Variable line_spacing_of : Z → Z.

(** Without a paragraph whose trimmed text is the title of the first
    article, the step leaves the document as it is. *)
Lemma add_spacer_unchanged (body : list BodyChild) :
  Forall (λ b, is_first_article b = false) (iter_block_items body) →
  add_spacer Pt_of_pt line_spacing_of body = body.
Proof.
  intros Hno. unfold add_spacer.
  apply first_index_None in Hno. by rewrite Hno.
Qed.

(** X3: when a paragraph has the title of the first article as its
    trimmed text, the first such at the index [idx], the spacer step gives
    the document one more block, at the index [idx + 2] or at the end when
    the document is shorter: a paragraph with the format and the runs of
    the title.  Its text is the text of the title, and never the full stop
    that it is created with. *)
Theorem add_spacer_copies_title (s : bool) (blocks : list Block) (idx : nat) :
  first_index is_first_article blocks = Some idx →
  ∃ title,
    blocks !! idx = Some (Paragraph title) ∧
    Py.strip (text title) = Py.lit "Član 1" ∧
    add_spacer Pt_of_pt line_spacing_of (body_of s blocks) =
      body_of s (take (idx + 2) blocks ++
                 [Paragraph (spacer_of Pt_of_pt line_spacing_of title)] ++
                 drop (idx + 2) blocks) ∧
    text (spacer_of Pt_of_pt line_spacing_of title) = text title ∧
    text (spacer_of Pt_of_pt line_spacing_of title) ≠ Py.lit ".".
Proof.
  intros Hidx. unfold add_spacer. rewrite iter_block_items_body_of, Hidx.
  apply first_index_Some in Hidx as (b & Hb & Hfirst & _).
  destruct b as [title|t]; [|done]. simpl in Hfirst.
  apply bool_decide_eq_true in Hfirst.
  exists title. split; [done|]. split; [done|]. rewrite Hb.
  rewrite add_block_body_of. split.
  { apply lxml_insert_moved. apply lookup_lt_Some in Hb. lia. }
  unfold spacer_of. rewrite deep_copy_paragraph_text. split; [done|].
  intros E. rewrite E in Hfirst. vm_compute in Hfirst. discriminate Hfirst.
Qed.

End SpacerProperties.

Lemma add_spacer_unchanged_witness :
  add_spacer id id (body_of true [para "Član 1*"; para "a"]) =
    body_of true [para "Član 1*"; para "a"].
Proof.
  apply (add_spacer_unchanged id id).
  repeat constructor.
Defined.

Lemma add_spacer_copies_title_witness :
  ∃ title,
    [para "Uvod"; para "Član 1"; para "a"; para "b"] !! 1 = Some (Paragraph title) ∧
    Py.strip (text title) = Py.lit "Član 1" ∧
    add_spacer id id (body_of true [para "Uvod"; para "Član 1"; para "a"; para "b"]) =
      body_of true (take (1 + 2) [para "Uvod"; para "Član 1"; para "a"; para "b"] ++
                    [Paragraph (spacer_of id id title)] ++
                    drop (1 + 2) [para "Uvod"; para "Član 1"; para "a"; para "b"]) ∧
    text (spacer_of id id title) = text title ∧
    text (spacer_of id id title) ≠ Py.lit ".".
Proof.
  apply (add_spacer_copies_title id id true
           [para "Uvod"; para "Član 1"; para "a"; para "b"] 1).
  vm_compute. reflexivity.
Defined.

(** The title of the first article stands twice in the document. *)
Example add_spacer_example :
  block_texts (add_spacer id id
                 (body_of true [para "Član 1"; para "a"; para "b"; para "Član 2"])) =
    [Py.lit "Član 1"; Py.lit "a"; Py.lit "Član 1"; Py.lit "b"; Py.lit "Član 2"].
Proof. vm_compute. reflexivity. Qed.

(** ** Colours as text *)

(** What is checked for each of the 256 values of a part of a colour. *)
Lemma format_02X_byte (x : Z) :
  (0 ≤ x ≤ 255)%Z →
  ∃ c1 c2, format_02X x = [c1; c2] ∧ c1 ≠ hash ∧ int16 [c1; c2] = Some x.
Proof.
  intros Hx.
  assert (Hall : forallb (λ n, match format_02X (Z.of_nat n) with
                               | [c1; c2] => negb (c1 =? hash)%Z &&
                                             bool_decide (int16 [c1; c2] = Some (Z.of_nat n))
                               | _ => false
                               end) (seq 0 256) = true)
    by (vm_compute; reflexivity).
  rewrite forallb_forall in Hall.
  specialize (Hall (Z.to_nat x)). rewrite Z2Nat.id in Hall by lia.
  assert (Hin : In (Z.to_nat x) (seq 0 256)) by (apply in_seq; lia).
  specialize (Hall Hin).
  destruct (format_02X x) as [|c1 [|c2 [|]]]; try done.
  apply andb_true_iff in Hall as [H1 H2].
  exists c1, c2. split; [done|]. split.
  - intros ->. by vm_compute in H1.
  - by apply bool_decide_eq_true in H2.
Qed.

(** X4: the colour of a run survives the trip through its text: what
    [hex_to_rgb] reads from the text that [get_font_color] writes is the
    colour, for any colour whose parts are between 0 and 255. *)
Theorem hex_to_rgb_get_font_color (r g b : Z) :
  (0 ≤ r ≤ 255)%Z → (0 ≤ g ≤ 255)%Z → (0 ≤ b ≤ 255)%Z →
  get_font_color (Some (r, g, b)) ≫= hex_to_rgb = Some [r; g; b].
Proof.
  intros Hr Hg Hb.
  destruct (format_02X_byte r Hr) as (r1 & r2 & Er & Hr1 & Ir).
  destruct (format_02X_byte g Hg) as (g1 & g2 & Eg & _ & Ig).
  destruct (format_02X_byte b Hb) as (b1 & b2 & Eb & _ & Ib).
  simpl. rewrite Er, Eg, Eb. unfold hex_to_rgb. simpl.
  destruct (Z.eqb_spec hash hash) as [_|Hne]; [|done].
  destruct (Z.eqb_spec r1 hash) as [E|_]; [done|].
  simpl. rewrite Ir, Ig, Ib. done.
Qed.

Lemma hex_to_rgb_get_font_color_witness :
  get_font_color (Some (0, 204, 51)%Z) ≫= hex_to_rgb = Some [0; 204; 51]%Z.
Proof. apply hex_to_rgb_get_font_color; lia. Defined.

(** X5: [hex_to_rgb] fails on a text of fewer than three characters after the
    number signs at its start, and when it returns, it returns three
    parts exactly when the number of those characters is a multiple of
    three, and more than three otherwise. *)
Theorem hex_to_rgb_parts (hex_color : Py.str) (parts : list Z) :
  hex_to_rgb hex_color = Some parts →
  let lv := length (lstrip_hash hex_color) in
  3 ≤ lv ∧ 3 ≤ length parts ∧ (length parts = 3 ↔ lv mod 3 = 0).
Proof.
  unfold hex_to_rgb. set (h := lstrip_hash hex_color). set (lv := length h).
  destruct (Nat.eqb_spec (lv / 3) 0) as [E|Hk]; [done|].
  intros Hm. apply length_mapM in Hm. cbv zeta. rewrite <- Hm.
  unfold range_step. rewrite length_map, length_seq.
  pose proof (Nat.div_mod_eq lv 3) as Hlv.
  pose proof (Nat.mod_upper_bound lv 3 ltac:(lia)) as Hr.
  set (k := lv / 3) in *. set (r := lv mod 3) in *.
  pose proof (Nat.div_mod_eq (lv + k - 1) k) as Hq.
  pose proof (Nat.mod_upper_bound (lv + k - 1) k Hk) as Hq'.
  set (q := (lv + k - 1) / k) in *.
  split; [lia|]. split; [nia|]. split; intros Hx; nia.
Qed.

Lemma hex_to_rgb_parts_witness :
  3 ≤ length (lstrip_hash (Py.lit "#1234")) ∧
  3 ≤ length [1; 2; 3; 4]%Z ∧
  (length [1; 2; 3; 4]%Z = 3 ↔ length (lstrip_hash (Py.lit "#1234")) mod 3 = 0).
Proof.
  apply (hex_to_rgb_parts (Py.lit "#1234") [1; 2; 3; 4]%Z).
  vm_compute. reflexivity.
Defined.

(** The colour of deletions of the explanatory table. *)
Example hex_to_rgb_red : hex_to_rgb (Py.lit "#FF0000") = Some [255; 0; 0]%Z.
Proof. vm_compute. reflexivity. Qed.

(** A sign is read as part of a number. *)
Example hex_to_rgb_signs : hex_to_rgb (Py.lit "-1-2-3") = Some [-1; -2; -3]%Z.
Proof. vm_compute. reflexivity. Qed.

(** ** The diff engine: what the regions say *)

Section Soundness.
Context {K : Type} `{Countable K}.
Variables (a b : list K) (b2j : gmap K (list nat)).
Hypothesis b2j_sound : ∀ x js j, b2j !! x = Some js → j ∈ js → b !! j = Some x.

Lemma matches_empty i j : matches a b (i, j, 0).
Proof. intros t Ht. lia. Qed.

Lemma matches_snoc i j k x :
  matches a b (i, j, k) → a !! (i + k) = Some x → b !! (j + k) = Some x →
  matches a b (i, j, S k).
Proof.
  intros Hm Ha Hb t Ht. destruct (decide (t = k)) as [->|Hne].
  - by exists x.
  - apply Hm. lia.
Qed.

Lemma matches_cons i j k x :
  a !! i = Some x → b !! j = Some x → matches a b (S i, S j, k) →
  matches a b (i, j, S k).
Proof.
  intros Ha Hb Hm [|t] Ht.
  - exists x. by rewrite !Nat.add_0_r.
  - destruct (Hm t ltac:(lia)) as (y & Hy1 & Hy2). exists y.
    by rewrite <- !Nat.add_succ_comm.
Qed.

Lemma matches_join i j k1 k2 :
  matches a b (i, j, k1) → matches a b (i + k1, j + k1, k2) →
  matches a b (i, j, k1 + k2).
Proof.
  intros H1 H2 t Ht. destruct (Nat.lt_ge_cases t k1) as [Hlt|Hge].
  - by apply H1.
  - destruct (H2 (t - k1) ltac:(lia)) as (x & Hx1 & Hx2). exists x.
    by replace (i + t) with (i + k1 + (t - k1)) by lia;
       replace (j + t) with (j + k1 + (t - k1)) by lia.
Qed.

Lemma j2lenget_prev_matches rows j2len j :
  row_matches a b rows j2len →
  j2lenget_prev j2len j ≤ rows ∧ j2lenget_prev j2len j ≤ j ∧
  matches a b (rows - j2lenget_prev j2len j, j - j2lenget_prev j2len j,
               j2lenget_prev j2len j).
Proof.
  intros Hrow. unfold j2lenget_prev. destruct j as [|j'].
  { split; [lia|]. split; [lia|]. apply matches_empty. }
  destruct (j2len !! j') as [k|] eqn:E;
    [change (default 0 (Some k)) with k|change (default 0 (@None nat)) with 0].
  - destruct (Hrow j' k E) as (H1 & H2 & H3 & H4).
    split; [done|]. split; [lia|].
    by replace (S j' - k) with (j' + 1 - k) by lia.
  - split; [lia|]. split; [lia|]. apply matches_empty.
Qed.

Lemma inner_loop_matches i x blo bhi j2len js :
  a !! i = Some x → (∀ j, j ∈ js → b !! j = Some x) →
  row_matches a b i j2len →
  ∀ newj2len best,
    row_matches a b (S i) newj2len → matches a b best →
    row_matches a b (S i) (inner_loop i blo bhi j2len js newj2len best).1 ∧
    matches a b (inner_loop i blo bhi j2len js newj2len best).2.
Proof.
  intros Ha Hjs Hrow. induction js as [|j js IH]; intros newj2len best Hnew Hbest.
  - done.
  - cbn [inner_loop].
    assert (Hjs' : ∀ j', j' ∈ js → b !! j' = Some x)
      by (intros j' Hj'; apply Hjs; by right).
    destruct (j <? blo); [by apply IH|].
    destruct (bhi <=? j); [done|].
    destruct (j2lenget_prev_matches i j2len j Hrow) as (Hk1 & Hk2 & Hk3).
    set (k' := j2lenget_prev j2len j) in *.
    assert (Hm : matches a b (i + 1 - (k' + 1), j + 1 - (k' + 1), k' + 1)).
    { replace (i + 1 - (k' + 1)) with (i - k') by lia.
      replace (j + 1 - (k' + 1)) with (j - k') by lia.
      rewrite Nat.add_1_r. apply (matches_snoc _ _ _ x); [done| |].
      - by replace (i - k' + k') with i by lia.
      - replace (j - k' + k') with j by lia. apply Hjs. by left. }
    apply IH; [done| |].
    + intros j0 k0 Hl. destruct (decide (j0 = j)) as [->|Hne].
      * rewrite lookup_insert_eq in Hl. injection Hl as <-.
        split; [lia|]. split; [lia|]. split; [lia|].
        by replace (S i - (k' + 1)) with (i + 1 - (k' + 1)) by lia.
      * rewrite lookup_insert_ne in Hl by done. by apply Hnew.
    + by destruct (best.2 <? k' + 1).
Qed.

Lemma outer_loop_matches blo bhi n : ∀ i j2len best,
  row_matches a b i j2len → matches a b best →
  matches a b (outer_loop a b2j blo bhi (seq i n) j2len best).
Proof.
  induction n as [|n IH]; intros i j2len best Hrow Hbest; [done|].
  cbn [seq outer_loop].
  assert (Hstep :
    row_matches a b (S i) (inner_loop i blo bhi j2len (b2j_get a b2j i) ∅ best).1 ∧
    matches a b (inner_loop i blo bhi j2len (b2j_get a b2j i) ∅ best).2).
  { unfold b2j_get. destruct (a !! i) as [x|] eqn:Ea.
    - apply (inner_loop_matches i x); [done| |done| |done].
      + intros j Hj. destruct (b2j !! x) as [js|] eqn:Ej; [|inversion Hj].
        by eapply b2j_sound.
      + intros j k Hl. by rewrite lookup_empty in Hl.
    - simpl. split; [|done]. intros j k Hl. by rewrite lookup_empty in Hl. }
  destruct (inner_loop i blo bhi j2len (b2j_get a b2j i) ∅ best) as [newj2len best'].
  destruct Hstep as [Hrow' Hbest']. by apply IH.
Qed.

Lemma same_element_eq junk i j :
  same_element a b junk i j = true → ∃ x, a !! i = Some x ∧ b !! j = Some x.
Proof.
  unfold same_element. destruct (a !! i) as [x|], (b !! j) as [y|]; try done.
  intros [_ Heq%bool_decide_eq_true]%andb_true_iff. subst. by exists y.
Qed.

Lemma extend_back_matches junk alo blo : ∀ besti bestj bestsize,
  matches a b (besti, bestj, bestsize) →
  matches a b (extend_back a b junk alo blo besti bestj bestsize).
Proof.
  induction besti as [|i' IH]; intros bestj bestsize Hm; [done|].
  destruct bestj as [|j']; [done|]. cbn [extend_back].
  destruct ((alo <? S i') && (blo <? S j') && same_element a b junk i' j') eqn:E;
    [|done].
  apply andb_true_iff in E as [_ (x & Hx1 & Hx2)%same_element_eq].
  apply IH. by apply (matches_cons _ _ _ x).
Qed.

Lemma extend_forward_matches junk ahi bhi besti bestj : ∀ room bestsize,
  matches a b (besti, bestj, bestsize) →
  matches a b (besti, bestj,
               extend_forward a b junk ahi bhi besti bestj room bestsize).
Proof.
  induction room as [|room IH]; intros bestsize Hm; [done|].
  cbn [extend_forward].
  destruct ((besti + bestsize <? ahi) && (bestj + bestsize <? bhi) &&
            same_element a b junk (besti + bestsize) (bestj + bestsize)) eqn:E;
    [|done].
  apply andb_true_iff in E as [_ (x & Hx1 & Hx2)%same_element_eq].
  apply IH. by apply (matches_snoc _ _ _ x).
Qed.

Lemma find_longest_match_matches alo ahi blo bhi :
  matches a b (find_longest_match a b b2j alo ahi blo bhi).
Proof.
  unfold find_longest_match.
  pose proof (outer_loop_matches blo bhi (ahi - alo) alo ∅ (alo, blo, 0)) as H1.
  destruct (outer_loop a b2j blo bhi (seq alo (ahi - alo)) ∅ (alo, blo, 0))
    as [[bi bj] bs].
  specialize (H1 ltac:(intros j k Hl; by rewrite lookup_empty in Hl)
                 (matches_empty alo blo)).
  pose proof (extend_back_matches false alo blo bi bj bs H1) as H2.
  destruct (extend_back a b false alo blo bi bj bs) as [[bi2 bj2] bs2].
  pose proof (extend_forward_matches false ahi bhi bi2 bj2
                (ahi - (bi2 + bs2)) bs2 H2) as H3.
  set (bs3 := extend_forward a b false ahi bhi bi2 bj2 (ahi - (bi2 + bs2)) bs2) in *.
  pose proof (extend_back_matches true alo blo bi2 bj2 bs3 H3) as H4.
  destruct (extend_back a b true alo blo bi2 bj2 bs3) as [[bi4 bj4] bs4].
  by apply extend_forward_matches.
Qed.

Lemma matching_loop_matches : ∀ fuel queue acc res,
  Forall (matches a b) acc →
  matching_loop a b b2j fuel queue acc = Some res →
  Forall (matches a b) res.
Proof.
  induction fuel as [|fuel IH]; intros queue acc res Hacc Hres.
  - destruct queue as [|[[[alo ahi] blo] bhi] q]; simpl in Hres; [|done].
    by injection Hres as <-.
  - destruct queue as [|[[[alo ahi] blo] bhi] q]; cbn [matching_loop] in Hres.
    { by injection Hres as <-. }
    pose proof (find_longest_match_matches alo ahi blo bhi) as Hm.
    destruct (find_longest_match a b b2j alo ahi blo bhi) as [[i j] k].
    destruct (k =? 0); [by eapply IH|].
    eapply IH; [|exact Hres]. apply Forall_app. split; [done|by constructor].
Qed.

Lemma collapse_matches : ∀ blocks i1 j1 k1 acc,
  matches a b (i1, j1, k1) → Forall (matches a b) blocks →
  Forall (matches a b) acc →
  Forall (matches a b) (collapse i1 j1 k1 blocks acc).
Proof.
  induction blocks as [|[[i2 j2] k2] rest IH]; intros i1 j1 k1 acc H1 Hb Hacc.
  - simpl. destruct (k1 =? 0); [done|]. apply Forall_app. by split; [|constructor].
  - apply Forall_cons in Hb as [H2 Hrest]. cbn [collapse].
    destruct ((i1 + k1 =? i2) && (j1 + k1 =? j2)) eqn:E.
    + apply andb_true_iff in E as [E1%Nat.eqb_eq E2%Nat.eqb_eq]. subst i2 j2.
      apply IH; [by apply matches_join|done|done].
    + apply IH; [done|done|].
      destruct (k1 =? 0); [done|]. apply Forall_app. by split; [|constructor].
Qed.

Lemma opcodes_loop_ok : ∀ blocks i j answer,
  mono i j blocks → Forall (matches a b) blocks → Forall (op_ok a b) answer →
  Forall (op_ok a b) (opcodes_loop i j blocks answer).
Proof.
  induction blocks as [|[[ai bj] size] rest IH]; intros i j answer Hm Hb Hans.
  - done.
  - simpl in Hm. destruct Hm as (Hi & Hj & Hm).
    apply Forall_cons in Hb as [Hblock Hrest]. cbn [opcodes_loop].
    apply IH; [done|done|].
    assert (Hgap : Forall (op_ok a b)
      match (if (i <? ai) && (j <? bj) then Some TagReplace
             else if i <? ai then Some TagDelete
             else if j <? bj then Some TagInsert else None) with
      | Some t => answer ++ [(t, i, ai, j, bj)]
      | None => answer
      end).
    { destruct (Nat.ltb_spec i ai), (Nat.ltb_spec j bj); simpl; try done;
        (apply Forall_app; split; [done|]); constructor; try constructor;
        simpl; lia. }
    destruct (Nat.eqb_spec size 0) as [->|Hs]; [done|].
    apply Forall_app. split; [done|]. constructor; [|constructor].
    simpl. split; [lia|]. split; [lia|]. split; [lia|].
    intros t Ht. apply Hblock. lia.
Qed.

End Soundness.

Section SoundRegions.
Context {K : Type} `{Countable K}.

Lemma chain_b_sound (b : list K) x js j :
  chain_b b !! x = Some js → j ∈ js → b !! j = Some x.
Proof.
  intros Hl Hj. apply chain_b_lookup in Hl as ->.
  apply positions_elem in Hj as [_ Hj]. by rewrite Nat.sub_0_r in Hj.
Qed.

Lemma get_matching_blocks_matches (a b : list K) blocks :
  get_matching_blocks a b = Some blocks → Forall (matches a b) blocks.
Proof.
  unfold get_matching_blocks.
  destruct (matching_loop a b (chain_b b) (2 * length a + 1)
              [(0, length a, 0, length b)] []) as [res|] eqn:E; [|done].
  intros [= <-].
  apply (matching_loop_matches a b (chain_b b) (chain_b_sound b)) in E;
    [|constructor].
  apply Forall_app. split.
  - apply collapse_matches; [apply matches_empty| |constructor].
    by rewrite merge_sort_Permutation.
  - constructor; [apply matches_empty|constructor].
Qed.

Lemma get_opcodes_regions_ok (a b : list K) ops :
  get_opcodes a b = Some ops → Forall (op_ok a b) ops.
Proof.
  intros Hops. unfold get_opcodes in Hops.
  destruct (get_matching_blocks_mono a b) as (blocks & Hb & Hm & _).
  rewrite Hb in Hops. injection Hops as <-.
  apply opcodes_loop_ok; [done| |constructor].
  by apply get_matching_blocks_matches.
Qed.

(** X6: the regions that the engine returns are what their tags say: the
    elements of an [equal] region are the same on both sides, one by one;
    a [delete] region is empty in the new sequence, an [insert] region in
    the old one, and a [replace] region in neither.  This holds with the
    regions following one another from the start of both sequences to
    their ends. *)
Theorem get_opcodes_sound (a b : list K) :
  ∃ ops, get_opcodes a b = Some ops ∧
         tiles 0 0 ops (length a) (length b) ∧
         Forall (op_ok a b) ops.
Proof.
  destruct (get_opcodes_tiles a b) as (ops & Hops & Ht).
  exists ops. split; [done|]. split; [done|].
  by apply get_opcodes_regions_ok.
Qed.

End SoundRegions.

(** ** The comparison rendered *)

Lemma mapM_picked color blocks n : ∀ lo,
  lo + n ≤ length blocks →
  mapM (picked color blocks) (seq lo n) =
    Some (map (pair color) (take n (drop lo blocks))).
Proof.
  intros lo Hlen. apply mapM_Some_2. revert lo Hlen.
  induction n as [|n IH]; intros lo Hlen; [constructor|].
  destruct (lookup_lt_is_Some_2 blocks lo ltac:(lia)) as [x Hx].
  rewrite (drop_S _ _ _ Hx). cbn [seq take map].
  constructor; [|apply IH; lia].
  unfold picked. by rewrite Hx.
Qed.

Lemma seq_shift_Forall2 i1 j1 n : ∀ d,
  Forall2 (λ k k', j1 + (k - i1) = k') (seq (i1 + d) n) (seq (j1 + d) n).
Proof.
  induction n as [|n IH]; intros d; [constructor|].
  cbn [seq]. constructor; [lia|].
  rewrite <- !Nat.add_succ_r. apply IH.
Qed.

Lemma mapM_picked_shift color blocks i1 j1 n :
  j1 + n ≤ length blocks →
  mapM (λ k, picked color blocks (j1 + (k - i1))) (seq i1 n) =
    Some (map (pair color) (take n (drop j1 blocks))).
Proof.
  intros Hlen. rewrite <- (mapM_picked color blocks n j1 Hlen).
  apply Forall2_mapM_ext.
  pose proof (seq_shift_Forall2 i1 j1 n 0) as HF. rewrite !Nat.add_0_r in HF.
  eapply Forall2_impl; [exact HF|]. by intros k k' <-.
Qed.

Lemma take_drop_split {A} (l : list A) i m n :
  take (m + n) (drop i l) = take m (drop i l) ++ take n (drop (i + m) l).
Proof.
  rewrite <- (take_drop m (drop i l)) at 1.
  destruct (Nat.le_gt_cases m (length (drop i l))) as [Hle|Hgt].
  - rewrite take_app_add' by (by rewrite length_take_le).
    by rewrite drop_drop.
  - rewrite (take_ge (drop i l) m) by lia.
    rewrite (drop_ge (drop i l) m) by lia. rewrite app_nil_r.
    rewrite take_ge by lia.
    rewrite (drop_ge l (i + m)); [by rewrite take_nil, app_nil_r|].
    rewrite length_drop in Hgt. lia.
Qed.

Lemma filter_all {A} (P : A → Prop) `{∀ x, Decision (P x)} (l : list A) :
  Forall P l → filter P l = l.
Proof.
  induction 1 as [|x l Hx _ IH]; [done|].
  by rewrite filter_cons_True, IH.
Qed.

Lemma filter_none {A} (P : A → Prop) `{∀ x, Decision (P x)} (l : list A) :
  Forall (λ x, ¬ P x) l → filter P l = [].
Proof.
  induction 1 as [|x l Hx _ IH]; [done|].
  by rewrite filter_cons_False, IH.
Qed.

Section ComparisonBlocks.

Variables orig_blocks new_blocks : list Block.

Local Abbreviation not_red := (λ cb : option (Z * Z * Z) * Block, cb.1 ≠ Some red).
Local Abbreviation not_green := (λ cb : option (Z * Z * Z) * Block, cb.1 ≠ Some green).

Lemma coloured_fst (c : option (Z * Z * Z)) (l : list Block) :
  Forall (λ cb : option (Z * Z * Z) * Block, cb.1 = c) (map (pair c) l).
Proof. induction l; by constructor. Qed.

Lemma coloured_snd (c : option (Z * Z * Z)) (l : list Block) :
  map snd (map (pair c) l) = l.
Proof. induction l as [|x l IH]; [done|]. simpl. by rewrite IH. Qed.

Lemma coloured_keep (P : option (Z * Z * Z) * Block → Prop)
    `{∀ x, Decision (P x)} c (l : list Block) :
  (∀ b, P (c, b)) → filter P (map (pair c) l) = map (pair c) l.
Proof.
  intros HP. apply filter_all. induction l; constructor; [apply HP|done].
Qed.

Lemma coloured_drop (P : option (Z * Z * Z) * Block → Prop)
    `{∀ x, Decision (P x)} c (l : list Block) :
  (∀ b, ¬ P (c, b)) → filter P (map (pair c) l) = [].
Proof.
  intros HP. apply filter_none. induction l; constructor; [apply HP|done].
Qed.

Local Ltac colour :=
  intros ?; cbn [fst]; unfold red, green;
  first [ discriminate | congruence | (let Hb := fresh in intros Hb; by apply Hb) ].

(** One region. *)
Lemma region_blocks_spec tag i1 i2 j1 j2 :
  op_ok (orig_texts orig_blocks) (new_texts new_blocks) (tag, i1, i2, j1, j2) →
  i1 ≤ i2 → j1 ≤ j2 → i2 ≤ length orig_blocks → j2 ≤ length new_blocks →
  ∃ cbs, region_blocks orig_blocks new_blocks (tag, i1, i2, j1, j2) = Some cbs ∧
         map snd (filter not_red cbs) = take (j2 - j1) (drop j1 new_blocks) ∧
         Forall2 stands_for (filter not_green cbs)
           (take (i2 - i1) (drop i1 orig_blocks)).
Proof.
  intros Hok Hi Hj Hi2 Hj2.
  assert (Hred : Forall2 stands_for
                   (map (pair (Some red)) (take (i2 - i1) (drop i1 orig_blocks)))
                   (take (i2 - i1) (drop i1 orig_blocks))).
  { induction (take (i2 - i1) (drop i1 orig_blocks)); constructor; [|done].
    by left. }
  destruct tag; simpl in Hok; cbn [region_blocks].
  - (* replace *)
    rewrite !mapM_picked by lia. eexists. split; [done|].
    rewrite !filter_app.
    rewrite (coloured_drop not_red), (coloured_keep not_red) by colour.
    rewrite (coloured_keep not_green), (coloured_drop not_green) by colour.
    cbn [app]. split; [by rewrite coloured_snd|]. by rewrite app_nil_r.
  - (* delete *)
    destruct Hok as [_ <-]. rewrite mapM_picked by lia. eexists. split; [done|].
    rewrite (coloured_drop not_red), (coloured_keep not_green) by colour.
    rewrite Nat.sub_diag. by split.
  - (* insert *)
    destruct Hok as [<- _]. rewrite mapM_picked by lia. eexists. split; [done|].
    rewrite (coloured_keep not_red), (coloured_drop not_green) by colour.
    rewrite Nat.sub_diag. split; [by rewrite coloured_snd|constructor].
  - (* equal *)
    destruct Hok as (_ & Hn & _ & Heq).
    rewrite mapM_picked_shift by lia. eexists. split; [done|].
    rewrite (coloured_keep not_red), (coloured_keep not_green) by colour.
    split; [by rewrite coloured_snd, Hn|].
    rewrite Hn. apply Forall2_fmap_l.
    apply Forall2_same_length_lookup. split.
    { rewrite !length_take, !length_drop. lia. }
    intros t n o Hn' Ho. right. split; [done|]. simpl.
    apply lookup_take_Some in Hn' as [Hn' Ht].
    apply lookup_take_Some in Ho as [Ho _].
    rewrite lookup_drop in Hn', Ho.
    destruct (Heq t ltac:(lia)) as (x & Hx1 & Hx2).
    unfold orig_texts, new_texts in Hx1, Hx2.
    rewrite list_lookup_fmap, Ho in Hx1. rewrite list_lookup_fmap, Hn' in Hx2.
    simpl in Hx1, Hx2. congruence.
Qed.

Lemma regions_blocks_spec : ∀ ops i j i' j',
  tiles i j ops i' j' →
  Forall (op_ok (orig_texts orig_blocks) (new_texts new_blocks)) ops →
  i' ≤ length orig_blocks → j' ≤ length new_blocks →
  ∃ cbss, mapM (region_blocks orig_blocks new_blocks) ops = Some cbss ∧
          map snd (filter not_red (concat cbss)) =
            take (j' - j) (drop j new_blocks) ∧
          Forall2 stands_for (filter not_green (concat cbss))
            (take (i' - i) (drop i orig_blocks)).
Proof.
  induction ops as [|[[[[tag i1] i2] j1] j2] ops IH]; intros i j i' j' Ht Hok Hi' Hj'.
  - destruct Ht as [-> ->]. exists []. rewrite !Nat.sub_diag. simpl.
    split; [done|]. split; [done|constructor].
  - simpl in Ht. destruct Ht as (-> & -> & Hi & Hj & _ & Ht).
    apply Forall_cons in Hok as [Hop Hok].
    destruct (tiles_old_range _ _ _ _ _ Ht) as [Hle1 _].
    destruct (tiles_new_range _ _ _ _ _ Ht) as [Hle2 _].
    destruct (region_blocks_spec tag i i2 j j2 Hop) as (cbs & Hcbs & Hn & Ho);
      [lia..|].
    destruct (IH i2 j2 i' j' Ht Hok Hi' Hj') as (cbss & Hcbss & Hn' & Ho').
    exists (cbs :: cbss). split.
    { apply mapM_Some_2. constructor; [done|by apply mapM_Some_1]. }
    cbn [concat]. rewrite !filter_app, map_app, Hn, Hn'. split.
    + replace (j' - j) with ((j2 - j) + (j' - j2)) by lia.
      rewrite take_drop_split. by replace (j + (j2 - j)) with j2 by lia.
    + replace (i' - i) with ((i2 - i) + (i' - i2)) by lia.
      rewrite take_drop_split. replace (i + (i2 - i)) with i2 by lia.
      by apply Forall2_app.
Qed.

Lemma comparison_blocks_total :
  is_Some (comparison_blocks orig_blocks new_blocks).
Proof.
  destruct (get_opcodes_tiles (orig_texts orig_blocks) (new_texts new_blocks))
    as (ops & Hops & Ht).
  pose proof (get_opcodes_regions_ok _ _ _ Hops) as Hok.
  unfold orig_texts, new_texts in Ht. rewrite !length_map in Ht.
  destruct (regions_blocks_spec ops 0 0 _ _ Ht Hok) as (cbss & Hc & _);
    [done..|].
  unfold comparison_blocks, diff. rewrite Hops. simpl. rewrite Hc. by eexists.
Qed.

(** X7: the loop over the regions never takes a block at an index that does
    not exist.  The blocks that it copies without colour or in green are,
    in their order, the blocks of the new document; the blocks that it
    copies without colour or in red stand, in their order, for the blocks
    of the original: a red one is that block of the original, and one
    without colour is a block of the new document with the same key. *)
Theorem comparison_blocks_versions :
  ∃ cbs, comparison_blocks orig_blocks new_blocks = Some cbs ∧
         map snd (filter not_red cbs) = new_blocks ∧
         Forall2 stands_for (filter not_green cbs) orig_blocks.
Proof.
  destruct (get_opcodes_tiles (orig_texts orig_blocks) (new_texts new_blocks))
    as (ops & Hops & Ht).
  pose proof (get_opcodes_regions_ok _ _ _ Hops) as Hok.
  unfold orig_texts, new_texts in Ht. rewrite !length_map in Ht.
  destruct (regions_blocks_spec ops 0 0 _ _ Ht Hok) as (cbss & Hc & Hn & Ho);
    [done..|].
  exists (concat cbss). unfold comparison_blocks, diff. rewrite Hops.
  simpl. rewrite Hc. split; [done|].
  rewrite Nat.sub_0_r, drop_0, firstn_all in Hn, Ho. done.
Qed.

End ComparisonBlocks.

(** ** What a rendered block is *)

Section RenderBlock.

Variable Pt_of_pt : Z → Z.
Variable line_spacing_of : Z → Z.

Lemma recolor_text color p : map run_text (runs (recolor color p)) = map run_text (runs p).
Proof. destruct color; [|done]. simpl. by rewrite map_map. Qed.

Lemma recolor_colours c p :
  Forall (λ r, font_color r = Some c) (runs (recolor (Some c) p)).
Proof. simpl. induction (runs p); by constructor. Qed.

(** X8: the copy of a paragraph into the comparison has the runs of the
    paragraph, text by text: the square brackets that the new paragraph
    is created with never reach the comparison.  With a colour, every
    run has this colour; without, every run has the colour of the run
    that it copies. *)
Theorem render_block_paragraph (color : option (Z * Z * Z)) (p : ParagraphT) :
  ∃ q, render_block Pt_of_pt line_spacing_of (color, Paragraph p) = Paragraph q ∧
       map run_text (runs q) = map run_text (runs p) ∧
       text q = text p ∧
       match color with
       | Some c => Forall (λ r, font_color r = Some c) (runs q)
       | None => map font_color (runs q) = map font_color (runs p)
       end.
Proof.
  unfold render_block. cbn [fst snd].
  match goal with
  | |- context [deep_copy_paragraph _ _ p ?c] => generalize c
  end.
  intros created.
  exists (recolor color (deep_copy_paragraph Pt_of_pt line_spacing_of p created)).
  split; [done|].
  assert (Ht : map run_text (runs (recolor color
                 (deep_copy_paragraph Pt_of_pt line_spacing_of p created)))
               = map run_text (runs p)).
  { rewrite recolor_text. simpl. by rewrite map_map. }
  split; [done|]. split; [unfold text; by rewrite Ht|].
  destruct color as [c|]; [apply recolor_colours|].
  simpl. by rewrite map_map.
Qed.

End RenderBlock.

(** ** [process_part_b] as a whole *)

Section ComparisonPipelineProperties.

Variable Pt_of_pt : Z → Z.
Variable line_spacing_of : Z → Z.

Lemma add_blocks_body_of s (f : option (Z * Z * Z) * Block → Block) cbs : ∀ l,
  foldl (λ body cb, (add_block body (f cb)).1) (body_of s l) cbs =
    body_of s (l ++ map f cbs).
Proof.
  induction cbs as [|cb cbs IH]; intros l; cbn [foldl map]; [by rewrite app_nil_r|].
  rewrite add_block_body_of. cbn [fst]. rewrite IH. by rewrite <- app_assoc.
Qed.

Lemma insert_references_body_of ref_p s l :
  insert_references ref_p (body_of s l) = body_of s (with_references ref_p l).
Proof.
  unfold insert_references. rewrite iter_block_items_body_of.
  apply (splice_descending ref_p s l []).
Qed.

(** X9: the comparison document is always produced.  It is made of the two
    explanatory tables and, after them, of the copies of the blocks that
    the loop over the regions selects, in their order, with a reference
    paragraph before each copy that is a marked article title; the desktop
    front end then adds its spacer. *)
Theorem process_part_b_structure (desktop : bool) (orig new_d gov : list BodyChild) :
  ∃ t1 t2 cbs,
    comparison_blocks (iter_block_items orig) (iter_block_items new_d) = Some cbs ∧
    let ref_p := reference_paragraph desktop
                   (extract_amending_ref (iter_block_items gov)) in
    let diff_doc :=
      body_of true
        ([Table t1; Table t2] ++
         with_references ref_p (map (render_block Pt_of_pt line_spacing_of) cbs)) in
    process_part_b Pt_of_pt line_spacing_of desktop orig new_d gov =
      Some (if desktop
            then add_spacer Pt_of_pt line_spacing_of diff_doc
            else diff_doc).
Proof.
  destruct (comparison_blocks_total (iter_block_items orig) (iter_block_items new_d))
    as (cbs & Hcbs).
  unfold process_part_b.
  destruct (add_explanatory_table [CSectPr]) as [diff_doc0|] eqn:E0;
    [|by vm_compute in E0].
  assert (∃ t1 t2, diff_doc0 = body_of true [Table t1; Table t2]) as (t1 & t2 & ->).
  { vm_compute in E0. injection E0 as <-. by eexists _, _. }
  exists t1, t2, cbs. split; [done|]. cbv zeta.
  unfold render_comparison. rewrite Hcbs.
  rewrite add_blocks_body_of, insert_references_body_of. done.
Qed.

End ComparisonPipelineProperties.

(** ** The spans of [extract_articles] *)

(** X10: every entry of the result of [extract_articles] is a span that is
    not empty, lies within the sequence, starts at a header whose trimmed
    text is the key, holds no other header, and ends at a header or at the
    end of the sequence; and the spans of two entries do not overlap. *)
Theorem extract_articles_spans_apart (blocks : list Block)
    (k1 k2 : Py.str) (s1 e1 s2 e2 : nat) :
  extract_articles blocks !! k1 = Some (s1, e1) →
  extract_articles blocks !! k2 = Some (s2, e2) →
  (s1 < e1 ≤ length blocks ∧
   (∃ b, blocks !! s1 = Some b ∧ is_header b = true ∧ header_key b = k1) ∧
   (∀ i b, s1 < i < e1 → blocks !! i = Some b → is_header b = false) ∧
   (e1 = length blocks ∨ ∃ b, blocks !! e1 = Some b ∧ is_header b = true)) ∧
  (k1 ≠ k2 → e1 ≤ s2 ∨ e2 ≤ s1).
Proof.
  assert (Hwf : ∀ k s e, extract_articles blocks !! k = Some (s, e) →
    s < e ≤ length blocks ∧
    (∃ b, blocks !! s = Some b ∧ is_header b = true ∧ header_key b = k) ∧
    (∀ i b, s < i < e → blocks !! i = Some b → is_header b = false) ∧
    (e = length blocks ∨ ∃ b, blocks !! e = Some b ∧ is_header b = true)).
  { intros k s e (b & Hb & Hh & Hk & ->)%extract_articles_entry.
    pose proof (lookup_lt_Some _ _ _ Hb) as Hs.
    destruct (next_boundary_spec (drop (S s) blocks) (S s)) as (Hr & Hno & Hend).
    rewrite length_drop in Hr, Hend.
    set (e := next_boundary (S s) (drop (S s) blocks)) in *.
    split; [lia|]. split; [by exists b|]. split.
    - intros i b' Hi Hb'. apply (Hno (i - S s) b'); [lia|].
      rewrite lookup_drop. by replace (S s + (i - S s)) with i by lia.
    - destruct Hend as [Hend|(b' & Hb' & Hh')]; [left; lia|right].
      exists b'. rewrite lookup_drop in Hb'.
      by replace (S s + (e - S s)) with e in Hb' by lia. }
  intros H1 H2. split; [by apply Hwf|]. intros Hne.
  destruct (Hwf _ _ _ H1) as (Hr1 & (b1 & Hb1 & Hh1 & Hk1) & Hno1 & _).
  destruct (Hwf _ _ _ H2) as (Hr2 & (b2 & Hb2 & Hh2 & Hk2) & Hno2 & _).
  assert (s1 ≠ s2) by (intros ->; congruence).
  destruct (Nat.lt_ge_cases s2 e1) as [Hlt|Hge]; [|by left]. right.
  destruct (Nat.lt_ge_cases s1 e2) as [Hlt'|Hge']; [|done].
  destruct (Nat.lt_ge_cases s1 s2).
  - specialize (Hno1 s2 b2 ltac:(lia) Hb2). congruence.
  - specialize (Hno2 s1 b1 ltac:(lia) Hb1). congruence.
Qed.

Lemma extract_articles_spans_apart_witness :
  let blocks := [para "Uvod"; para "Član 1"; para "a"; para "Član 2"; para "b"] in
  (1 < 3 ≤ length blocks ∧
   (∃ b, blocks !! 1 = Some b ∧ is_header b = true ∧ header_key b = Py.lit "Član 1") ∧
   (∀ i b, 1 < i < 3 → blocks !! i = Some b → is_header b = false) ∧
   (3 = length blocks ∨ ∃ b, blocks !! 3 = Some b ∧ is_header b = true)) ∧
  (Py.lit "Član 1" ≠ Py.lit "Član 2" → 3 ≤ 3 ∨ 5 ≤ 1).
Proof.
  intros blocks.
  apply (extract_articles_spans_apart blocks (Py.lit "Član 1") (Py.lit "Član 2") 1 3 3 5).
  - vm_compute. reflexivity.
  - vm_compute. reflexivity.
Defined.


(** ** [process_part_a] without an article to amend *)

Section NoAmendment.

Variable Pt_of_pt : Z → Z.
Variable line_spacing_of : Z → Z.
Context {Service : Type}.
Variable create : Service → Py.str → option Py.str * Service.
Variable prompt_head : Py.str.

Lemma amend_all_no_match (orig_paragraphs : list ParagraphT)
    (arts : gmap Py.str (nat * nat)) (todo : list (Py.str * Py.str)) :
  ∀ state : list BodyChild * Service,
  Forall (λ im : Py.str * Py.str, arts !! (Py.lit "Član " ++ im.2) = None) todo →
  amend_all Pt_of_pt line_spacing_of create prompt_head orig_paragraphs arts
    todo state = Some state.
Proof.
  induction todo as [|[inst num] todo IH]; intros state Hno; [done|].
  apply Forall_cons in Hno as [Hn Hno]. cbn [amend_all].
  unfold amend_article. destruct state as [body svc]. cbn [snd] in Hn.
  rewrite Hn. by apply IH.
Qed.

(** X12: when no instruction of the amendment document names an article whose
    trimmed title is, character by character, the word for article, one
    space and the number, [process_part_a] returns the copy of the
    original with the merged citation, and the service is not called. *)
Theorem process_part_a_no_match (orig amend_doc : list BodyChild) (svc : Service) :
  (∀ inst m, inst ∈ find_amendments amend_doc → m ∈ CHANGE_RE_findall inst →
     extract_articles (iter_block_items (copied_and_merged Pt_of_pt line_spacing_of orig amend_doc))
       !! (Py.lit "Član " ++ m.1) = None) →
  process_part_a Pt_of_pt line_spacing_of create prompt_head orig amend_doc svc =
    Some (copied_and_merged Pt_of_pt line_spacing_of orig amend_doc, svc).
Proof.
  intros Hno. unfold process_part_a. fold (copied_and_merged Pt_of_pt line_spacing_of orig amend_doc).
  apply amend_all_no_match. apply Forall_forall. intros [inst num] Hin.
  apply list_elem_of_In, in_flat_map in Hin as (inst' & Hinst & Hin).
  apply in_map_iff in Hin as (m & Hm & Hin). injection Hm as <- <-.
  apply (Hno inst' m); by apply list_elem_of_In.
Qed.

End NoAmendment.

(** An article that carries the marker of an earlier amendment is not
    amended again. *)
Lemma process_part_a_no_match_witness :
  process_part_a id id failing_service [] marked_law repeal_instruction 0 =
    Some (copied_and_merged id id marked_law repeal_instruction, 0).
Proof.
  apply (process_part_a_no_match id id failing_service [] marked_law
           repeal_instruction 0).
  intros inst m Hin Hm.
  assert (Ha : find_amendments repeal_instruction =
               [Py.lit "Odredbe člana 1. stav 2. Zakona o računovodstvu prestaju da važe."])
    by (vm_compute; reflexivity).
  rewrite Ha in Hin. apply list_elem_of_singleton in Hin. subst inst.
  assert (Hc : CHANGE_RE_findall
                 (Py.lit "Odredbe člana 1. stav 2. Zakona o računovodstvu prestaju da važe.")
               = [(Py.lit "1", Py.lit "2")])
    by (vm_compute; reflexivity).
  rewrite Hc in Hm. apply list_elem_of_singleton in Hm. subst m.
  vm_compute. reflexivity.
Defined.

(** ** A paragraph copied onto itself *)

(** X13: [deep_copy_paragraph(p, p)] empties the paragraph: the runs are read
    after the target has been cleared.  Nothing else changes. *)
Theorem deep_copy_paragraph_onto_itself (Pt_of_pt line_spacing_of : Z → Z)
    (h : Store.Heap) (p : positive) (f : ParaFormat) (rs : list positive) :
  h !! p = Some (Store.NParagraph f rs) →
  Store.deep_copy_paragraph Pt_of_pt line_spacing_of p p h =
    <[p := Store.NParagraph (copy_format Pt_of_pt line_spacing_of f f) []]> h ∧
  Store.read_paragraph (Store.deep_copy_paragraph Pt_of_pt line_spacing_of p p h) p =
    Some (mkParagraph (copy_format Pt_of_pt line_spacing_of f f) []).
Proof.
  intros Hp.
  assert (E : Store.deep_copy_paragraph Pt_of_pt line_spacing_of p p h =
    <[p := Store.NParagraph (copy_format Pt_of_pt line_spacing_of f f) []]> h).
  { unfold Store.deep_copy_paragraph. rewrite Hp, lookup_insert_eq. done. }
  split; [done|]. rewrite E. unfold Store.read_paragraph.
  by rewrite lookup_insert_eq.
Qed.

Lemma deep_copy_paragraph_onto_itself_witness :
  Store.deep_copy_paragraph id id 2 2 Store.example_heap =
    <[2%positive := Store.NParagraph (copy_format id id default_format default_format) []]>
      Store.example_heap ∧
  Store.read_paragraph (Store.deep_copy_paragraph id id 2 2 Store.example_heap) 2 =
    Some (mkParagraph (copy_format id id default_format default_format) []).
Proof.
  apply (deep_copy_paragraph_onto_itself id id Store.example_heap 2 default_format
           [3%positive]).
  vm_compute. reflexivity.
Defined.

(** ** The copy of a table in a colour *)

Lemma recolor_keeps_text color p : text (recolor color p) = text p.
Proof. unfold text. by rewrite recolor_text. Qed.

Lemma copy_cell_copied (Pt_of_pt line_spacing_of : Z → Z) c cell :
  cell_copied c cell (copy_cell Pt_of_pt line_spacing_of (Some c) cell).
Proof.
  unfold cell_copied, copy_cell. cbn [cell_paragraphs cell_shading].
  split; [|split; [|done]].
  - cbn [map]. f_equal. rewrite map_map. apply map_ext. intros sp.
    by rewrite recolor_keeps_text, deep_copy_paragraph_text.
  - constructor; [constructor|]. apply Forall_forall. intros q Hq.
    apply list_elem_of_fmap in Hq as (sp & -> & _). apply recolor_colours.
Qed.

(** X14: [deep_copy_table] with a colour, on the documents as objects: the
    objects that exist, the body of the target apart, are left as they
    are; the body of the target gets one more child, a new object, which
    reads as a table with single borders and, row by row and cell by cell,
    the texts of the source after one empty paragraph, every run in the
    colour. *)
Theorem deep_copy_table_coloured (Pt_of_pt line_spacing_of : Z → Z)
    (h : Store.Heap) (source_table doc : positive) (tv : TableT)
    (bs : list positive) (c : Z * Z * Z) :
  Store.read_table h source_table = Some tv →
  h !! doc = Some (Store.NBody bs) →
  let h' := Store.deep_copy_table Pt_of_pt line_spacing_of source_table doc (Some c) h in
  (∀ l, l ∈ dom h → l ≠ doc → h' !! l = h !! l) ∧
  ∃ t tv', (t ∉ dom h) ∧ h' !! doc = Some (Store.NBody (bs ++ [t])) ∧
           Store.read_table h' t = Some tv' ∧
           single_borders tv' = true ∧
           Forall2 (Forall2 (cell_copied c)) (rows tv) (rows tv').
Proof.
  intros Hsrc Hdoc.
  destruct (deep_copy_table_spec Pt_of_pt line_spacing_of source_table doc (Some c)
              h tv bs Hsrc Hdoc) as ([_ Hm] & t & Hnew & Hdoc' & Hread).
  cbv zeta. split.
  { intros l Hl Hne. apply Hm; [done|]. by intros ->%list_elem_of_singleton. }
  exists t, (deep_copy_table Pt_of_pt line_spacing_of tv (Some c)).
  split; [done|]. split; [done|]. split; [done|]. split; [done|].
  simpl. apply Forall2_fmap_r. apply Forall_Forall2_diag, Forall_forall.
  intros row _. apply Forall2_fmap_r. apply Forall_Forall2_diag, Forall_forall.
  intros cell _. apply copy_cell_copied.
Qed.

Lemma deep_copy_table_coloured_witness :
  let tv := mkTable false
              [[mkCell (Some (Py.lit "FFFF00")) [new_paragraph (Py.lit "a")]]] in
  let h' := Store.deep_copy_table id id 4 8 (Some red) Store.example_heap in
  (∀ l, l ∈ dom Store.example_heap → l ≠ 8%positive →
        h' !! l = Store.example_heap !! l) ∧
  ∃ t tv', (t ∉ dom Store.example_heap) ∧
           h' !! 8%positive = Some (Store.NBody ([] ++ [t])) ∧
           Store.read_table h' t = Some tv' ∧
           single_borders tv' = true ∧
           Forall2 (Forall2 (cell_copied red)) (rows tv) (rows tv').
Proof.
  intros tv h'.
  apply (deep_copy_table_coloured id id Store.example_heap 4 8 tv [] red).
  - vm_compute. reflexivity.
  - vm_compute. reflexivity.
Defined.

(** ** Sequences without a common element *)

Section Disjoint.
Context {K : Type} `{Countable K}.
Variables a b : list K.
Hypothesis disjoint : ∀ x, x ∈ a → x ∉ b.

Lemma b2j_get_disjoint i : b2j_get a (chain_b b) i = [].
Proof.
  unfold b2j_get. destruct (a !! i) as [x|] eqn:Ea; [|done].
  destruct (chain_b b !! x) as [js|] eqn:Ej; [|done]. simpl.
  apply chain_b_lookup in Ej as ->.
  destruct (positions x 0 b) as [|j js] eqn:Ep; [done|].
  assert (Hj : j ∈ positions x 0 b) by (rewrite Ep; left).
  apply positions_elem in Hj as [_ Hj].
  destruct (disjoint x); [by eapply list_elem_of_lookup_2|].
  by eapply list_elem_of_lookup_2.
Qed.

Lemma outer_loop_disjoint blo bhi range : ∀ j2len best,
  outer_loop a (chain_b b) blo bhi range j2len best = best.
Proof.
  induction range as [|i range IH]; intros j2len best; [done|].
  cbn [outer_loop]. rewrite b2j_get_disjoint. cbn [inner_loop]. apply IH.
Qed.

Lemma same_element_disjoint junk i j : same_element a b junk i j = false.
Proof.
  unfold same_element. destruct (a !! i) as [x|] eqn:Ea; [|done].
  destruct (b !! j) as [y|] eqn:Eb; [|done].
  rewrite bool_decide_eq_false_2; [by rewrite andb_false_r|].
  intros ->. destruct (disjoint y); by eapply list_elem_of_lookup_2.
Qed.

Lemma extend_back_disjoint junk alo blo i j k :
  extend_back a b junk alo blo i j k = (i, j, k).
Proof.
  destruct i as [|i'], j as [|j']; try done. cbn [extend_back].
  by rewrite same_element_disjoint, andb_false_r.
Qed.

Lemma extend_forward_disjoint junk ahi bhi i j room k :
  extend_forward a b junk ahi bhi i j room k = k.
Proof.
  destruct room as [|room]; [done|]. cbn [extend_forward].
  by rewrite same_element_disjoint, andb_false_r.
Qed.

Lemma find_longest_match_disjoint alo ahi blo bhi :
  find_longest_match a b (chain_b b) alo ahi blo bhi = (alo, blo, 0).
Proof.
  unfold find_longest_match. rewrite outer_loop_disjoint.
  by rewrite !extend_back_disjoint, !extend_forward_disjoint.
Qed.

Lemma get_opcodes_disjoint :
  get_opcodes a b =
    Some (if (0 <? length a) && (0 <? length b)
          then [(TagReplace, 0, length a, 0, length b)]
          else if 0 <? length a then [(TagDelete, 0, length a, 0, length b)]
          else if 0 <? length b then [(TagInsert, 0, length a, 0, length b)]
          else []).
Proof.
  unfold get_opcodes, get_matching_blocks.
  replace (2 * length a + 1) with (S (2 * length a)) by lia.
  cbn [matching_loop]. rewrite find_longest_match_disjoint.
  cbn [Nat.eqb]. 
  assert (Hnil : matching_loop a b (chain_b b) (2 * length a) [] [] = Some [])
    by (by destruct (2 * length a)).
  rewrite Hnil.
  change (merge_sort match_le []) with (@nil Match).
  cbn [collapse Nat.eqb app opcodes_loop].
  destruct (0 <? length a), (0 <? length b); done.
Qed.

End Disjoint.

(** X15: two documents without a common key are compared as one region: every
    block of the original is copied in red, and after them every block of
    the new document in green.  So it is for an empty original and for an
    empty new document. *)
Theorem comparison_blocks_disjoint (orig_blocks new_blocks : list Block) :
  (∀ o n, o ∈ orig_blocks → n ∈ new_blocks → orig_key o ≠ new_key n) →
  comparison_blocks orig_blocks new_blocks =
    Some (map (pair (Some red)) orig_blocks ++ map (pair (Some green)) new_blocks).
Proof.
  intros Hdis. unfold comparison_blocks, diff.
  rewrite get_opcodes_disjoint.
  2:{ intros x (o & -> & Ho)%list_elem_of_fmap (n & Hx & Hn)%list_elem_of_fmap.
      by apply (Hdis o n). }
  unfold orig_texts, new_texts. rewrite !length_map.
  pose proof (mapM_picked (Some red) orig_blocks (length orig_blocks) 0
                ltac:(lia)) as Hred.
  pose proof (mapM_picked (Some green) new_blocks (length new_blocks) 0
                ltac:(lia)) as Hgreen.
  rewrite drop_0, firstn_all in Hred, Hgreen.
  assert (Hone : ∀ op cbs, region_blocks orig_blocks new_blocks op = Some cbs →
            mapM (region_blocks orig_blocks new_blocks) [op] = Some [cbs]).
  { intros op cbs Hop. apply mapM_Some_2. constructor; [done|constructor]. }
  destruct (0 <? length orig_blocks) eqn:Eo, (0 <? length new_blocks) eqn:En;
    cbn [andb].
  - erewrite Hone; [|cbn [region_blocks]; by rewrite !Nat.sub_0_r, Hred, Hgreen].
    simpl. by rewrite app_nil_r.
  - apply Nat.ltb_ge in En. destruct new_blocks; [|simpl in En; lia].
    erewrite Hone; [|cbn [region_blocks]; by rewrite !Nat.sub_0_r, Hred].
    simpl. by rewrite !app_nil_r.
  - apply Nat.ltb_ge in Eo. destruct orig_blocks; [|simpl in Eo; lia].
    erewrite Hone; [|cbn [region_blocks]; by rewrite !Nat.sub_0_r, Hgreen].
    simpl. by rewrite !app_nil_r.
  - apply Nat.ltb_ge in Eo. apply Nat.ltb_ge in En.
    destruct orig_blocks; [|simpl in Eo; lia].
    destruct new_blocks; [|simpl in En; lia]. done.
Qed.

Lemma comparison_blocks_disjoint_witness :
  comparison_blocks [para "a"; para "b"] [empty_table] =
    Some (map (pair (Some red)) [para "a"; para "b"] ++
          map (pair (Some green)) [empty_table]).
Proof.
  apply comparison_blocks_disjoint.
  intros o n Ho Hn. apply list_elem_of_singleton in Hn as ->.
  apply elem_of_cons in Ho as [->|Ho].
  { vm_compute. discriminate. }
  apply list_elem_of_singleton in Ho as ->. vm_compute. discriminate.
Defined.

(** ** The instructions: [CHANGE_RE.findall] *)

Lemma startswith_prefix s p : Py.startswith s p = true → s = p ++ drop (length p) s.
Proof.
  revert s. induction p as [|c p IH]; intros s Hs; [done|].
  destruct s as [|d s]; [done|]. simpl in Hs.
  apply andb_true_iff in Hs as [->%Z.eqb_eq Hs]. simpl. f_equal. by apply IH.
Qed.

Lemma leading_digits_spec s d rest :
  leading_digits s = (d, rest) →
  s = d ++ rest ∧ Forall (λ c, Py.isdecimal_char c = true) d.
Proof.
  revert d rest. induction s as [|c s IH]; intros d rest Hl; simpl in Hl.
  - by injection Hl as <- <-.
  - destruct (Py.isdecimal_char c) eqn:E.
    + destruct (leading_digits s) as [d' rest'] eqn:El.
      injection Hl as <- <-. destruct (IH d' rest' eq_refl) as [-> Hd].
      split; [done|]. by constructor.
    + injection Hl as <- <-. by split.
Qed.

Lemma change_at_sound s article_num stav_num len :
  change_at s = Some (article_num, stav_num, len) →
  article_num ≠ [] ∧ stav_num ≠ [] ∧
  Forall (λ c, Py.isdecimal_char c = true) article_num ∧
  Forall (λ c, Py.isdecimal_char c = true) stav_num ∧
  ∃ post, s = Py.lit "člana " ++ article_num ++ Py.lit ". stav " ++ stav_num ++
              Py.lit ". Zakona o računovodstvu" ++ post.
Proof.
  unfold change_at.
  set (l1 := Py.lit "člana "). set (l2 := Py.lit ". stav ").
  set (l3 := Py.lit ". Zakona o računovodstvu").
  destruct (Py.startswith s l1) eqn:E1; [|done].
  apply startswith_prefix in E1.
  destruct (leading_digits (drop (length l1) s)) as [a r1] eqn:Ea.
  apply leading_digits_spec in Ea as [Ea Hda].
  destruct (Py.truthy a) eqn:Ta; [|done]. cbn [andb].
  destruct (Py.startswith r1 l2) eqn:E2; [|done].
  apply startswith_prefix in E2.
  destruct (leading_digits (drop (length l2) r1)) as [st r2] eqn:Es.
  apply leading_digits_spec in Es as [Es Hds].
  destruct (Py.truthy st) eqn:Ts; [|done]. cbn [andb].
  destruct (Py.startswith r2 l3) eqn:E3; [|done].
  apply startswith_prefix in E3.
  intros [= <- <- <-].
  split; [by destruct a|]. split; [by destruct st|]. split; [done|]. split; [done|].
  exists (drop (length l3) r2).
  rewrite E1 at 1. rewrite Ea. rewrite E2 at 1. rewrite Es. rewrite E3 at 1. done.
Qed.

(** X16: every pair that [CHANGE_RE.findall] returns stands in the instruction:
    two numbers, each of one decimal digit or more, between the three
    fixed parts of the pattern, the last of which names the one statute. *)
Theorem CHANGE_RE_findall_sound (inst article_num stav_num : Py.str) :
  (article_num, stav_num) ∈ CHANGE_RE_findall inst →
  article_num ≠ [] ∧ stav_num ≠ [] ∧
  Forall (λ c, Py.isdecimal_char c = true) article_num ∧
  Forall (λ c, Py.isdecimal_char c = true) stav_num ∧
  ∃ pre post, inst = pre ++ Py.lit "člana " ++ article_num ++ Py.lit ". stav " ++
                     stav_num ++ Py.lit ". Zakona o računovodstvu" ++ post.
Proof.
  unfold CHANGE_RE_findall. generalize 0 at 1. intros skip. revert skip.
  induction inst as [|c r IH]; intros skip Hin; [inversion Hin|].
  assert (Hrec : ∀ k, (article_num, stav_num) ∈ findall_from k r →
    article_num ≠ [] ∧ stav_num ≠ [] ∧
    Forall (λ c, Py.isdecimal_char c = true) article_num ∧
    Forall (λ c, Py.isdecimal_char c = true) stav_num ∧
    ∃ pre post, c :: r = pre ++ Py.lit "člana " ++ article_num ++ Py.lit ". stav " ++
                     stav_num ++ Py.lit ". Zakona o računovodstvu" ++ post).
  { intros k Hk. destruct (IH k Hk) as (H1 & H2 & H3 & H4 & pre & post & ->).
    repeat (split; [done|]). by exists (c :: pre), post. }
  cbn [findall_from] in Hin. destruct skip as [|k]; [|by apply (Hrec k)].
  destruct (change_at (c :: r)) as [[[a st] len]|] eqn:E; [|by apply (Hrec 0)].
  apply elem_of_cons in Hin as [[= -> ->]|Hin]; [|by apply (Hrec (len - 1))].
  apply change_at_sound in E as (H1 & H2 & H3 & H4 & post & E).
  repeat (split; [done|]). by exists [], post.
Qed.

Lemma CHANGE_RE_findall_sound_witness :
  Py.lit "64" ≠ [] ∧ Py.lit "3" ≠ [] ∧
  Forall (λ c, Py.isdecimal_char c = true) (Py.lit "64") ∧
  Forall (λ c, Py.isdecimal_char c = true) (Py.lit "3") ∧
  ∃ pre post,
    Py.lit "Odredba člana 64. stav 3. Zakona o računovodstvu prestaju da važe." =
      pre ++ Py.lit "člana " ++ Py.lit "64" ++ Py.lit ". stav " ++ Py.lit "3" ++
      Py.lit ". Zakona o računovodstvu" ++ post.
Proof.
  apply (CHANGE_RE_findall_sound
           (Py.lit "Odredba člana 64. stav 3. Zakona o računovodstvu prestaju da važe.")).
  vm_compute. left.
Defined.

(** ** [deep_copy_paragraph] on the documents as objects *)

(** X17: [deep_copy_paragraph(source, target)] for two paragraphs that are not
    one object: the objects that exist, the target apart, are left as
    they are, and so the source reads as before; the target reads as the
    copy, with the runs of the source and none of the runs that it had;
    and its runs are new objects, none is a run of the source. *)
Theorem deep_copy_paragraph_replaces_runs (Pt_of_pt line_spacing_of : Z → Z)
    (h : Store.Heap) (source target : positive) (sv : ParagraphT)
    (ft : ParaFormat) (rs_t : list positive) :
  Store.read_paragraph h source = Some sv →
  h !! target = Some (Store.NParagraph ft rs_t) →
  source ≠ target →
  let h' := Store.deep_copy_paragraph Pt_of_pt line_spacing_of source target h in
  (∀ l, l ∈ dom h → l ≠ target → h' !! l = h !! l) ∧
  Store.read_paragraph h' source = Some sv ∧
  Store.read_paragraph h' target =
    Some (mkParagraph (copy_format Pt_of_pt line_spacing_of (pformat sv) ft)
            (map copy_run (runs sv))) ∧
  ∃ rs', h' !! target =
           Some (Store.NParagraph
                   (copy_format Pt_of_pt line_spacing_of (pformat sv) ft) rs') ∧
         ∀ l, l ∈ rs' → l ∉ dom h.
Proof.
  intros Hs Ht Hne.
  destruct (deep_copy_paragraph_spec Pt_of_pt line_spacing_of source target h sv
              ft rs_t Hs Ht Hne) as (Hm & Hr & rs' & Ht' & Hnew).
  cbv zeta. split.
  { intros l Hl Hl'. destruct Hm as [_ Hm]. apply Hm; [done|].
    by intros ->%list_elem_of_singleton. }
  split.
  { eapply (read_paragraph_stable [target] h); [exact Hm| | |exact Hs].
    - eapply above_single; [exact Ht|simpl; lia].
    - by intros ->%list_elem_of_singleton. }
  split; [exact Hr|]. by exists rs'.
Qed.

Lemma deep_copy_paragraph_replaces_runs_witness :
  let h' := Store.deep_copy_paragraph id id 2 6 Store.example_heap in
  (∀ l, l ∈ dom Store.example_heap → l ≠ 6%positive →
        h' !! l = Store.example_heap !! l) ∧
  Store.read_paragraph h' 2 = Some (new_paragraph (Py.lit "Član 1")) ∧
  Store.read_paragraph h' 6 =
    Some (mkParagraph
            (copy_format id id (pformat (new_paragraph (Py.lit "Član 1"))) default_format)
            (map copy_run (runs (new_paragraph (Py.lit "Član 1"))))) ∧
  ∃ rs', h' !! 6%positive =
           Some (Store.NParagraph
                   (copy_format id id (pformat (new_paragraph (Py.lit "Član 1")))
                      default_format) rs') ∧
         ∀ l, l ∈ rs' → l ∉ dom Store.example_heap.
Proof.
  intros h'.
  apply (deep_copy_paragraph_replaces_runs id id Store.example_heap 2 6
           (new_paragraph (Py.lit "Član 1")) default_format [7%positive]).
  - vm_compute. reflexivity.
  - vm_compute. reflexivity.
  - discriminate.
Defined.

(** ** [process_part_a]: the indices of the first amendment *)

Lemma span_texts_in_range ps count : ∀ s,
  s + count ≤ length ps → is_Some (span_texts ps s count).
Proof.
  induction count as [|count IH]; intros s Hlen; [by eexists|].
  cbn [span_texts].
  destruct (lookup_lt_is_Some_2 ps s ltac:(lia)) as [p ->].
  destruct (IH (S s) ltac:(lia)) as [ts ->]. by eexists.
Qed.

Lemma remove_paragraph_in_range : ∀ body k,
  k < length (paragraphs body) →
  ∃ body', remove_paragraph k body = Some body' ∧
           S (length (paragraphs body')) = length (paragraphs body).
Proof.
  induction body as [|c r IH]; intros k Hk; [simpl in Hk; lia|].
  assert (Hrec : ∀ k', k' < length (paragraphs r) →
    ∃ body', option_map (cons c) (remove_paragraph k' r) = Some body' ∧
             paragraphs body' = paragraphs [c] ++ paragraphs (default [] (remove_paragraph k' r)) ∧
             S (length (paragraphs (default [] (remove_paragraph k' r)))) = length (paragraphs r)).
  { intros k' Hk'. destruct (IH k' Hk') as (r' & -> & Hlen).
    exists (c :: r'). split; [done|]. split; [|done].
    change (c :: r') with ([c] ++ r'). unfold paragraphs. by rewrite flat_map_app. }
  change (c :: r) with ([c] ++ r) in Hk. unfold paragraphs in Hk.
  rewrite flat_map_app, length_app in Hk. fold (paragraphs r) in Hk.
  change (c :: r) with ([c] ++ r) at 2. unfold paragraphs at 2.
  rewrite flat_map_app, length_app. fold (paragraphs r).
  destruct c as [[p|t]|]; simpl in Hk |- *.
  - destruct k as [|k'].
    + exists r. by split.
    + destruct (Hrec k' ltac:(lia)) as (body' & -> & Hp & Hlen).
      exists body'. split; [done|]. rewrite Hp. simpl. lia.
  - destruct (Hrec k ltac:(lia)) as (body' & -> & Hp & Hlen).
    exists body'. split; [done|]. rewrite Hp. simpl. lia.
  - destruct (Hrec k ltac:(lia)) as (body' & -> & Hp & Hlen).
    exists body'. split; [done|]. rewrite Hp. simpl. lia.
Qed.

Lemma remove_span_in_range s count : ∀ body,
  s + count ≤ length (paragraphs body) → is_Some (remove_span s count body).
Proof.
  induction count as [|count IH]; intros body Hlen; [by eexists|].
  cbn [remove_span].
  destruct (remove_paragraph_in_range body (s + count) ltac:(lia))
    as (body' & -> & Hlen').
  apply IH. lia.
Qed.

Lemma paragraphs_all body :
  Forall (λ b, ∃ p, b = Paragraph p) (iter_block_items body) →
  length (paragraphs body) = length (iter_block_items body).
Proof.
  induction body as [|c r IH]; intros Hall; [done|].
  destruct c as [[p|t]|]; simpl in *.
  - apply Forall_cons in Hall as [_ Hall]. by rewrite IH.
  - apply Forall_cons in Hall as [(p & [=]) _].
  - by apply IH.
Qed.

Lemma todo_length (amendments : list Py.str) :
  length (flat_map (λ inst, map (λ m, (inst, m.1)) (CHANGE_RE_findall inst)) amendments) =
  length (flat_map CHANGE_RE_findall amendments).
Proof.
  induction amendments as [|inst l IH]; [done|].
  cbn [flat_map]. rewrite !length_app, IH. f_equal. apply List.length_map.
Qed.

Section FirstAmendment.

Variable Pt_of_pt : Z → Z.
Variable line_spacing_of : Z → Z.
Context {Service : Type}.
Variable create : Service → Py.str → option Py.str * Service.
Variable prompt_head : Py.str.

Lemma amend_article_in_range (orig_paragraphs : list ParagraphT)
    (body : list BodyChild) (svc : Service) (inst article_num : Py.str) :
  Forall (λ b, ∃ p, b = Paragraph p) (iter_block_items body) →
  is_Some (amend_article Pt_of_pt line_spacing_of create prompt_head orig_paragraphs
             (extract_articles (iter_block_items body)) inst article_num (body, svc)).
Proof.
  intros Hall. unfold amend_article.
  destruct (extract_articles (iter_block_items body) !! (Py.lit "Član " ++ article_num))
    as [[s e]|] eqn:E; [|by eexists].
  apply extract_articles_entry in E as (b & Hb & _ & _ & He).
  pose proof (lookup_lt_Some _ _ _ Hb) as Hs.
  destruct (next_boundary_spec (drop (S s) (iter_block_items body)) (S s))
    as (Hr & _ & _).
  rewrite length_drop, <- He in Hr.
  pose proof (paragraphs_all body Hall) as Hlen.
  destruct (span_texts_in_range (paragraphs body) (e - s) s ltac:(lia)) as [ts ->].
  destruct (apply_amendment_text create prompt_head (Py.join [newline] ts) inst svc)
    as [[new_lines svc'] log].
  destruct (remove_span_in_range s (e - s) body ltac:(lia)) as [body' ->].
  by eexists.
Qed.

Lemma copy_document_body_of blocks : ∀ l,
  copy_document Pt_of_pt line_spacing_of (body_of true l) blocks =
    body_of true (l ++ map (copy_block Pt_of_pt line_spacing_of) blocks).
Proof.
  unfold copy_document.
  induction blocks as [|b blocks IH]; intros l; cbn [foldl map];
    [by rewrite app_nil_r|].
  rewrite add_block_body_of. cbn [fst]. rewrite IH. by rewrite <- app_assoc.
Qed.

Lemma iter_block_items_app b1 b2 :
  iter_block_items (b1 ++ b2) = iter_block_items b1 ++ iter_block_items b2.
Proof. unfold iter_block_items. by rewrite flat_map_app. Qed.

Lemma copied_and_merged_paragraphs (orig amend_doc : list BodyChild) :
  Forall (λ b, ∃ p, b = Paragraph p) (iter_block_items orig) →
  Forall (λ b, ∃ p, b = Paragraph p)
    (iter_block_items (copied_and_merged Pt_of_pt line_spacing_of orig amend_doc)).
Proof.
  intros Hall. unfold copied_and_merged.
  change [CSectPr] with (body_of true []). rewrite copy_document_body_of. simpl.
  set (target := body_of true _).
  assert (Ht : Forall (λ b, ∃ p, b = Paragraph p) (iter_block_items target)).
  { unfold target. rewrite iter_block_items_body_of.
    apply Forall_fmap. eapply Forall_impl; [exact Hall|].
    intros b (p & ->). simpl. by eexists. }
  unfold merge_gazette.
  destruct (find has_gazette (iter_block_items orig)) as [[block|?]|]; try done.
  set (merged := merge_gazette_text _ _).
  destruct (patch_gazette Pt_of_pt line_spacing_of block merged target)
    as [target'|] eqn:Ep; [|done].
  apply patch_gazette_Some in Ep as (pre & t & post & Et & _ & _ & ->).
  cbn [fst]. rewrite Et in Ht.
  change (pre ++ CBlock (Paragraph t) :: post)
    with (pre ++ [CBlock (Paragraph t)] ++ post) in Ht.
  rewrite !iter_block_items_app in Ht.
  apply Forall_app in Ht as [Hpre Ht]. apply Forall_app in Ht as [_ Hpost].
  match goal with
  | |- context [pre ++ CBlock ?x :: post] =>
    change (pre ++ CBlock x :: post) with (pre ++ [CBlock x] ++ post)
  end.
  rewrite !iter_block_items_app. apply Forall_app. split; [done|].
  apply Forall_app. split; [|done]. simpl. constructor; [by eexists|constructor].
Qed.

(** X18: for an original without tables and an amendment document whose
    instructions name one article and paragraph at most, [process_part_a]
    takes no paragraph at an index that does not exist, whatever the
    service answers: it returns a document. *)
Theorem process_part_a_one_instruction (orig amend_doc : list BodyChild) (svc : Service) :
  Forall (λ b, ∃ p, b = Paragraph p) (iter_block_items orig) →
  length (flat_map CHANGE_RE_findall (find_amendments amend_doc)) ≤ 1 →
  is_Some (process_part_a Pt_of_pt line_spacing_of create prompt_head
             orig amend_doc svc).
Proof.
  intros Hall Hone. unfold process_part_a.
  fold (copied_and_merged Pt_of_pt line_spacing_of orig amend_doc).
  pose proof (copied_and_merged_paragraphs orig amend_doc Hall) as Hps.
  set (updated_doc := copied_and_merged Pt_of_pt line_spacing_of orig amend_doc) in *.
  set (todo := flat_map _ (find_amendments amend_doc)).
  assert (Hlen : length todo ≤ 1).
  { unfold todo. rewrite <- (todo_length (find_amendments amend_doc)) in Hone.
    exact Hone. }
  destruct todo as [|[inst num] [|? ?]]; [by eexists| |simpl in Hlen; lia].
  cbn [amend_all].
  destruct (amend_article_in_range (paragraphs orig) updated_doc svc inst num Hps)
    as [state' ->].
  by eexists.
Qed.

End FirstAmendment.

Lemma process_part_a_one_instruction_witness :
  is_Some (process_part_a id id (constant_service repeal_answer) []
             two_articles_law repeal_instruction 0).
Proof.
  apply process_part_a_one_instruction.
  - vm_compute. repeat constructor; by eexists.
  - vm_compute. lia.
Defined.

(** With two instructions the second one can ask for a paragraph that is
    no longer there: the spans were taken before the first amendment. *)
Example process_part_a_second_instruction :
  length (flat_map CHANGE_RE_findall (find_amendments two_repeals)) = 2 ∧
  process_part_a id id (constant_service repeal_answer) []
    two_articles_law two_repeals 0 = None.
Proof. split; by vm_compute. Qed.

(** ** [merge_gazette_text]: where the replacement goes *)

Lemma startswith_app p r : Py.startswith (p ++ r) p = true.
Proof. induction p as [|c p IH]; [by destruct r|]. simpl. rewrite Z.eqb_refl. exact IH. Qed.

Lemma lazy_group_Some s : ∀ acc g,
  lazy_group acc s = Some g →
  ∃ g' post, g = rev acc ++ g' ∧ s = g' ++ rparen :: post ∧
             Forall (λ c, c ≠ rparen ∧ c ≠ newline) g'.
Proof.
  induction s as [|c r IH]; intros acc g Hg; [done|]. simpl in Hg.
  destruct (Z.eqb_spec c rparen) as [->|Hc].
  { injection Hg as <-. exists [], r. by rewrite app_nil_r. }
  destruct (Z.eqb_spec c newline) as [->|Hn]; [done|].
  apply IH in Hg as (g' & post & -> & -> & Hall).
  exists (c :: g'), post. simpl. rewrite <- app_assoc.
  split; [done|]. split; [done|]. by constructor.
Qed.

Lemma lazy_group_app g' post : ∀ acc,
  Forall (λ c, c ≠ rparen ∧ c ≠ newline) g' →
  lazy_group acc (g' ++ rparen :: post) = Some (rev acc ++ g').
Proof.
  induction g' as [|c g' IH]; intros acc Hall; simpl.
  - rewrite ?Z.eqb_refl. by rewrite app_nil_r.
  - apply Forall_cons in Hall as [[Hc Hn] Hall].
    destruct (Z.eqb_spec c rparen); [done|]. destruct (Z.eqb_spec c newline); [done|].
    rewrite IH by done. simpl. by rewrite <- app_assoc.
Qed.

(** A match is the literal, the group and a closing parenthesis; the
    group is not empty, has no line feed and, after its first character,
    no closing parenthesis. *)
Lemma gazette_at_Some s g0 g1 :
  gazette_at s = Some (g0, g1) →
  g0 = gazette_prefix ++ g1 ++ [rparen] ∧
  (∃ post, s = g0 ++ post) ∧
  ∃ c g', g1 = c :: g' ∧ c ≠ newline ∧ Forall (λ c, c ≠ rparen ∧ c ≠ newline) g'.
Proof.
  unfold gazette_at. intros Hm.
  destruct (Py.startswith s gazette_prefix) eqn:Hp; [|done].
  apply startswith_prefix in Hp.
  destruct (drop (length gazette_prefix) s) as [|c r] eqn:Hd; [done|].
  destruct (Z.eqb_spec c newline) as [->|Hn]; [done|].
  destruct (lazy_group [c] r) as [g|] eqn:Hg; [|done].
  injection Hm as <- <-.
  apply lazy_group_Some in Hg as (g' & post & -> & -> & Hall).
  split; [done|]. split.
  - exists post. rewrite Hp. simpl. by rewrite <- !app_assoc.
  - by exists c, g'.
Qed.

(** Where the text of a match stands, there is a match. *)
Lemma gazette_at_occurrence s0 g0 g1 s :
  gazette_at s0 = Some (g0, g1) → Py.startswith s g0 = true →
  gazette_at s = Some (g0, g1).
Proof.
  intros (-> & _ & c & g' & -> & Hn & Hall)%gazette_at_Some Hs.
  apply startswith_prefix in Hs. rewrite Hs.
  set (post := drop _ s). clearbody post. clear Hs.
  unfold gazette_at. rewrite <- !app_assoc. rewrite startswith_app.
  rewrite drop_app_length. simpl.
  destruct (Z.eqb_spec c newline); [done|].
  by rewrite (lazy_group_app g' post [c] Hall).
Qed.

Lemma GAZETTE_RE_search_Some s g0 g1 :
  GAZETTE_RE_search s = Some (g0, g1) →
  ∃ pre post, s = pre ++ g0 ++ post ∧
    gazette_at (g0 ++ post) = Some (g0, g1) ∧
    ∀ i, i < length pre → gazette_at (drop i s) = None.
Proof.
  induction s as [|c r IH]; simpl.
  - intros [=].
  - destruct (gazette_at (c :: r)) as [m|] eqn:Hm.
    + intros [= ->]. destruct (gazette_at_Some _ _ _ Hm) as (_ & (post & Hs) & _).
      exists [], post. simpl. rewrite <- Hs. split; [done|]. split; [done|].
      intros i Hi. simpl in Hi. lia.
    + intros (pre & post & -> & Hat & Hnone)%IH.
      exists (c :: pre), post. split; [done|]. split; [done|].
      intros [|i] Hi; [done|]. simpl in Hi |- *. apply Hnone. lia.
Qed.

Lemma replace_from_skip old new post : ∀ l,
  Py.replace_from old new (length l) (l ++ post) = Py.replace_from old new 0 post.
Proof.
  induction l as [|c l IH]; simpl; [|done].
  by destruct post.
Qed.

(** [str.replace] at the first occurrence. *)
Lemma replace_from_first old new post : ∀ pre,
  old ≠ [] →
  (∀ i, i < length pre → Py.startswith (drop i (pre ++ old ++ post)) old = false) →
  Py.replace_from old new 0 (pre ++ old ++ post) =
    pre ++ new ++ Py.replace_from old new 0 post.
Proof.
  induction pre as [|c pre IH]; intros Hne Hno.
  - destruct old as [|c old]; [done|]. cbn [app Py.replace_from].
    change (c :: old ++ post) with ((c :: old) ++ post). rewrite startswith_app.
    f_equal. cbn [length]. replace (S (length old) - 1) with (length old) by lia.
    apply replace_from_skip.
  - cbn [app Py.replace_from].
    pose proof (Hno 0 ltac:(simpl; lia)) as H0.
    change (drop 0 ((c :: pre) ++ old ++ post)) with (c :: pre ++ old ++ post) in H0.
    rewrite H0. f_equal. apply IH; [done|].
    intros i Hi. apply (Hno (S i)). simpl. lia.
Qed.

(** X19: when both texts have a citation, [merge_gazette_text] keeps the old
    text up to its first citation, puts the rendered list in the place of
    the citation, and replaces the later repetitions of that citation in
    the rest of the text as well.  The citation that is replaced is the
    literal, the group and the closing parenthesis: the parenthesis that
    stood before it stays, and the rendered list brings its own. *)
Theorem merge_gazette_text_first_citation (old_text new_text g0 g1 h0 h1 : Py.str) :
  GAZETTE_RE_search old_text = Some (g0, g1) →
  GAZETTE_RE_search new_text = Some (h0, h1) →
  ∃ pre post,
    old_text = pre ++ g0 ++ post ∧
    g0 = gazette_prefix ++ g1 ++ [rparen] ∧
    (∀ i, i < length pre → gazette_at (drop i old_text) = None) ∧
    merge_gazette_text old_text new_text =
      pre ++ (Py.lit "(" ++ gazette_prefix ++
              Py.join (Py.lit " i ") (merged_refs g1 h1) ++ Py.lit ")")
          ++ Py.replace post g0
               (Py.lit "(" ++ gazette_prefix ++
                Py.join (Py.lit " i ") (merged_refs g1 h1) ++ Py.lit ")").
Proof.
  intros Hold Hnew. unfold merge_gazette_text. rewrite Hold, Hnew.
  fold (render_refs (merged_refs g1 h1)).
  generalize (render_refs (merged_refs g1 h1)). intros new.
  apply GAZETTE_RE_search_Some in Hold as (pre & post & -> & Hat & Hnone).
  destruct (gazette_at_Some _ _ _ Hat) as (Hg0 & _ & _).
  assert (Hne : g0 ≠ []).
  { intros ->. apply (f_equal length) in Hg0. rewrite length_app in Hg0.
    assert (0 < length gazette_prefix) by (vm_compute; lia). simpl in Hg0. lia. }
  exists pre, post. split; [done|]. split; [done|]. split; [done|].
  unfold Py.replace. destruct g0 as [|c g0]; [done|].
  apply replace_from_first; [done|].
  intros i Hi. destruct (Py.startswith _ _) eqn:Hs; [|done].
  apply (gazette_at_occurrence _ _ _ _ Hat) in Hs. rewrite Hnone in Hs; done.
Qed.

Lemma merge_gazette_text_first_citation_witness :
  ∃ pre post,
    citation_one = pre ++ (gazette_prefix ++ Py.lit "44/2021)") ++ post ∧
    gazette_prefix ++ Py.lit "44/2021)" = gazette_prefix ++ Py.lit "44/2021" ++ [rparen] ∧
    (∀ i, i < length pre → gazette_at (drop i citation_one) = None) ∧
    merge_gazette_text citation_one citation_two =
      pre ++ (Py.lit "(" ++ gazette_prefix ++
              Py.join (Py.lit " i ")
                (merged_refs (Py.lit "44/2021") (Py.lit "44/2021 i 95/2022")) ++
              Py.lit ")")
          ++ Py.replace post (gazette_prefix ++ Py.lit "44/2021)")
               (Py.lit "(" ++ gazette_prefix ++
                Py.join (Py.lit " i ")
                  (merged_refs (Py.lit "44/2021") (Py.lit "44/2021 i 95/2022")) ++
                Py.lit ")").
Proof.
  exact (merge_gazette_text_first_citation citation_one citation_two
           (gazette_prefix ++ Py.lit "44/2021)") (Py.lit "44/2021")
           (gazette_prefix ++ Py.lit "44/2021 i 95/2022)") (Py.lit "44/2021 i 95/2022")
           eq_refl eq_refl).
Defined.

(** A citation that is repeated word for word is replaced at both places. *)
Example merge_gazette_text_repeated :
  merge_gazette_text
    (Py.lit "(" ++ gazette_prefix ++ Py.lit "1) i (" ++ gazette_prefix ++ Py.lit "1)")
    (gazette_prefix ++ Py.lit "2)") =
  Py.lit "((" ++ gazette_prefix ++ Py.lit "1 i 2) i ((" ++ gazette_prefix ++ Py.lit "1 i 2)".
Proof. vm_compute. reflexivity. Qed.

(** ** Documents with the same keys *)

Section SameKeys.
Context {K : Type} `{Countable K}.

Lemma get_opcodes_same (s : list K) :
  get_opcodes s s =
    Some (if decide (s = []) then [] else [(TagEqual, 0, length s, 0, length s)]).
Proof.
  unfold get_opcodes, get_matching_blocks.
  replace (2 * length s + 1) with (S (2 * length s)) by lia.
  cbn [matching_loop].
  rewrite (find_longest_match_self s (chain_b s) (chain_b_lookup s)).
  destruct s as [|x s']; [done|].
  rewrite decide_False by done.
  assert (Hn : length (x :: s') ≠ 0) by done.
  generalize dependent (length (x :: s')). intros n Hn.
  cbv beta iota zeta.
  destruct (Nat.eqb_spec n 0) as [|_]; [done|].
  change (0 <? 0) with false.
  destruct (Nat.ltb_spec (0 + n) n) as [|_]; [lia|].
  simpl andb. cbv iota.
  assert (Hloop : ∀ fuel, matching_loop (x :: s') (x :: s') (chain_b (x :: s'))
                    fuel [] ([] ++ [(0, 0, n)]) = Some [(0, 0, n)])
    by (by intros [|fuel]).
  rewrite Hloop.
  change (merge_sort match_le [(0, 0, n)]) with [(0, 0, n)].
  simpl.
  destruct (Nat.eqb_spec n 0) as [|_]; [done|]. simpl.
  destruct (Nat.ltb_spec n n) as [|_]; [lia|].
  destruct (Nat.eqb_spec n 0) as [|_]; done.
Qed.

End SameKeys.

(** X20: when the two documents have the same keys, block by block, the
    comparison holds the blocks of the new document, all without colour,
    and nothing of the original: where the two differ in what the keys do
    not see (the markers and the spaces around the text of the new
    document, the format, the cells of a table), the new document is what
    is shown. *)
Theorem comparison_blocks_same_keys (orig_blocks new_blocks : list Block) :
  map orig_key orig_blocks = map new_key new_blocks →
  comparison_blocks orig_blocks new_blocks = Some (map (pair None) new_blocks).
Proof.
  intros Hk. unfold comparison_blocks, diff, orig_texts, new_texts.
  rewrite Hk, get_opcodes_same.
  destruct (decide (map new_key new_blocks = [])) as [E|_].
  - by destruct new_blocks.
  - rewrite length_map.
    assert (Hr : region_blocks orig_blocks new_blocks
                   (TagEqual, 0, length new_blocks, 0, length new_blocks) =
                 Some (map (pair None) new_blocks)).
    { cbn [region_blocks]. rewrite Nat.sub_0_r.
      rewrite (mapM_picked_shift None new_blocks 0 0 (length new_blocks)) by lia.
      by rewrite drop_0, firstn_all. }
    assert (Hm : mapM (region_blocks orig_blocks new_blocks)
                   [(TagEqual, 0, length new_blocks, 0, length new_blocks)] =
                 Some [map (pair None) new_blocks]).
    { apply mapM_Some_2. constructor; [done|constructor]. }
    rewrite Hm. simpl. by rewrite app_nil_r.
Qed.

Lemma comparison_blocks_same_keys_witness :
  comparison_blocks [para "Član 1"; para "a"; empty_table]
                    [para "Član 1*"; para " a"; empty_table] =
    Some (map (pair None) [para "Član 1*"; para " a"; empty_table]).
Proof.
  apply comparison_blocks_same_keys. vm_compute. reflexivity.
Defined.
